(** * torchaudio: speech-recognition pipeline builder and model index

    A shallow embedding of

    - [examples/libtorchaudio/speech_recognition/build_pipeline.py]
      (argument parsing, the three stage wrappers [Loader], [Encoder],
      [Decoder], the decoder configuration and the export driver [_main]);
    - [torchaudio/models/__init__.py] (the import statements and [__all__]).

    Everything the script delegates to other libraries (torchaudio, fairseq,
    simple_ctc, TorchScript) is kept abstract in the class [Externals];
    the standard library pieces whose behaviour the script relies on
    ([argparse], [os.path.join], [str.join], [str.replace], [logging]) are
    written out. *)

From Stdlib Require Import ZArith String Ascii List Lia QArith.
From stdpp Require Import base list strings gmap.

Local Open Scope Z_scope.

(* ================================================================== *)
(** * Part I: definitions                                              *)
(* ================================================================== *)

(** ** Python values, exceptions and results *)

(** The values that reach the script through the argument namespace. *)
Inductive PyVal : Type :=
| VNone
| VBool (b : bool)
| VStr (s : string)
| VList (l : list string).

#[global] Instance PyVal_eq_dec : EqDecision PyVal.
Proof. solve_decision. Defined.

(** Python truthiness, as used by [if args.quantize:], [if args.test_file:]
    and [if data_dir:]. *)
Definition truthy (v : PyVal) : bool :=
  match v with
  | VNone => false
  | VBool b => b
  | VStr s => negb (bool_decide (s = EmptyString))
  | VList l => negb (bool_decide (l = []))
  end.

Inductive PyError : Type :=
| SystemExit (code : Z)
| TypeError
| IndexError
| ValueError
| RuntimeError (what : string)
| OSError (what : string).

Inductive Result (A : Type) : Type :=
| Ok (a : A)
| Raise (e : PyError).
Arguments Ok {A} a.
Arguments Raise {A} e.

#[global] Instance Result_ret : MRet Result := fun A a => Ok a.
#[global] Instance Result_bind : MBind Result :=
  fun A B f r => match r with Ok a => f a | Raise e => Raise e end.

Definition is_ok {A} (r : Result A) : bool :=
  match r with Ok _ => true | Raise _ => false end.

(** Exit status of the interpreter for a run of the script body:
    0 on normal completion, the code of a [SystemExit], 1 for any other
    uncaught exception. *)
Definition exit_status {A} (r : Result A) : Z :=
  match r with
  | Ok _ => 0
  | Raise (SystemExit c) => c
  | Raise _ => 1
  end.

(** List subscript [l[i]] for a non-negative constant index. *)
Definition subscript {A} (l : list A) (i : nat) : Result A :=
  match l !! i with
  | Some x => Ok x
  | None => Raise IndexError
  end.

(** ** Strings: [str.join], [str.replace], [str.startswith], ... *)

Definition chars (s : string) : list ascii := list_ascii_of_string s.

(** [sep.join(parts)] *)
Fixpoint str_join (sep : string) (parts : list string) : string :=
  match parts with
  | [] => EmptyString
  | [p] => p
  | p :: rest => p +:+ sep +:+ str_join sep rest
  end.

(** [s.replace(old, new)] for a non-empty [old]: scan left to right, and at
    each position where [old] starts emit [new] and skip the rest of the
    occurrence.  [skip] counts the characters of the current occurrence
    still to be dropped. *)
Fixpoint str_replace_from (old new : string) (skip : nat) (s : string) : string :=
  match s with
  | EmptyString => EmptyString
  | String c s' =>
      match skip with
      | S k => str_replace_from old new k s'
      | O =>
          if String.prefix old s
          then new +:+ str_replace_from old new (String.length old - 1) s'
          else String c (str_replace_from old new 0 s')
      end
  end.

(** With an empty [old], Python inserts [new] before every character and
    at the end. *)
Fixpoint str_intersperse (new s : string) : string :=
  match s with
  | EmptyString => new
  | String c s' => new +:+ String c (str_intersperse new s')
  end.

Definition str_replace (s old new : string) : string :=
  match old with
  | EmptyString => str_intersperse new s
  | _ => str_replace_from old new 0 s
  end.

Definition startswith (s pre : string) : bool := String.prefix pre s.

Fixpoint endswith_char (s : string) (c : ascii) : bool :=
  match s with
  | EmptyString => false
  | String d EmptyString => bool_decide (d = c)
  | String _ s' => endswith_char s' c
  end.

Fixpoint str_contains_char (c : ascii) (s : string) : bool :=
  match s with
  | EmptyString => false
  | String d s' => bool_decide (d = c) || str_contains_char c s'
  end.

(** [s.split(c, 1)] when [c] occurs in [s]: the text before the first [c]
    and the text after it; [None] when [c] does not occur. *)
Fixpoint split_first (c : ascii) (s : string) : option (string * string) :=
  match s with
  | EmptyString => None
  | String d s' =>
      if bool_decide (d = c) then Some (EmptyString, s')
      else match split_first c s' with
           | Some (a, b) => Some (String d a, b)
           | None => None
           end
  end.

(** [posixpath.join(a, b)] on string arguments. *)
Definition posix_join (a b : string) : string :=
  if startswith b "/" then b
  else if bool_decide (a = EmptyString) || endswith_char a "/" then a +:+ b
  else a +:+ "/" +:+ b.

(** [os.path.join(a, b)] where the first argument comes from the argument
    namespace: [os.fspath] rejects anything but a string (or path-like)
    with a [TypeError]. *)
Definition os_path_join (a : PyVal) (b : string) : Result string :=
  match a with
  | VStr s => Ok (posix_join s b)
  | _ => Raise TypeError
  end.

(** ** The decoder configuration ([_get_decoder]) *)

(** Keyword arguments of [simple_ctc.BeamSearchDecoder].  [cutoff_prob] is
    the decimal literal of the source. *)
Record BeamSearchDecoder : Type := {
  bsd_labels : list string;
  cutoff_top_n : Z;
  cutoff_prob : Q;
  beam_size : Z;
  num_processes : Z;
  blank_id : Z;
  is_nll : bool;
}.

Definition labels : list string :=
  [ "<s>"; "<pad>"; "</s>"; "<unk>"; "|";
    "E"; "T"; "A"; "O"; "N"; "I"; "H"; "S"; "R"; "D"; "L"; "U"; "M"; "W";
    "C"; "F"; "G"; "Y"; "P"; "B"; "V"; "K"; "'"; "X"; "J"; "Q"; "Z" ].

(** What the decoder returns; only [label_sequences] (batch, then beam, then
    labels) is read by the script. *)
Record DecodeResult : Type := {
  label_sequences : list (list (list string));
}.

(** ** The stage wrappers *)

Inductive Loader : Type := mkLoader.

Record Encoder (Model : Type) : Type := mkEncoder { encoder : Model }.
Arguments mkEncoder {Model} encoder.
Arguments encoder {Model} e.

Record Decoder : Type := mkDecoder { decoder : BeamSearchDecoder }.

Definition _get_decoder : Decoder :=
  mkDecoder
    {| bsd_labels := labels;
       cutoff_top_n := 40;
       cutoff_prob := 0.8%Q;
       beam_size := 100;
       num_processes := 1;
       blank_id := 0;
       is_nll := true |}.

(** The modules handed to [torch.jit.script]. *)
Inductive Stage (Model : Type) : Type :=
| StLoader (l : Loader)
| StEncoder (e : Encoder Model)
| StDecoder (d : Decoder).
Arguments StLoader {Model} l.
Arguments StEncoder {Model} e.
Arguments StDecoder {Model} d.

(** [Decoder.forward] after the call into the beam-search decoder:
    [''.join(result.label_sequences[0][0]).replace('|', ' ')]. *)
Definition best_transcript (result : DecodeResult) : Result string :=
  batch0 ← subscript (label_sequences result) 0;
  best ← subscript batch0 0;
  Ok (str_replace (str_join EmptyString best) "|" " ").

(** ** [argparse], as far as [_parse_args] uses it

    The parser built by [_parse_args] has the implicit [-h/--help] action
    and seven optional arguments; it has no positional argument, no
    subparser, no mutually exclusive group, the default prefix character
    [-] and abbreviations allowed.  The definitions below follow
    [ArgumentParser.parse_args] of CPython 3.6 to 3.9 specialised to such a
    parser.  Command-line strings are byte strings here and [\d] is read as
    an ASCII digit.  Python matches any Unicode decimal digit, so a dash
    followed by, say, Arabic-Indic digits, which Python takes for a negative
    number and hence for a value, is taken for an unknown option here. *)

Module argparse.

Inductive Action : Type :=
| Help | ModelFile | DictDir | OutputPath | TestFile
| Debug | Quantize | OptimizeForMobile.

#[global] Instance Action_eq_dec : EqDecision Action.
Proof. solve_decision. Defined.

Inductive ActionKind : Type := KHelp | KStore | KStoreTrue.

(** [action=] of each [add_argument] call ([store] is the default). *)
Definition kind (a : Action) : ActionKind :=
  match a with
  | Help => KHelp
  | ModelFile | DictDir | OutputPath | TestFile => KStore
  | Debug | Quantize | OptimizeForMobile => KStoreTrue
  end.

(** Number of command-line strings an action consumes: one for [store]
    ([nargs=None]), none for [store_true] and [help] ([nargs=0]). *)
Definition nargs (a : Action) : nat :=
  match kind a with KStore => 1%nat | _ => 0%nat end.

(** [required=True] is passed for [--model-file] only. *)
Definition required (a : Action) : bool :=
  match a with ModelFile => true | _ => false end.

(** [parser._actions], in registration order. *)
Definition _actions : list Action :=
  [Help; ModelFile; DictDir; OutputPath; TestFile; Debug; Quantize; OptimizeForMobile].

(** [parser._option_string_actions], in registration order. *)
Definition _option_string_actions : list (string * Action) :=
  [ ("-h", Help); ("--help", Help);
    ("--model-file", ModelFile);
    ("--dict-dir", DictDir);
    ("--output-path", OutputPath);
    ("--test-file", TestFile);
    ("--debug", Debug);
    ("--quantize", Quantize);
    ("--optimize-for-mobile", OptimizeForMobile) ].

Definition option_strings (a : Action) : list string :=
  omap (fun p => if bool_decide (p.2 = a) then Some p.1 else None)
       _option_string_actions.

Fixpoint assoc (k : string) (l : list (string * Action)) : option Action :=
  match l with
  | [] => None
  | (k', a) :: l' => if bool_decide (k' = k) then Some a else assoc k l'
  end.

(** The attributes of the namespace ([dest] of each action: the first long
    option string without its dashes, [-] turned into [_]). *)
Record Namespace : Type := {
  model_file : PyVal;
  dict_dir : PyVal;
  output_path : PyVal;
  test_file : PyVal;
  debug : PyVal;
  quantize : PyVal;
  optimize_for_mobile : PyVal;
}.

(** [setattr(namespace, action.dest, v)]; the help action has no
    destination ([SUPPRESS]). *)
Definition setattr (a : Action) (v : PyVal) (ns : Namespace) : Namespace :=
  match a with
  | Help => ns
  | ModelFile =>
      {| model_file := v; dict_dir := dict_dir ns; output_path := output_path ns;
         test_file := test_file ns; debug := debug ns; quantize := quantize ns;
         optimize_for_mobile := optimize_for_mobile ns |}
  | DictDir =>
      {| model_file := model_file ns; dict_dir := v; output_path := output_path ns;
         test_file := test_file ns; debug := debug ns; quantize := quantize ns;
         optimize_for_mobile := optimize_for_mobile ns |}
  | OutputPath =>
      {| model_file := model_file ns; dict_dir := dict_dir ns; output_path := v;
         test_file := test_file ns; debug := debug ns; quantize := quantize ns;
         optimize_for_mobile := optimize_for_mobile ns |}
  | TestFile =>
      {| model_file := model_file ns; dict_dir := dict_dir ns; output_path := output_path ns;
         test_file := v; debug := debug ns; quantize := quantize ns;
         optimize_for_mobile := optimize_for_mobile ns |}
  | Debug =>
      {| model_file := model_file ns; dict_dir := dict_dir ns; output_path := output_path ns;
         test_file := test_file ns; debug := v; quantize := quantize ns;
         optimize_for_mobile := optimize_for_mobile ns |}
  | Quantize =>
      {| model_file := model_file ns; dict_dir := dict_dir ns; output_path := output_path ns;
         test_file := test_file ns; debug := debug ns; quantize := v;
         optimize_for_mobile := optimize_for_mobile ns |}
  | OptimizeForMobile =>
      {| model_file := model_file ns; dict_dir := dict_dir ns; output_path := output_path ns;
         test_file := test_file ns; debug := debug ns; quantize := quantize ns;
         optimize_for_mobile := v |}
  end.

Definition getattr (a : Action) (ns : Namespace) : PyVal :=
  match a with
  | Help => VNone
  | ModelFile => model_file ns
  | DictDir => dict_dir ns
  | OutputPath => output_path ns
  | TestFile => test_file ns
  | Debug => debug ns
  | Quantize => quantize ns
  | OptimizeForMobile => optimize_for_mobile ns
  end.

(** The defaults installed before parsing: [None] for [store],
    [False] for [store_true]. *)
Definition default (a : Action) : PyVal :=
  match kind a with KStoreTrue => VBool false | _ => VNone end.

Definition initial_namespace : Namespace :=
  foldl (fun ns a => setattr a (default a) ns)
        {| model_file := VNone; dict_dir := VNone; output_path := VNone;
           test_file := VNone; debug := VNone; quantize := VNone;
           optimize_for_mobile := VNone |}
        _actions.

(** Messages of [parser.error]. *)
Inductive ErrorMsg : Type :=
| AmbiguousOption (option : string) (matches : list string)
| UnexpectedOptionString (option : string)
| ExpectedOneArgument (a : Action)
| IgnoredExplicitArgument (a : Action) (explicit_arg : string)
| RequiredArguments (names : list string)
| UnrecognizedArguments (extras : list string).

(** How a call into the parser ends: it returns, prints the help and exits
    with status 0 ([Help] action), prints the usage and a message and exits
    with status 2 ([parser.error]), or lets an exception escape. *)
Inductive Outcome (A : Type) : Type :=
| Parsed (a : A)
| HelpExit
| ErrorExit (msg : ErrorMsg)
| Crash (e : PyError).
Arguments Parsed {A} a.
Arguments HelpExit {A}.
Arguments ErrorExit {A} msg.
Arguments Crash {A} e.

#[global] Instance Outcome_ret : MRet Outcome := fun A a => Parsed a.
#[global] Instance Outcome_bind : MBind Outcome :=
  fun A B f r =>
    match r with
    | Parsed a => f a
    | HelpExit => HelpExit
    | ErrorExit m => ErrorExit m
    | Crash e => Crash e
    end.

(** An option tuple: the action (if any), the option string it was
    recognised under, and the explicit argument after [=] (or glued to a
    short option). *)
Definition OptionTuple : Type := (option Action * string * option string)%type.

(** The pattern letter of a command-line string: ['A'], ['-'] (the [--]
    separator) or ['O'] with its option tuple. *)
Inductive Pattern : Type :=
| PA
| PDash
| PO (t : OptionTuple).

Definition is_digit (c : ascii) : bool :=
  let n := nat_of_ascii c in (48 <=? n)%nat && (n <=? 57)%nat.

Fixpoint all_digits (l : list ascii) : bool :=
  match l with
  | [] => true
  | c :: l' => is_digit c && all_digits l'
  end.

(** [digits.digits] with at least one digit after the point, any number
    before it. *)
Fixpoint decimal_tail (l : list ascii) : bool :=
  match l with
  | [] => false
  | c :: l' =>
      if bool_decide (c = "."%char)
      then negb (bool_decide (l' = [])) && all_digits l'
      else is_digit c && decimal_tail l'
  end.

Definition negative_number_exact (l : list ascii) : bool :=
  match l with
  | c :: l' =>
      bool_decide (c = "-"%char)
      && ((negb (bool_decide (l' = [])) && all_digits l') || decimal_tail l')
  | [] => false
  end.

Definition strip_final_newline (l : list ascii) : list ascii :=
  match reverse l with
  | c :: r => if bool_decide (c = "010"%char) then reverse r else l
  | [] => l
  end.

(** [parser._negative_number_matcher.match(s)], the pattern being
    [^-\d+$|^-\d*\.\d+$]; [$] also matches before a final newline. *)
Definition _negative_number_matcher (s : string) : bool :=
  negative_number_exact (chars s)
  || negative_number_exact (strip_final_newline (chars s)).

Definition _get_option_tuples (option_string : string)
  : Outcome (list (Action * string * option string)) :=
  match option_string with
  | String c0 (String c1 tail) =>
      if bool_decide (c0 = "-"%char) && bool_decide (c1 = "-"%char) then
        (* two prefix characters: split at the first '=' only *)
        let '(option_prefix, explicit_arg) :=
          match split_first "=" option_string with
          | Some (p, e) => (p, Some e)
          | None => (option_string, None)
          end in
        Parsed
          (omap (fun p : string * Action =>
                   if startswith p.1 option_prefix
                   then Some (p.2, p.1, explicit_arg) else None)
                _option_string_actions)
      else if bool_decide (c0 = "-"%char) then
        (* a single prefix character: a short option may carry its
           argument glued to it *)
        let option_prefix := option_string in
        let short_option_prefix := String c0 (String c1 EmptyString) in
        let short_explicit_arg := tail in
        Parsed
          (omap (fun p : string * Action =>
                   if bool_decide (p.1 = short_option_prefix)
                   then Some (p.2, p.1, Some short_explicit_arg)
                   else if startswith p.1 option_prefix
                   then Some (p.2, p.1, None) else None)
                _option_string_actions)
      else ErrorExit (UnexpectedOptionString option_string)
  | _ => Crash IndexError
  end.

Definition _parse_optional (arg_string : string) : Outcome (option OptionTuple) :=
  if bool_decide (arg_string = EmptyString) then Parsed None
  else if negb (startswith arg_string "-") then Parsed None
  else
    match assoc arg_string _option_string_actions with
    | Some action => Parsed (Some (Some action, arg_string, None))
    | None =>
        if bool_decide (String.length arg_string = 1%nat) then Parsed None
        else
          let with_equals :=
            match split_first "=" arg_string with
            | Some (option_string, explicit_arg) =>
                match assoc option_string _option_string_actions with
                | Some action => Some (Some action, option_string, Some explicit_arg)
                | None => None
                end
            | None => None
            end in
          match with_equals with
          | Some t => Parsed (Some t)
          | None =>
              option_tuples ← _get_option_tuples arg_string;
              match option_tuples with
              | _ :: _ :: _ =>
                  ErrorExit (AmbiguousOption arg_string
                               (map (fun t => t.1.2) option_tuples))
              | [(a, s, e)] => Parsed (Some (Some a, s, e))
              | [] =>
                  if _negative_number_matcher arg_string then Parsed None
                  else if str_contains_char " " arg_string then Parsed None
                  else Parsed (Some (None, arg_string, None))
              end
          end
    end.

(** First pass of [_parse_known_args]: the pattern of every argument
    string; everything after [--] is an argument. *)
Fixpoint classify (arg_strings : list string) : Outcome (list (string * Pattern)) :=
  match arg_strings with
  | [] => Parsed []
  | s :: rest =>
      if bool_decide (s = "--")
      then Parsed ((s, PDash) :: map (fun a => (a, PA)) rest)
      else
        t ← _parse_optional s;
        r ← classify rest;
        Parsed ((s, match t with None => PA | Some t' => PO t' end) :: r)
  end.

(** The state of the second pass. *)
Record PState : Type := {
  namespace : Namespace;
  seen_actions : list Action;
  extras : list string;
}.

Fixpoint remove_first (x : string) (l : list string) : list string :=
  match l with
  | [] => []
  | y :: l' => if bool_decide (y = x) then l' else y :: remove_first x l'
  end.

(** [_get_values]: the first [--] is dropped, a single string for a
    one-argument action is the value, anything else is a list. *)
Definition _get_values (a : Action) (arg_strings : list string) : PyVal :=
  match remove_first "--" arg_strings, nargs a with
  | [s], 1%nat => VStr s
  | l, _ => VList l
  end.

(** [take_action]: record the action as seen and run it. *)
Definition take_action (t : Action * list string * string) (st : PState)
  : Outcome PState :=
  let '(action, argument_strings, _) := t in
  let seen := action :: seen_actions st in
  let argument_values := _get_values action argument_strings in
  match kind action with
  | KHelp => HelpExit
  | KStore =>
      Parsed {| namespace := setattr action argument_values (namespace st);
                seen_actions := seen; extras := extras st |}
  | KStoreTrue =>
      Parsed {| namespace := setattr action (VBool true) (namespace st);
                seen_actions := seen; extras := extras st |}
  end.

Fixpoint take_actions (ts : list (Action * list string * string)) (st : PState)
  : Outcome PState :=
  match ts with
  | [] => Parsed st
  | t :: ts' => st' ← take_action t st; take_actions ts' st'
  end.

(** [_match_argument]: how many of the following strings the action takes.
    For an optional with [nargs=None] the pattern of the strings that
    follow must start with an ['A']. *)
Definition _match_argument (action : Action) (arg_strings_pattern : list Pattern)
  : Outcome nat :=
  match nargs action with
  | O => Parsed 0%nat
  | _ =>
      match arg_strings_pattern with
      | PA :: _ => Parsed 1%nat
      | _ => ErrorExit (ExpectedOneArgument action)
      end
  end.

Definition second_char_is_dash (s : string) : bool :=
  match s with
  | String _ (String c _) => bool_decide (c = "-"%char)
  | _ => false
  end.

(** The last iteration of the loop of [consume_optional], reached without
    an explicit argument: the arguments are the next [arg_count] strings. *)
Definition match_following (action : Action) (option_string : string)
    (rest : list (string * Pattern))
    (action_tuples : list (Action * list string * string))
  : Outcome (list (Action * list string * string) * nat) :=
  arg_count ← _match_argument action (map snd rest);
  Parsed (action_tuples ++ [(action, map fst (take arg_count rest), option_string)],
          arg_count).

(** The loop of [consume_optional] entered with an explicit argument: it
    peels single-dash flags off the explicit argument.  The result is the
    list of action tuples and the number of following strings used up. *)
Fixpoint match_explicit (action : Action) (option_string explicit_arg : string)
    (rest : list (string * Pattern))
    (action_tuples : list (Action * list string * string))
  : Outcome (list (Action * list string * string) * nat) :=
  if (nargs action =? 0)%nat && negb (second_char_is_dash option_string)
  then
    match explicit_arg with
    | EmptyString => Crash IndexError      (* explicit_arg[0] of an empty string *)
    | String c new_explicit_arg =>
        let action_tuples' := action_tuples ++ [(action, [], option_string)] in
        let option_string' := String "-" (String c EmptyString) in
        match assoc option_string' _option_string_actions with
        | Some action' =>
            match new_explicit_arg with
            | EmptyString => match_following action' option_string' rest action_tuples'
            | _ => match_explicit action' option_string' new_explicit_arg rest
                     action_tuples'
            end
        | None => ErrorExit (IgnoredExplicitArgument action explicit_arg)
        end
    end
  else if (nargs action =? 1)%nat
  then Parsed (action_tuples ++ [(action, [explicit_arg], option_string)], 0%nat)
  else ErrorExit (IgnoredExplicitArgument action explicit_arg).

Definition consume_optional (t : Action * string * option string)
    (rest : list (string * Pattern))
  : Outcome (list (Action * list string * string) * nat) :=
  let '(action, option_string, explicit_arg) := t in
  match explicit_arg with
  | Some e => match_explicit action option_string e rest []
  | None => match_following action option_string rest []
  end.

Definition add_extra (s : string) (st : PState) : PState :=
  {| namespace := namespace st; seen_actions := seen_actions st;
     extras := extras st ++ [s] |}.

(** Second pass of [_parse_known_args].  With no positional argument in the
    parser, every ['A'] or ['-'] string that no option takes, and every
    unknown option, goes to [extras]; an option is consumed together with
    the strings it takes ([arg_count] is 0 or 1 for this parser). *)
Fixpoint consume (items : list (string * Pattern)) (st : PState) : Outcome PState :=
  match items with
  | [] => Parsed st
  | (s, PA) :: rest | (s, PDash) :: rest | (s, PO (None, _, _)) :: rest =>
      consume rest (add_extra s st)
  | (s, PO (Some action, option_string, explicit_arg)) :: rest =>
      r ← consume_optional (action, option_string, explicit_arg) rest;
      st' ← take_actions r.1 st;
      match r.2, rest with
      | S _, _ :: rest' => consume rest' st'
      | _, _ => consume rest st'
      end
  end.

Definition initial_state : PState :=
  {| namespace := initial_namespace; seen_actions := []; extras := [] |}.

(** [_get_action_name] of an optional: its option strings joined by [/]. *)
Definition _get_action_name (a : Action) : string :=
  str_join "/" (option_strings a).

Definition parse_known_args (arg_strings : list string)
  : Outcome (Namespace * list string) :=
  items ← classify arg_strings;
  st ← consume items initial_state;
  let required_actions :=
    omap (fun a => if negb (bool_decide (a ∈ seen_actions st)) && required a
                   then Some (_get_action_name a) else None) _actions in
  match required_actions with
  | [] => Parsed (namespace st, extras st)
  | _ => ErrorExit (RequiredArguments required_actions)
  end.

Definition parse_args (arg_strings : list string) : Outcome Namespace :=
  r ← parse_known_args arg_strings;
  match r.2 with
  | [] => Parsed r.1
  | argv => ErrorExit (UnrecognizedArguments argv)
  end.

(** The part of an option token that names the option: the text before the
    first [=]. *)
Definition option_key (tok : string) : string :=
  match split_first "=" tok with
  | Some (k, _) => k
  | None => tok
  end.

(** [tok] spells the long option [opt]: in full or abbreviated to at least
    [--] and one more character, with or without [=value]. *)
Definition spells (opt tok : string) : bool :=
  let k := option_key tok in
  startswith opt k && startswith k "--" && (3 <=? String.length k)%nat.

(** A token that asks for help: [-h] possibly followed by more characters,
    or [--help] in full or abbreviated. *)
Definition asks_help (tok : string) : bool :=
  startswith tok "-h" || spells "--help" tok.

(** [tok] names the option string [opt] of the parser: a long option
    spelled in full or abbreviated, or the short option followed by
    anything. *)
Definition names (opt tok : string) : bool :=
  if second_char_is_dash opt then spells opt tok else startswith tok opt.

(** [tok] names one of the option strings of action [a]. *)
Definition mentions (a : Action) (tok : string) : bool :=
  existsb (fun p : string * Action => bool_decide (p.2 = a) && names p.1 tok)
          _option_string_actions.


(** The action of an action tuple. *)
Definition tuple_action (t : Action * list string * string) : Action := t.1.1.

(** An item of the first pass whose option, if any, is an entry of the
    table with an action satisfying [P]. *)
Definition item_wf (P : Action -> Prop) (it : string * Pattern) : Prop :=
  match it.2 with
  | PO (Some b, os, _) => (os, b) ∈ _option_string_actions /\ P b
  | _ => True
  end.

(** *** Command lines in canonical form

    Every option spelled in full, a [store] option followed by a value that
    is not taken for an option (it is empty or does not start with [-]), a
    [store_true] option standing alone. *)

Inductive CliArg : Type :=
| Given (a : Action) (value : string)
| Switch (a : Action).

Definition long_name (a : Action) : string :=
  match a with
  | Help => "--help"
  | ModelFile => "--model-file"
  | DictDir => "--dict-dir"
  | OutputPath => "--output-path"
  | TestFile => "--test-file"
  | Debug => "--debug"
  | Quantize => "--quantize"
  | OptimizeForMobile => "--optimize-for-mobile"
  end.

Definition render (c : CliArg) : list string :=
  match c with
  | Given a v => [long_name a; v]
  | Switch a => [long_name a]
  end.

Definition command_line (cs : list CliArg) : list string := flat_map render cs.

Definition canonical (c : CliArg) : Prop :=
  match c with
  | Given a v => kind a = KStore /\ startswith v "-" = false
  | Switch a => kind a = KStoreTrue
  end.

Definition cli_action (c : CliArg) : Action :=
  match c with Given a _ => a | Switch a => a end.

(** The namespace a canonical command line stands for. *)
Definition store_arg (ns : Namespace) (c : CliArg) : Namespace :=
  match c with
  | Given a v => setattr a (VStr v) ns
  | Switch a => setattr a (VBool true) ns
  end.

Definition namespace_of (cs : list CliArg) : Namespace :=
  foldl store_arg initial_namespace cs.

(** The items the first pass makes of a canonical argument. *)
Definition render_items (c : CliArg) : list (string * Pattern) :=
  match c with
  | Given a v => [(long_name a, PO (Some a, long_name a, None)); (v, PA)]
  | Switch a => [(long_name a, PO (Some a, long_name a, None))]
  end.

End argparse.

(** ** The external collaborators

    Types and operations of torchaudio, fairseq, simple_ctc and TorchScript
    that the script calls.  Every call may raise. Sample rates are integers
    ([float(sample_rate)] and [16000.] are exact). *)

Class Externals : Type := {
  Tensor : Type;
  FairseqModel : Type;
  FairseqArgs : Type;
  Wav2Vec2Model : Type;
  ScriptModule : Type;
  (** [torchaudio.load(path)]: the waveform and its native sample rate *)
  torchaudio_load : string -> Result (Tensor * Z);
  (** [torchaudio.functional.resample(waveform, orig_freq, new_freq)] *)
  resample : Tensor -> Z -> Z -> Result Tensor;
  (** [fairseq.checkpoint_utils.load_model_ensemble_and_task(files,
      arg_overrides=overrides)]: the ensemble and the arguments (the task,
      third component, is dropped by the script) *)
  load_model_ensemble_and_task :
    list PyVal -> gmap string PyVal -> Result (list FairseqModel * FairseqArgs);
  import_fairseq_finetuned_model : FairseqModel -> FairseqArgs -> Result Wav2Vec2Model;
  (** [model.eval()] *)
  eval_mode : Wav2Vec2Model -> Wav2Vec2Model;
  (** [model(waveform)]: the emission and the auxiliary output *)
  model_forward : Wav2Vec2Model -> Tensor -> Result (Tensor * option Tensor);
  (** [model.encoder.transformer.pos_conv_embed.__prepare_scriptable__()]:
      the model after the in-place change *)
  prepare_scriptable : Wav2Vec2Model -> Result Wav2Vec2Model;
  (** [torch.quantization.quantize_dynamic(encoder,
      qconfig_spec={torch.nn.Linear}, dtype=torch.qint8)] *)
  quantize_dynamic : Encoder Wav2Vec2Model -> Result (Encoder Wav2Vec2Model);
  (** [simple_ctc.BeamSearchDecoder(...).decode(emission)] *)
  beam_search_decode : BeamSearchDecoder -> Tensor -> Result DecodeResult;
  (** [torch.jit.script(module)] *)
  jit_script : Stage Wav2Vec2Model -> Result ScriptModule;
  (** [torch.utils.mobile_optimizer.optimize_for_mobile(scripted)] *)
  optimize_for_mobile : ScriptModule -> Result ScriptModule;
  (** [scripted.save(path)]: [None] when the file is written, the exception
      otherwise *)
  save_error : ScriptModule -> string -> option PyError;
}.

(** ** Logging *)

Inductive Level : Type := DEBUG | INFO | WARNING.

Definition levelno (l : Level) : Z :=
  match l with DEBUG => 10 | INFO => 20 | WARNING => 30 end.

Record LoggingConfig : Type := {
  level : Level;
  format_ : string;
}.

(** [_init_logging]'s arguments to [logging.basicConfig]. *)
Definition logging_config (debug : PyVal) : LoggingConfig :=
  {| level := if truthy debug then DEBUG else INFO;
     format_ := if negb (truthy debug) then "%(message)s"
                else "%(asctime)s: %(levelname)7s: %(funcName)10s: %(message)s" |}.

Section Pipeline.
Context `{X : Externals}.

(** *** Stage wrappers: the [forward] methods *)

(** [Loader.forward] *)
Definition Loader_forward (audio_path : string) : Result Tensor :=
  '(waveform, sample_rate) ← torchaudio_load audio_path;
  if bool_decide (sample_rate ≠ 16000)
  then resample waveform sample_rate 16000
  else Ok waveform.

(** [Encoder.forward] *)
Definition Encoder_forward (self : Encoder Wav2Vec2Model) (waveform : Tensor)
  : Result Tensor :=
  '(result, _) ← model_forward (encoder self) waveform;
  Ok result.

(** [Decoder.forward] *)
Definition Decoder_forward (self : Decoder) (emission : Tensor) : Result string :=
  result ← beam_search_decode (decoder self) emission;
  best_transcript result.

(** *** Model loading *)

(** [_load_fairseq_model] *)
Definition _load_fairseq_model (input_file data_dir : PyVal)
  : Result (FairseqModel * FairseqArgs) :=
  let overrides : gmap string PyVal := ∅ in
  let overrides := if truthy data_dir then <["data" := data_dir]> overrides
                   else overrides in
  '(model, args) ← load_model_ensemble_and_task [input_file] overrides;
  model ← subscript model 0;
  Ok (model, args).

(** [_get_model] *)
Definition _get_model (model_file dict_dir : PyVal) : Result Wav2Vec2Model :=
  '(original, args) ← _load_fairseq_model model_file dict_dir;
  import_fairseq_finetuned_model original args.

(** *** The observable world of a run *)

(** What [_LG.info] is called with. *)
Inductive LogMsg : Type :=
| MsgEncoder (e : Encoder Wav2Vec2Model)       (* [_LG.info(encoder)] *)
| MsgText (msg : string)                       (* a plain string *)
| MsgFormat (fmt : string) (arg : PyVal).      (* ['Testing with %s', arg] *)

(** The calls of [_main] into the stages, the external libraries and
    [os.path.join]. *)
Inductive Call : Type :=
| CGetModel (model_file dict_dir : PyVal)
| CPrepareScriptable (m : Wav2Vec2Model)
| CQuantize (e : Encoder Wav2Vec2Model)
| CLoader (l : Loader) (audio_path : PyVal)
| CEncoder (e : Encoder Wav2Vec2Model) (waveform : Tensor)
| CDecoder (d : Decoder) (emission : Tensor)
| CScript (m : Stage Wav2Vec2Model)
| COptimize (s : ScriptModule)
| CJoin (a : PyVal) (name : string)
| CSave (s : ScriptModule) (path : string).

Inductive Event : Type :=
| EvHelp                                        (* help text on stdout *)
| EvUsageError (msg : argparse.ErrorMsg)        (* usage and message on stderr *)
| EvLog (cfg : LoggingConfig) (msg : LogMsg)    (* an emitted log record *)
| EvCall (c : Call)
| EvWrite (path : string) (artifact : ScriptModule).

(** The logging configuration ([None] until [basicConfig] runs: the root
    logger then stands at WARNING) and the events so far, oldest first. *)
Record World : Type := {
  logging : option LoggingConfig;
  events : list Event;
}.

Definition initial_world : World := {| logging := None; events := [] |}.

(** Computations of the script: a result or an exception, and the world
    as it is left in either case. *)
Definition M (A : Type) : Type := World -> Result A * World.

#[global] Instance M_ret : MRet M := fun A a w => (Ok a, w).
#[global] Instance M_bind : MBind M :=
  fun A B f m w =>
    match m w with
    | (Ok a, w') => f a w'
    | (Raise e, w') => (Raise e, w')
    end.

Definition raise {A} (e : PyError) : M A := fun w => (Raise e, w).

Definition lift {A} (r : Result A) : M A := fun w => (r, w).

Definition emit (ev : Event) : M unit :=
  fun w => (Ok tt, {| logging := logging w; events := events w ++ [ev] |}).

(** A call is recorded, then its result or exception takes effect. *)
Definition call {A} (c : Call) (r : Result A) : M A :=
  _ ← emit (EvCall c); lift r.

(** [logging.basicConfig(level=..., format=...)] on a root logger without
    handlers; a second call would change nothing. *)
Definition basicConfig (cfg : LoggingConfig) : M unit :=
  fun w =>
    (Ok tt, {| logging := match logging w with
                          | None => Some cfg
                          | Some c => Some c
                          end;
               events := events w |}).

(** [_LG.info(msg)]: emitted when the effective level admits INFO. *)
Definition info (msg : LogMsg) : M unit :=
  fun w =>
    match logging w with
    | Some cfg =>
        if levelno (level cfg) <=? levelno INFO
        then emit (EvLog cfg msg) w
        else (Ok tt, w)
    | None => (Ok tt, w)
    end.

(** [scripted.save(path)] *)
Definition save (scripted : ScriptModule) (path : string) : M unit :=
  _ ← emit (EvCall (CSave scripted path));
  match save_error scripted path with
  | None => emit (EvWrite path scripted)
  | Some e => raise e
  end.

(** [_parse_args]: [parser.parse_args()] on [sys.argv[1:]]. *)
Definition _parse_args (argv : list string) : M argparse.Namespace :=
  match argparse.parse_args argv with
  | argparse.Parsed ns => mret ns
  | argparse.HelpExit => _ ← emit EvHelp; raise (SystemExit 0)
  | argparse.ErrorExit msg => _ ← emit (EvUsageError msg); raise (SystemExit 2)
  | argparse.Crash e => raise e
  end.

(** [_init_logging] *)
Definition _init_logging (debug : PyVal) : M unit :=
  basicConfig (logging_config debug).

(** The self-test of [_main] ([if args.test_file:]). *)
Definition _self_test (loader : Loader) (encoder : Encoder Wav2Vec2Model)
    (decoder : Decoder) (test_file : PyVal) : M unit :=
  _ ← info (MsgFormat "Testing with %s" test_file);
  waveform ← call (CLoader loader test_file)
                  (match test_file with
                   | VStr path => Loader_forward path
                   | _ => Raise TypeError
                   end);
  emission ← call (CEncoder encoder waveform) (Encoder_forward encoder waveform);
  transcript ← call (CDecoder decoder emission) (Decoder_forward decoder emission);
  info (MsgText transcript).

(** The export steps of [_main]. *)
Definition _export (loader : Loader) (encoder : Encoder Wav2Vec2Model)
    (decoder : Decoder) (args : argparse.Namespace) : M unit :=
  scripted_loader ← call (CScript (StLoader loader)) (jit_script (StLoader loader));
  path ← call (CJoin (argparse.output_path args) "loader.zip")
              (os_path_join (argparse.output_path args) "loader.zip");
  _ ← save scripted_loader path;
  scripted_decoder ← call (CScript (StDecoder decoder)) (jit_script (StDecoder decoder));
  path ← call (CJoin (argparse.output_path args) "decoder.zip")
              (os_path_join (argparse.output_path args) "decoder.zip");
  _ ← save scripted_decoder path;
  scripted ← call (CScript (StEncoder encoder)) (jit_script (StEncoder encoder));
  scripted ← (if truthy (argparse.optimize_for_mobile args)
              then call (COptimize scripted) (optimize_for_mobile scripted)
              else mret scripted);
  path ← call (CJoin (argparse.output_path args) "encoder.zip")
              (os_path_join (argparse.output_path args) "encoder.zip");
  save scripted path.

(** The first steps of [_main] after logging is set up: the model is
    loaded and put in inference mode, the encoder stage is built around it
    and logged, and quantized if asked for. *)
Definition _assemble (args : argparse.Namespace) : M (Encoder Wav2Vec2Model) :=
  model ← call (CGetModel (argparse.model_file args) (argparse.dict_dir args))
               (_get_model (argparse.model_file args) (argparse.dict_dir args));
  let model := eval_mode model in
  let encoder := mkEncoder model in
  _ ← info (MsgEncoder encoder);
  if truthy (argparse.quantize args) then
    _ ← info (MsgText "Quantizing the model");
    model' ← call (CPrepareScriptable model) (prepare_scriptable model);
    (* [encoder] holds the very object that was just changed *)
    let encoder := mkEncoder model' in
    encoder ← call (CQuantize encoder) (quantize_dynamic encoder);
    _ ← info (MsgEncoder encoder);
    mret encoder
  else mret encoder.

(** The steps of [_main] once the arguments are parsed. *)
Definition _build (args : argparse.Namespace) : M unit :=
  _ ← _init_logging (argparse.debug args);
  let loader := mkLoader in
  let decoder := _get_decoder in
  encoder ← _assemble args;
  _ ← (if truthy (argparse.test_file args)
       then _self_test loader encoder decoder (argparse.test_file args)
       else mret tt);
  _export loader encoder decoder args.

(** [_main] *)
Definition _main (argv : list string) : M unit :=
  args ← _parse_args argv;
  _build args.

(** A run of the script from a fresh process: how it ends, and the events
    it leaves. *)
Definition run (argv : list string) : Result unit * World :=
  _main argv initial_world.

Definition result_of (argv : list string) : Result unit := (run argv).1.

Definition trace_of (argv : list string) : list Event := events (run argv).2.

(** *** Reading a trace *)

Definition written (ev : Event) : option (string * ScriptModule) :=
  match ev with EvWrite p a => Some (p, a) | _ => None end.

(** The artifact files written, in order. *)
Definition artifacts (tr : list Event) : list (string * ScriptModule) :=
  omap written tr.

Definition called (ev : Event) : option Call :=
  match ev with EvCall c => Some c | _ => None end.

Definition calls (tr : list Event) : list Call := omap called tr.

Definition logged (ev : Event) : option LogMsg :=
  match ev with EvLog _ m => Some m | _ => None end.

(** What a call did, according to the external libraries. *)
Definition call_error (c : Call) : option PyError :=
  let err {A} (r : Result A) :=
    match r with Ok _ => None | Raise e => Some e end in
  match c with
  | CGetModel f d => err (_get_model f d)
  | CPrepareScriptable m => err (prepare_scriptable m)
  | CQuantize e => err (quantize_dynamic e)
  | CLoader _ (VStr p) => err (Loader_forward p)
  | CLoader _ _ => Some TypeError
  | CEncoder e w => err (Encoder_forward e w)
  | CDecoder d em => err (Decoder_forward d em)
  | CScript m => err (jit_script m)
  | COptimize s => err (optimize_for_mobile s)
  | CJoin a name => err (os_path_join a name)
  | CSave s p => save_error s p
  end.

(** *** The plan of a run

    The steps [_main] goes through after parsing, as determined by the
    arguments alone, with the file writes they lead to. *)

Inductive StageKind : Type := KLoader | KEncoder | KDecoder.

Inductive Step : Type :=
| SGetModel
| SPrepareScriptable
| SQuantize
| SLoader
| SEncoder
| SDecoder
| SScript (k : StageKind)
| SOptimize
| SJoin (a : PyVal) (name : string)
| SSave (path : string).

Inductive Obs : Type :=
| OStep (s : Step)
| OWrite (path : string).

#[global] Instance StageKind_eq_dec : EqDecision StageKind.
Proof. solve_decision. Defined.

#[global] Instance Step_eq_dec : EqDecision Step.
Proof. solve_decision. Defined.

Definition step_of (c : Call) : Step :=
  match c with
  | CGetModel _ _ => SGetModel
  | CPrepareScriptable _ => SPrepareScriptable
  | CQuantize _ => SQuantize
  | CLoader _ _ => SLoader
  | CEncoder _ _ => SEncoder
  | CDecoder _ _ => SDecoder
  | CScript (StLoader _) => SScript KLoader
  | CScript (StEncoder _) => SScript KEncoder
  | CScript (StDecoder _) => SScript KDecoder
  | COptimize _ => SOptimize
  | CJoin a name => SJoin a name
  | CSave _ p => SSave p
  end.

Definition observe (ev : Event) : option Obs :=
  match ev with
  | EvCall c => Some (OStep (step_of c))
  | EvWrite p _ => Some (OWrite p)
  | _ => None
  end.

Definition observations (tr : list Event) : list Obs := omap observe tr.

Definition write_of (o : Obs) : option string :=
  match o with OWrite p => Some p | OStep _ => None end.

(** Scripting a stage, joining the output directory with the file name,
    saving. *)
Definition artifact_plan (k : StageKind) (optimize : bool) (out : string)
    (name : string) : list Obs :=
  [OStep (SScript k)] ++ (if optimize then [OStep SOptimize] else [])
  ++ [OStep (SJoin (VStr out) name);
      OStep (SSave (posix_join out name));
      OWrite (posix_join out name)].

Definition export_plan (args : argparse.Namespace) : list Obs :=
  match argparse.output_path args with
  | VStr out =>
      artifact_plan KLoader false out "loader.zip"
      ++ artifact_plan KDecoder false out "decoder.zip"
      ++ artifact_plan KEncoder (truthy (argparse.optimize_for_mobile args)) out
           "encoder.zip"
  | v => [OStep (SScript KLoader); OStep (SJoin v "loader.zip")]
  end.

Definition plan (args : argparse.Namespace) : list Obs :=
  [OStep SGetModel]
  ++ (if truthy (argparse.quantize args)
      then [OStep SPrepareScriptable; OStep SQuantize] else [])
  ++ (if truthy (argparse.test_file args)
      then [OStep SLoader; OStep SEncoder; OStep SDecoder] else [])
  ++ export_plan args.

(** The files a complete run writes, in order. *)
Definition artifact_paths (args : argparse.Namespace) : list string :=
  match argparse.output_path args with
  | VStr out => [posix_join out "loader.zip"; posix_join out "decoder.zip";
                 posix_join out "encoder.zip"]
  | _ => []
  end.

Definition succeeded (c : Call) : Prop := call_error c = None.

(** How a computation ends, as seen in the segment [tr] of the trace it
    adds: it completes, with every call successful and the plan carried
    out, or it stops right after a call that raised, with that exception. *)
Definition outcome {A} (plan : list Obs) (V : A -> Prop) (r : Result A)
    (tr : list Event) : Prop :=
  (exists a, r = Ok a /\ V a /\ Forall succeeded (calls tr)
             /\ observations tr = plan)
  \/ (exists pre c e, tr = pre ++ [EvCall c] /\ Forall succeeded (calls pre)
                      /\ call_error c = Some e /\ r = Raise e).

Definition follows {A} (plan : list Obs) (V : A -> Prop) (m : M A) : Prop :=
  forall w, exists tr,
    events (m w).2 = events w ++ tr
    /\ observations tr `prefix_of` plan
    /\ outcome plan V (m w).1 tr.

End Pipeline.

(** ** [torchaudio/models/__init__.py] *)

Module models.

(** The two forms of import statement of the file. *)
Inductive Import : Type :=
| FromModuleImport (module name : string)    (* [from .module import name] *)
| FromPackageImport (name : string).         (* [from . import name] *)

(** What a name of the module is bound to. *)
Inductive Binding : Type :=
| Attribute (module name : string)
| Submodule (name : string).

Definition imports : list Import :=
  [ FromModuleImport "wav2letter" "Wav2Letter";
    FromModuleImport "wavernn" "WaveRNN";
    FromModuleImport "conv_tasnet" "ConvTasNet";
    FromPackageImport "wav2vec2" ].

Definition __all__ : list string := ["Wav2Letter"; "WaveRNN"; "ConvTasNet"].

(** One import statement run in the namespace of the package.
    [from .module import name] imports the submodule, which the import
    system binds under its own name in the package, and then binds [name]
    to the attribute; [from . import name] imports the submodule and binds
    it. *)
Definition exec_import (globals : gmap string Binding) (i : Import)
  : gmap string Binding :=
  match i with
  | FromModuleImport m n => <[n := Attribute m n]> (<[m := Submodule m]> globals)
  | FromPackageImport n => <[n := Submodule n]> globals
  end.

(** The names bound by running the import statements in order. *)
Definition globals : gmap string Binding := foldl exec_import ∅ imports.

(** [from torchaudio.models import *]: the names listed in [__all__], each
    looked up in the module. *)
Definition star_import : list (string * option Binding) :=
  map (fun n => (n, globals !! n)) __all__.

End models.

(** ** A small concrete instance of the external libraries

    Waveforms are sample lists tagged with their rate; the acoustic model
    copies its input; the decoder reads every non-zero sample as an index
    into the label table; a checkpoint says whether its model can be
    scripted. *)

Module Demo.

Inductive Script : Type :=
| Scripted (m : Stage bool)
| Mobile (s : Script).

Definition demo_load (path : string) : Result ((list Z * Z) * Z) :=
  if bool_decide (path = "speech16k.wav") then Ok (([11; 10; 4; 7], 16000), 16000)
  else if bool_decide (path = "speech8k.wav") then Ok (([11; 10], 8000), 8000)
  else if bool_decide (path = "silence.wav") then Ok (([0; 0; 0], 16000), 16000)
  else Raise (OSError "no such file").

Definition demo_checkpoint (files : list PyVal) (overrides : gmap string PyVal)
  : Result (list bool * unit) :=
  match files with
  | [VStr f] =>
      if bool_decide (f = "model.pt") then Ok ([true], tt)
      else if bool_decide (f = "unscriptable.pt") then Ok ([false], tt)
      else Raise (OSError "no such checkpoint")
  | _ => Raise TypeError
  end.

Definition demo_decode (cfg : BeamSearchDecoder) (emission : list Z * Z)
  : Result DecodeResult :=
  Ok {| label_sequences :=
          [[ omap (fun z => if z =? blank_id cfg then None
                            else bsd_labels cfg !! Z.to_nat z) emission.1 ]] |}.

Definition demo_script (m : Stage bool) : Result Script :=
  match m with
  | StEncoder e => if encoder e then Ok (Scripted m)
                   else Raise (RuntimeError "cannot script the model")
  | _ => Ok (Scripted m)
  end.

#[local] Instance externals : Externals := {|
  Tensor := list Z * Z;
  FairseqModel := bool;
  FairseqArgs := unit;
  Wav2Vec2Model := bool;
  ScriptModule := Script;
  torchaudio_load := demo_load;
  resample := fun w _ new_freq => Ok (w.1, new_freq);
  load_model_ensemble_and_task := demo_checkpoint;
  import_fairseq_finetuned_model := fun m _ => Ok m;
  eval_mode := fun m => m;
  model_forward := fun _ w => Ok (w, None);
  prepare_scriptable := fun m => Ok m;
  quantize_dynamic := fun e => Ok e;
  beam_search_decode := demo_decode;
  jit_script := demo_script;
  optimize_for_mobile := fun s => Ok (Mobile s);
  save_error := fun _ _ => None;
|}.

(** The rate a demo waveform is tagged with. *)
Definition sampled_at (w : list Z * Z) (rate : Z) : Prop := w.2 = rate.

End Demo.

(** ** Auxiliary notions used in the statements *)

(** The character-wise reading of [.replace('|', ' ')]. *)
Definition space_for_bar (c : ascii) : ascii :=
  if bool_decide (c = "|"%char) then " "%char else c.

(** The capital Latin letters, as one-character labels. *)
Definition latin_letters : list string :=
  map (fun n => String (ascii_of_nat n) EmptyString) (seq 65 26).

(** No token of the command line names the long option [opt], neither in
    full nor abbreviated, with or without [=value]. *)
Definition absent (opt : string) (argv : list string) : Prop :=
  Forall (fun tok => argparse.spells opt tok = false) argv.

(** No token of the command line asks for help. *)
Definition no_help (argv : list string) : Prop :=
  Forall (fun tok => argparse.asks_help tok = false) argv.

(** The statement that a command line without [--model-file] always ends
    in a usage error with a non-zero exit status and no artifact. *)
Definition usage_error_without_model_file `{X : Externals}
    (argv : list string) : Prop :=
  absent "--model-file" argv ->
  (exists msg, argparse.parse_args argv = argparse.ErrorExit msg)
  /\ exit_status (result_of argv) <> 0
  /\ artifacts (trace_of argv) = [].

(** The transcript [t] is logged at a point of the trace before which no
    artifact is written. *)
Definition transcript_logged_first `{X : Externals} (tr : list Event)
    (t : string) : Prop :=
  exists cfg pre post,
    tr = pre ++ EvLog cfg (MsgText t) :: post /\ artifacts pre = [].

(** The statement that a successful run with a test file logs a non-empty
    transcript before it writes the artifacts. *)
Definition nonempty_transcript_logged `{X : Externals}
    (argv : list string) : Prop :=
  forall args path,
    argparse.parse_args argv = argparse.Parsed args ->
    argparse.test_file args = VStr path ->
    result_of argv = Ok tt ->
    exists waveform emission t,
      Loader_forward path = Ok waveform
      /\ Decoder_forward _get_decoder emission = Ok t
      /\ t <> EmptyString
      /\ transcript_logged_first (trace_of argv) t.

(** The statement that a command line which gives [--model-file] and does
    not name [--output-path] is always parsed, with [output_path] unset, and
    that the run then fails at the first [os.path.join] and nowhere else. *)
Definition fails_only_at_join `{X : Externals} (argv : list string) : Prop :=
  Exists (fun tok => argparse.spells "--model-file" tok = true) argv ->
  absent "--output-path" argv ->
  exists args,
    argparse.parse_args argv = argparse.Parsed args
    /\ argparse.output_path args = VNone
    /\ result_of argv = Raise TypeError
    /\ last (calls (trace_of argv)) = Some (CJoin VNone "loader.zip").

(** The scripted modules handed to [optimize_for_mobile] during a run. *)
Definition optimized `{X : Externals} (tr : list Event) : list ScriptModule :=
  omap (fun c => match c with COptimize s => Some s | _ => None end) (calls tr).

(** The world [w] after the events [tr]. *)
Definition record `{X : Externals} (w : World) (tr : list Event) : World :=
  {| logging := logging w; events := events w ++ tr |}.

(** ** Further notions used in the statements *)

(** *** Namespaces the parser produces *)

Module argparse_more.
Import argparse.

(** A value [store] can leave in the namespace: the default [None], the
    string given, or the empty list that [--opt=--] produces. *)
Definition stored (v : PyVal) : Prop :=
  v = VNone \/ (exists s, v = VStr s) \/ v = VList [].

(** A namespace as the parser produces them: [store] attributes hold a stored
    value, [store_true] attributes a boolean. *)
Definition well_typed (ns : Namespace) : Prop :=
  forall a,
    match kind a with
    | KStore => stored (getattr a ns)
    | KStoreTrue => exists b, getattr a ns = VBool b
    | KHelp => True
    end.

(** Every action tuple carries as many argument strings as its action
    takes. *)
Definition tuple_arity (t : Action * list string * string) : Prop :=
  length t.1.2 = nargs t.1.1.

(** The invariant of the second pass: the namespace is well typed and every
    [store] action seen so far has a value. *)
Definition state_ok (st : PState) : Prop :=
  well_typed (namespace st)
  /\ forall a, a ∈ seen_actions st -> kind a = KStore -> getattr a (namespace st) <> VNone.

End argparse_more.

(** *** Other spellings of an option *)

Module argparse_forms.
Import argparse.

(** The state of the second pass after the canonical arguments [cs]. *)
Definition after (cs : list CliArg) (st : PState) : PState :=
  {| namespace := foldl store_arg (namespace st) cs;
     seen_actions := rev (map cli_action cs) ++ seen_actions st;
     extras := extras st |}.

(** The one-token spelling [--option=value]. *)
Definition with_equals (a : Action) (value : string) : string :=
  long_name a +:+ String "=" value.

End argparse_forms.

(** *** Prefixes *)

(** All the prefixes of a string, shortest first. *)
Fixpoint prefixes (s : string) : list string :=
  match s with
  | EmptyString => [EmptyString]
  | String c s' => EmptyString :: map (String c) (prefixes s')
  end.

(** *** Counting characters *)

(** Number of occurrences of a character in a list of characters. *)
Definition count_char (c : ascii) (l : list ascii) : nat :=
  length (filter (fun d => d = c) l).

(** Number of word-boundary labels in a label sequence. *)
Definition count_boundaries (best : list string) : nat :=
  length (filter (fun label => label = "|") best).

(** *** Reading a run *)

(** The flag or option a step of the run depends on, if any: the run takes
    the step only when the attribute is truthy. *)
Definition gate (s : Step) : option argparse.Action :=
  match s with
  | SPrepareScriptable | SQuantize => Some argparse.Quantize
  | SLoader | SEncoder | SDecoder => Some argparse.TestFile
  | SOptimize => Some argparse.OptimizeForMobile
  | _ => None
  end.

(** The encoder stage [_main] ends up with: the wrapper around the model in
    inference mode, or with [--quantize] the dynamically quantized wrapper
    around the model made scriptable. *)
Definition built_encoder `{X : Externals} (args : argparse.Namespace)
    (model : Wav2Vec2Model) (enc : Encoder Wav2Vec2Model) : Prop :=
  if truthy (argparse.quantize args)
  then exists model', prepare_scriptable (eval_mode model) = Ok model'
                      /\ quantize_dynamic (mkEncoder model') = Ok enc
  else enc = mkEncoder (eval_mode model).

(** The self-test on [test_file] with the encoder [enc] goes through and
    yields [transcript]. *)
Definition self_test_passes `{X : Externals} (test_file : PyVal)
    (enc : Encoder Wav2Vec2Model) (transcript : string) : Prop :=
  exists path waveform emission,
    test_file = VStr path
    /\ Loader_forward path = Ok waveform
    /\ Encoder_forward enc waveform = Ok emission
    /\ Decoder_forward _get_decoder emission = Ok transcript.

(** An event without the logging configuration it was emitted under. *)
Definition unformatted `{X : Externals} (ev : Event) : Event + LogMsg :=
  match ev with
  | EvLog _ msg => inr msg
  | _ => inl ev
  end.

(** Two worlds that differ at most in the logging configuration, both
    configurations letting INFO records through. *)
Definition alike `{X : Externals} (w1 w2 : World) : Prop :=
  (exists c1 c2, logging w1 = Some c1 /\ logging w2 = Some c2
                 /\ (levelno (level c1) <=? levelno INFO) = true
                 /\ (levelno (level c2) <=? levelno INFO) = true)
  /\ map unformatted (events w1) = map unformatted (events w2).

(** Two computations that end alike from alike worlds. *)
Definition agree `{X : Externals} {A} (m1 m2 : M A) : Prop :=
  forall w1 w2, alike w1 w2 ->
    (m1 w1).1 = (m2 w2).1 /\ alike (m1 w1).2 (m2 w2).2.

(* ================================================================== *)
(** * Part II: properties                                              *)
(* ================================================================== *)

#[local] Set Warnings "-clear-no-such-hyp".

(** ** Strings *)

Lemma chars_app (s t : string) : chars (s +:+ t) = chars s ++ chars t.
Proof. induction s as [|c s IH]; simpl; [done | by rewrite IH]. Qed.

Lemma str_app_inv_head (p s t : string) : p +:+ s = p +:+ t -> s = t.
Proof. induction p as [|c p IH]; simpl; [done | intros [= H]; auto]. Qed.

Lemma prefix_bar (c : ascii) (s : string) :
  String.prefix "|" (String c s) = bool_decide (c = "|"%char).
Proof.
  cbn [String.prefix].
  destruct (ascii_dec "|" c) as [<-|Hne].
  - rewrite bool_decide_eq_true_2 by done. by destruct s.
  - by rewrite bool_decide_eq_false_2 by congruence.
Qed.

Lemma replace_bar_chars (s : string) :
  chars (str_replace s "|" " ") = map space_for_bar (chars s).
Proof.
  unfold str_replace.
  induction s as [|c s IH]; [done|].
  change (str_replace_from "|" " " 0 (String c s))
    with (if String.prefix "|" (String c s)
          then " " +:+ str_replace_from "|" " " 0 s
          else String c (str_replace_from "|" " " 0 s)).
  rewrite prefix_bar.
  change (chars (String c s)) with (c :: chars s).
  cbn [map]. unfold space_for_bar at 1.
  case_bool_decide.
  - change (chars (" " +:+ ?x)) with (" "%char :: chars x). by rewrite IH.
  - change (chars (String c ?x)) with (c :: chars x). by rewrite IH.
Qed.

Lemma space_for_bar_no_bar (l : list ascii) : "|"%char ∉ map space_for_bar l.
Proof.
  intros (c & Hc & _)%list_elem_of_fmap_1.
  unfold space_for_bar in Hc. case_bool_decide; [discriminate | congruence].
Qed.

(** ** The decoder configuration *)

(** C3: [_get_decoder] wraps a beam-search decoder whose label table has
    32 entries (indices 0 to 31), made of the four markers [<s>], [<pad>],
    [</s>], [<unk>], the word boundary [|], the 26 capital Latin letters
    and the apostrophe, with blank index 0, beam width 100, top-40 pruning,
    probability cutoff 0.8, one process and log-likelihood input. *)
Theorem get_decoder_configuration :
  let cfg := decoder _get_decoder in
  bsd_labels cfg = labels
  /\ length labels = 32%nat
  /\ (forall i : nat, is_Some (labels !! i) <-> (i <= 31)%nat)
  /\ NoDup labels
  /\ labels ≡ₚ ["<s>"; "<pad>"; "</s>"; "<unk>"; "|"; "'"] ++ latin_letters
  /\ blank_id cfg = 0
  /\ beam_size cfg = 100
  /\ cutoff_top_n cfg = 40
  /\ (cutoff_prob cfg == 8 # 10)%Q
  /\ num_processes cfg = 1
  /\ is_nll cfg = true.
Proof.
  cbn zeta.
  assert (Hlen : length labels = 32%nat) by reflexivity.
  repeat split; try reflexivity.
  - intros H%lookup_lt_is_Some. lia.
  - intros H. apply lookup_lt_is_Some. lia.
  - apply (bool_decide_unpack _). by vm_compute.
  - apply (bool_decide_unpack _). by vm_compute.
Qed.

(** ** The model index *)

(** C9: [__all__] is exactly [Wav2Letter], [WaveRNN], [ConvTasNet]; each of
    the three is bound by a [from ... import] of the module, so that a star
    import finds all three; [wav2vec2] is imported as a submodule and is not
    listed in [__all__].  The import statements bind seven names in all: the
    three classes, the three submodules they come from, and [wav2vec2]; none
    of the four submodules is exported. *)
Theorem models_index_exports :
  models.__all__ = ["Wav2Letter"; "WaveRNN"; "ConvTasNet"]
  /\ (forall n, n ∈ models.__all__ ->
        exists m, models.FromModuleImport m n ∈ models.imports
                  /\ models.globals !! n = Some (models.Attribute m n))
  /\ models.star_import
     = [("Wav2Letter", Some (models.Attribute "wav2letter" "Wav2Letter"));
        ("WaveRNN", Some (models.Attribute "wavernn" "WaveRNN"));
        ("ConvTasNet", Some (models.Attribute "conv_tasnet" "ConvTasNet"))]
  /\ models.FromPackageImport "wav2vec2" ∈ models.imports
  /\ models.globals !! "wav2vec2" = Some (models.Submodule "wav2vec2")
  /\ ("wav2vec2" ∉ models.__all__)
  /\ (forall n b, models.globals !! n = Some b ->
        (n ∈ models.__all__ <-> exists m, b = models.Attribute m n))
  /\ (map fst (map_to_list models.globals)
        ≡ₚ ["wav2letter"; "wavernn"; "conv_tasnet"; "wav2vec2"]
           ++ models.__all__).
Proof.
  assert (Hnames : map fst (map_to_list models.globals)
                     ≡ₚ ["wav2letter"; "wavernn"; "conv_tasnet"; "wav2vec2"]
                        ++ models.__all__)
    by (apply (bool_decide_unpack _); by vm_compute).
  split; [reflexivity|].
  split.
  { intros n Hn. unfold models.__all__ in Hn.
    repeat (apply elem_of_cons in Hn as [-> | Hn]);
      [ exists "wav2letter" | exists "wavernn" | exists "conv_tasnet" | ];
      try (split; [unfold models.imports; set_solver | by vm_compute]).
    by apply elem_of_nil in Hn. }
  split; [by vm_compute|].
  split; [unfold models.imports; set_solver|].
  split; [by vm_compute|].
  split.
  { unfold models.__all__. intros H.
    repeat (apply elem_of_cons in H as [H | H]; [discriminate|]).
    by apply elem_of_nil in H. }
  split; [|exact Hnames].
  intros n b Hb.
  assert (Hn : n ∈ map fst (map_to_list models.globals)).
  { apply list_elem_of_fmap. exists (n, b). split; [done|].
    by apply elem_of_map_to_list. }
  rewrite Hnames in Hn. unfold models.__all__ in *. cbn [app] in Hn.
  repeat (apply elem_of_cons in Hn as [->|Hn];
          [vm_compute in Hb; injection Hb as <-;
           split;
           [intros H; first [by eexists
                            |repeat (apply elem_of_cons in H as [H|H];
                                     [discriminate H|]);
                             by apply elem_of_nil in H]
           |intros [m Hm];
            first [discriminate Hm
                  |rewrite !elem_of_cons; by auto 10]]|]).
  by apply elem_of_nil in Hn.
Qed.

(** ** The stage wrappers *)

Section StageProperties.
Context `{X : Externals}.

(** [Decoder.forward] returns whenever the decoder returns a result with a
    best hypothesis for the first batch entry. *)
Lemma Decoder_forward_returns (self : Decoder) (emission : Tensor)
    (result : DecodeResult) (batch0 : list (list string)) (best : list string) :
  beam_search_decode (decoder self) emission = Ok result ->
  label_sequences result !! 0%nat = Some batch0 ->
  batch0 !! 0%nat = Some best ->
  Decoder_forward self emission
  = Ok (str_replace (str_join EmptyString best) "|" " ").
Proof.
  intros Hd H0 H1. unfold Decoder_forward, best_transcript, subscript.
  rewrite Hd. cbn. rewrite H0. cbn. by rewrite H1.
Qed.

(** C2: the transcript returned by [Decoder.forward] has no [|] in it: it
    is the concatenation of the labels of the best hypothesis in which
    every [|] has become one space. *)
Theorem Decoder_forward_no_word_boundary (self : Decoder) (emission : Tensor)
    (transcript : string) :
  Decoder_forward self emission = Ok transcript ->
  ("|"%char ∉ chars transcript)
  /\ exists result batch0 best,
       beam_search_decode (decoder self) emission = Ok result
       /\ label_sequences result !! 0%nat = Some batch0
       /\ batch0 !! 0%nat = Some best
       /\ chars transcript = map space_for_bar (chars (str_join EmptyString best)).
Proof.
  unfold Decoder_forward, best_transcript, subscript.
  destruct (beam_search_decode _ _) as [result|]; cbn -[str_replace];
    [|discriminate].
  destruct (label_sequences result !! 0%nat) as [batch0|] eqn:H0;
    cbn -[str_replace]; [|discriminate].
  destruct (batch0 !! 0%nat) as [best|] eqn:H1; cbn -[str_replace];
    [|discriminate].
  intros Ht.
  replace transcript with (str_replace (str_join EmptyString best) "|" " ")
    by congruence.
  rewrite replace_bar_chars. split.
  - apply space_for_bar_no_bar.
  - by exists result, batch0, best.
Qed.

(** [Loader.forward] raises what [torchaudio.load] raises. *)
Lemma Loader_forward_propagates (path : string) (e : PyError) :
  torchaudio_load path = Raise e -> Loader_forward path = Raise e.
Proof. intros H. unfold Loader_forward. by rewrite H. Qed.

Section LoaderContract.
(** What the audio library promises: a decoded waveform is sampled at the
    rate reported with it, and resampling a waveform sampled at [orig]
    gives one sampled at [new]. *)
Variable sampled_at : Tensor -> Z -> Prop.
Hypothesis load_rate :
  forall path w r, torchaudio_load path = Ok (w, r) -> sampled_at w r.
Hypothesis resample_rate :
  forall w orig new w',
    resample w orig new = Ok w' -> sampled_at w orig -> sampled_at w' new.

(** C1: for a file that decodes to waveform [w] at native rate [r],
    [Loader.forward] returns [w] itself when [r] is 16000 and the result of
    resampling [w] from [r] to 16000 otherwise; whatever it returns is
    sampled at 16000 Hz. *)
Theorem Loader_forward_16000 (path : string) (w : Tensor) (r : Z) :
  torchaudio_load path = Ok (w, r) ->
  (r = 16000 -> Loader_forward path = Ok w)
  /\ (r <> 16000 -> Loader_forward path = resample w r 16000)
  /\ (forall out, Loader_forward path = Ok out -> sampled_at out 16000).
Proof.
  intros Hload. unfold Loader_forward. rewrite Hload. cbn.
  split; [|split].
  - intros ->. by rewrite bool_decide_eq_false_2 by (intros H; by apply H).
  - intros Hr. by rewrite bool_decide_eq_true_2.
  - intros out. case_bool_decide as Hr.
    + intros Hres. eapply resample_rate; eauto.
    + intros [= <-]. subst r. eauto.
Qed.

End LoaderContract.
End StageProperties.

Lemma demo_load_rate (path : string) (w : list Z * Z) (r : Z) :
  Demo.demo_load path = Ok (w, r) -> Demo.sampled_at w r.
Proof.
  unfold Demo.demo_load, Demo.sampled_at.
  repeat case_bool_decide; intros [= <- <-]; reflexivity.
Qed.

Lemma demo_resample_rate (w : list Z * Z) (orig new : Z) (w' : list Z * Z) :
  @resample Demo.externals w orig new = Ok w' ->
  Demo.sampled_at w orig -> Demo.sampled_at w' new.
Proof. cbn. by intros [= <-] _. Qed.

Lemma Loader_forward_16000_witness :
  @torchaudio_load Demo.externals "speech8k.wav" = Ok (([11; 10], 8000), 8000)
  /\ @Loader_forward Demo.externals "speech8k.wav" = Ok ([11; 10], 16000)
  /\ Demo.sampled_at ([11; 10], 16000) 16000.
Proof.
  split; [reflexivity|]. split; [reflexivity|].
  exact (proj2 (proj2 (@Loader_forward_16000 Demo.externals Demo.sampled_at
                         demo_load_rate demo_resample_rate
                         "speech8k.wav" ([11; 10], 8000) 8000 eq_refl))
               ([11; 10], 16000) eq_refl).
Defined.

Lemma Decoder_forward_no_word_boundary_witness :
  @Decoder_forward Demo.externals _get_decoder ([11; 10; 4; 7], 16000) = Ok "HI A"
  /\ ("|"%char ∉ chars "HI A").
Proof.
  split; [reflexivity|].
  exact (proj1 (@Decoder_forward_no_word_boundary Demo.externals _get_decoder
                  ([11; 10; 4; 7], 16000) "HI A" eq_refl)).
Defined.

(** ** The argument parser *)

Module argparse_facts.
Import argparse.


Lemma prefix_refl (s : string) : String.prefix s s = true.
Proof.
  induction s as [|c s IH]; [done|]. cbn [String.prefix].
  destruct (ascii_dec c c); [done | congruence].
Qed.

Lemma prefix_cons (a b : ascii) (s t : string) :
  String.prefix (String a s) (String b t) = true <-> a = b /\ String.prefix s t = true.
Proof.
  cbn [String.prefix]. destruct (ascii_dec a b); [tauto|].
  split; [discriminate | intros []; congruence].
Qed.

Lemma prefix_empty (s : string) : String.prefix EmptyString s = true.
Proof. by destruct s. Qed.

Lemma split_first_app (c : ascii) (s a b : string) :
  split_first c s = Some (a, b) -> s = a +:+ String c b.
Proof.
  revert a b. induction s as [|d s IH]; intros a b; cbn [split_first]; [done|].
  case_bool_decide as Hd.
  - intros [= <- <-]. by subst d.
  - destruct (split_first c s) as [[a' b']|]; [|done].
    intros [= <- <-]. by rewrite (IH _ _ eq_refl) at 1.
Qed.

Lemma option_key_cons (d : ascii) (s : string) :
  d <> "="%char -> option_key (String d s) = String d (option_key s).
Proof.
  intros Hd. unfold option_key. cbn [split_first].
  rewrite bool_decide_eq_false_2 by done.
  by destruct (split_first "=" s) as [[a b]|].
Qed.

Lemma assoc_elem_of (k : string) (l : list (string * Action)) (a : Action) :
  assoc k l = Some a -> (k, a) ∈ l.
Proof.
  induction l as [|[k' a'] l IH]; cbn [assoc]; [done|].
  case_bool_decide as Hk.
  - intros [= ->]. subst k'. left.
  - intros H. right. auto.
Qed.

(** The entries of the option table, one by one. *)
Lemma option_table_cases (os : string) (a : Action) :
  (os, a) ∈ _option_string_actions ->
  (os = "-h" /\ a = Help) \/ (os = "--help" /\ a = Help)
  \/ (os = "--model-file" /\ a = ModelFile)
  \/ (os = "--dict-dir" /\ a = DictDir)
  \/ (os = "--output-path" /\ a = OutputPath)
  \/ (os = "--test-file" /\ a = TestFile)
  \/ (os = "--debug" /\ a = Debug)
  \/ (os = "--quantize" /\ a = Quantize)
  \/ (os = "--optimize-for-mobile" /\ a = OptimizeForMobile).
Proof.
  unfold _option_string_actions. rewrite !elem_of_cons, elem_of_nil.
  intros H. repeat (destruct H as [[= -> ->]|H]; [tauto|]). done.
Qed.

Lemma names_mentions (os tok : string) (a : Action) :
  (os, a) ∈ _option_string_actions -> names os tok = true -> mentions a tok = true.
Proof.
  intros Hin Hn. unfold mentions. apply existsb_exists.
  exists (os, a). split; [by apply list_elem_of_In|].
  cbn. by rewrite bool_decide_eq_true_2.
Qed.

(** A long option of the table is named by any token whose key is a prefix
    of it of length at least three. *)
Lemma long_option_named (os tok : string) (a : Action) :
  (os, a) ∈ _option_string_actions ->
  startswith os (option_key tok) = true ->
  startswith (option_key tok) "--" = true ->
  option_key tok <> "--" ->
  names os tok = true.
Proof.
  intros Hin Hpre Hdd Hne.
  unfold startswith in *.
  assert (Hkey : exists c k, option_key tok = String "-" (String "-" (String c k))).
  { destruct (option_key tok) as [|c0 [|c1 [|c2 k]]].
    - discriminate Hdd.
    - apply prefix_cons in Hdd as [_ Hdd]. discriminate Hdd.
    - apply prefix_cons in Hdd as [<- Hdd]. apply prefix_cons in Hdd as [<- _].
      done.
    - apply prefix_cons in Hdd as [<- Hdd]. apply prefix_cons in Hdd as [<- _].
      eauto. }
  destruct Hkey as (c & k & Hkey).
  assert (Hlen : (3 <=? String.length (option_key tok))%nat = true)
    by (by rewrite Hkey).
  assert (Hlong : second_char_is_dash os = true).
  { apply option_table_cases in Hin.
    destruct Hin as [[-> _]|Hin].
    - exfalso. rewrite Hkey in Hpre.
      apply prefix_cons in Hpre as [_ Hpre]. by apply prefix_cons in Hpre as [? _].
    - repeat (destruct Hin as [[-> _]|Hin]; [done|]). by destruct Hin as [-> _]. }
  unfold names, spells, startswith. rewrite Hlong. cbn zeta.
  by rewrite Hpre, Hdd, Hlen.
Qed.


Lemma Parsed_inj {A} (x y : A) : Parsed x = Parsed y -> x = y.
Proof. by intros [= ->]. Qed.

Lemma option_prefix_key (tok : string) :
  match split_first "=" tok with
  | Some (p, e) => (p, Some e)
  | None => (tok, None)
  end.1 = option_key tok.
Proof. unfold option_key. by destruct (split_first "=" tok) as [[p e]|]. Qed.

(** What [_get_option_tuples] returns: entries of the table that the token
    abbreviates (two dashes), or that start like the token (one dash). *)
Lemma get_option_tuples_sound (tok : string)
    (l : list (Action * string * option string)) :
  _get_option_tuples tok = Parsed l ->
  forall a os e, (a, os, e) ∈ l ->
    (os, a) ∈ _option_string_actions
    /\ ((startswith os (option_key tok) = true
         /\ startswith (option_key tok) "--" = true)
        \/ (second_char_is_dash os = false /\ startswith tok os = true)).
Proof.
  unfold _get_option_tuples.
  destruct tok as [|c0 [|c1 tail]]; try discriminate.
  case_bool_decide as H0; cbn [andb]; [case_bool_decide as H1|]; cbn [andb].
  - (* two dashes *)
    subst c0 c1.
    pose proof (option_prefix_key (String "-" (String "-" tail))) as Hk.
    destruct (match split_first "=" (String "-" (String "-" tail)) with
              | Some (p, e) => (p, Some e) | None => (_, None) end)
      as [option_prefix explicit_arg].
    intros <-%Parsed_inj a os e Hin.
    apply list_elem_of_omap in Hin as ([os' a'] & Hp & HF).
    cbn [fst snd] in *. subst option_prefix.
    destruct (startswith os' _) eqn:Hs; [|discriminate].
    injection HF as <- <- <-. split; [done|]. left. split; [done|].
    rewrite !option_key_cons by done. unfold startswith.
    apply prefix_cons; split; [done|]. apply prefix_cons; split; [done|].
    apply prefix_empty.
  - (* one dash *)
    subst c0. intros <-%Parsed_inj a os e Hin.
    apply list_elem_of_omap in Hin as ([os' a'] & Hp & HF).
    cbn [fst snd] in HF.
    assert (os' = os /\ a' = a
            /\ (os' = String "-" (String c1 EmptyString)
                \/ startswith os' (String "-" (String c1 tail)) = true))
      as (-> & -> & Hcase).
    { case_bool_decide as Hsh.
      - injection HF as <- <- <-. auto.
      - destruct (startswith os' _) eqn:Hs; [|discriminate].
        injection HF as <- <- <-. auto. }
    split; [done|]. right.
    apply option_table_cases in Hp.
    unfold startswith in *.
    destruct Hcase as [Hos|Hpre].
    + subst os. split.
      * cbn. by apply bool_decide_eq_false_2.
      * apply prefix_cons; split; [done|]. apply prefix_cons; split; [done|].
        apply prefix_empty.
    + destruct Hp as [[-> _]|Hp].
      * apply prefix_cons in Hpre as [_ Hpre].
        apply prefix_cons in Hpre as [-> Hpre].
        destruct tail; [|discriminate]. done.
      * exfalso.
        repeat (destruct Hp as [[-> _]|Hp];
                [apply prefix_cons in Hpre as [_ Hpre];
                 by apply prefix_cons in Hpre as [? _]|]).
        destruct Hp as [-> _].
        apply prefix_cons in Hpre as [_ Hpre].
        by apply prefix_cons in Hpre as [? _].
  - discriminate.
Qed.

(** The bare prefix [--] abbreviates every long option. *)
Lemma get_option_tuples_ambiguous (tok : string)
    (l : list (Action * string * option string)) :
  option_key tok = "--" -> _get_option_tuples tok = Parsed l ->
  (2 <= length l)%nat.
Proof.
  intros Hk. unfold _get_option_tuples.
  destruct tok as [|c0 [|c1 tail]]; try discriminate.
  assert (c0 = "-"%char /\ c1 = "-"%char) as [-> ->].
  { destruct (decide (c0 = "="%char)) as [->|H0]; [discriminate Hk|].
    rewrite option_key_cons in Hk by done. injection Hk as -> Hk.
    destruct (decide (c1 = "="%char)) as [->|H1]; [discriminate Hk|].
    rewrite option_key_cons in Hk by done. by injection Hk as -> Hk. }
  rewrite !bool_decide_eq_true_2 by done. cbn [andb].
  pose proof (option_prefix_key (String "-" (String "-" tail))) as Hp.
  destruct (match split_first "=" (String "-" (String "-" tail)) with
            | Some (p, e) => (p, Some e) | None => (_, None) end)
    as [option_prefix explicit_arg].
  cbn [fst] in Hp. rewrite Hk in Hp. subst option_prefix.
  intros <-%Parsed_inj. vm_compute. lia.
Qed.

(** Every option found by [_parse_optional] is an entry of the table that
    the token names. *)
Lemma parse_optional_sound (tok : string) (a : Action) (os : string)
    (e : option string) :
  _parse_optional tok = Parsed (Some (Some a, os, e)) ->
  (os, a) ∈ _option_string_actions /\ names os tok = true.
Proof.
  unfold _parse_optional.
  case_bool_decide as Hempty; [discriminate|].
  destruct (startswith tok "-") eqn:Hdash; cbn [negb]; [|discriminate].
  destruct (assoc tok _option_string_actions) as [action|] eqn:Hassoc.
  { intros [= -> -> <-]. apply assoc_elem_of in Hassoc. split; [done|].
    apply option_table_cases in Hassoc.
    repeat (destruct Hassoc as [[-> _]|Hassoc]; [by vm_compute|]).
    destruct Hassoc as [-> _]. by vm_compute. }
  case_bool_decide as Hlen; [discriminate|].
  destruct (split_first "=" tok) as [[option_string explicit_arg]|] eqn:Hsplit.
  - destruct (assoc option_string _option_string_actions) as [action|] eqn:Ha.
    + intros [= -> -> <-]. apply assoc_elem_of in Ha. split; [done|].
      assert (Hkey : option_key tok = os) by (unfold option_key; by rewrite Hsplit).
      apply split_first_app in Hsplit.
      apply option_table_cases in Ha.
      destruct Ha as [[-> _]|Ha]; [subst tok; by vm_compute|].
      unfold names, spells. rewrite Hkey.
      repeat (destruct Ha as [[-> _]|Ha]; [by vm_compute|]).
      destruct Ha as [-> _]. by vm_compute.
    + destruct (_get_option_tuples tok) as [l| | |] eqn:Hg; cbn; try discriminate.
      destruct l as [|[[a' s'] e'] [|? ?]]; try discriminate.
      { repeat case_match; discriminate. }
      intros [= -> -> ->].
      destruct (get_option_tuples_sound _ _ Hg a os e) as [Hin [[H1 H2]|[H1 H2]]];
        [left| |]; (split; [done|]).
      * apply long_option_named with a; try done.
        intros Hk. pose proof (get_option_tuples_ambiguous _ _ Hk Hg). cbn in *. lia.
      * unfold names. by rewrite H1.
  - destruct (_get_option_tuples tok) as [l| | |] eqn:Hg; cbn; try discriminate.
    destruct l as [|[[a' s'] e'] [|? ?]]; try discriminate.
    { repeat case_match; discriminate. }
    intros [= -> -> ->].
    destruct (get_option_tuples_sound _ _ Hg a os e) as [Hin [[H1 H2]|[H1 H2]]];
      [left| |]; (split; [done|]).
    * apply long_option_named with a; try done.
      intros Hk. pose proof (get_option_tuples_ambiguous _ _ Hk Hg). cbn in *. lia.
    * unfold names. by rewrite H1.
Qed.

(** [_parse_optional] returns or reports an error: it neither prints the
    help nor lets an exception escape. *)
Lemma parse_optional_outcome (tok : string) :
  (exists t, _parse_optional tok = Parsed t)
  \/ (exists msg, _parse_optional tok = ErrorExit msg).
Proof.
  unfold _parse_optional.
  case_bool_decide as Hempty; [eauto|].
  destruct (startswith tok "-") eqn:Hdash; cbn [negb]; [|eauto].
  destruct (assoc tok _option_string_actions); [eauto|].
  case_bool_decide as Hlen; [eauto|].
  assert (Hg : (exists l, _get_option_tuples tok = Parsed l)
               \/ (exists msg, _get_option_tuples tok = ErrorExit msg)).
  { unfold _get_option_tuples. destruct tok as [|c0 [|c1 tail]]; try done.
    repeat case_bool_decide; cbn [andb]; eauto.
    destruct (match split_first "=" _ with Some (p, e) => _ | None => _ end); eauto. }
  assert (Hrest :
    (exists t, (option_tuples ← _get_option_tuples tok;
                match option_tuples with
                | _ :: _ :: _ =>
                    ErrorExit (AmbiguousOption tok (map (fun t => t.1.2) option_tuples))
                | [(a, s, e)] => Parsed (Some (Some a, s, e))
                | [] =>
                    if _negative_number_matcher tok then Parsed None
                    else if str_contains_char " " tok then Parsed None
                    else Parsed (Some (None, tok, None))
                end) = Parsed t)
    \/ (exists msg, (option_tuples ← _get_option_tuples tok;
                match option_tuples with
                | _ :: _ :: _ =>
                    ErrorExit (AmbiguousOption tok (map (fun t => t.1.2) option_tuples))
                | [(a, s, e)] => Parsed (Some (Some a, s, e))
                | [] =>
                    if _negative_number_matcher tok then Parsed None
                    else if str_contains_char " " tok then Parsed None
                    else Parsed (Some (None, tok, None))
                end) = ErrorExit msg)).
  { destruct Hg as [[l ->]|[msg ->]]; cbn; [|eauto].
    destruct l as [|[[a s] e] [|? ?]]; eauto.
    repeat case_match; eauto. }
  destruct (split_first "=" tok) as [[option_string explicit_arg]|]; [|done].
  destruct (assoc option_string _option_string_actions); eauto.
Qed.


Lemma mentions_model_file (tok : string) :
  mentions ModelFile tok = spells "--model-file" tok.
Proof. unfold mentions. cbn. by rewrite orb_false_r. Qed.

Lemma mentions_output_path (tok : string) :
  mentions OutputPath tok = spells "--output-path" tok.
Proof. unfold mentions. cbn. by rewrite orb_false_r. Qed.

Lemma mentions_help (tok : string) : mentions Help tok = asks_help tok.
Proof. unfold mentions, asks_help. cbn. by rewrite orb_false_r. Qed.

(** *** The second pass *)

Lemma getattr_setattr_ne (a b : Action) (v : PyVal) (ns : Namespace) :
  a <> b -> getattr a (setattr b v ns) = getattr a ns.
Proof. by destruct a, b. Qed.

Lemma take_actions_spec (ts : list (Action * list string * string))
    (st st' : PState) :
  take_actions ts st = Parsed st' ->
  extras st' = extras st
  /\ (forall a, a ∈ seen_actions st' ->
                a ∈ seen_actions st \/ a ∈ map tuple_action ts)
  /\ (forall a, a ∉ map tuple_action ts ->
                getattr a (namespace st') = getattr a (namespace st)).
Proof.
  revert st. induction ts as [|[[b args] os] ts IH]; intros st; cbn.
  { intros [= <-]. set_solver. }
  destruct (kind b) eqn:Hk; cbn; try discriminate;
    intros (He & Hs & Hg)%IH; cbn in *;
    (split; [done|]); (split; [intros a Ha; destruct (Hs a Ha); set_solver|]);
    intros a Ha; rewrite Hg by set_solver;
    apply getattr_setattr_ne; unfold tuple_action in Ha; set_solver.
Qed.

(** Taking actions other than [Help] always succeeds. *)
Lemma take_actions_no_help (ts : list (Action * list string * string))
    (st : PState) :
  Help ∉ map tuple_action ts -> exists st', take_actions ts st = Parsed st'.
Proof.
  revert st. induction ts as [|[[b args] os] ts IH]; intros st Hn; cbn; [eauto|].
  assert (b <> Help) by (unfold tuple_action in Hn; set_solver).
  assert (Help ∉ map tuple_action ts) by set_solver.
  destruct b; try done; cbn; by apply IH.
Qed.

Lemma assoc_short (c : ascii) (a : Action) :
  assoc (String "-" (String c EmptyString)) _option_string_actions = Some a ->
  a = Help.
Proof.
  intros H%assoc_elem_of%option_table_cases.
  destruct H as [[_ ->]|H]; [done|].
  repeat (destruct H as [[[=] _]|H]). by destruct H as [[=] _].
Qed.

Lemma match_following_spec (action : Action) (os : string)
    (rest : list (string * Pattern)) (acc ts : list (Action * list string * string))
    (n : nat) :
  match_following action os rest acc = Parsed (ts, n) ->
  (n <= 1)%nat /\ exists args, ts = acc ++ [(action, args, os)].
Proof.
  unfold match_following, _match_argument.
  destruct (nargs action); cbn.
  - intros [= <- <-]. eauto.
  - destruct rest as [|[v [| |t]] rest]; cbn; try discriminate.
    intros [= <- <-]. eauto.
Qed.

Lemma match_following_outcome (action : Action) (os : string)
    (rest : list (string * Pattern)) (acc : list (Action * list string * string)) :
  (exists r, match_following action os rest acc = Parsed r)
  \/ (exists msg, match_following action os rest acc = ErrorExit msg).
Proof.
  unfold match_following, _match_argument.
  destruct (nargs action); cbn; [eauto|].
  destruct rest as [|[v [| |t]] rest]; cbn; eauto.
Qed.

Lemma match_explicit_spec (e : string) :
  forall (action : Action) (os : string) (rest : list (string * Pattern))
         (acc ts : list (Action * list string * string)) (n : nat),
    match_explicit action os e rest acc = Parsed (ts, n) ->
    (n <= 1)%nat
    /\ forall t, t ∈ ts -> t ∈ acc \/ tuple_action t = action \/ tuple_action t = Help.
Proof.
  induction e as [|c e IH]; intros action os rest acc ts n; cbn [match_explicit].
  - destruct (_ && _); [discriminate|].
    destruct (_ =? _)%nat; [|discriminate].
    intros [= <- <-]. split; [lia|]. set_solver.
  - destruct (_ && _).
    + destruct (assoc _ _) as [action'|] eqn:Ha; [|discriminate].
      apply assoc_short in Ha. subst action'.
      destruct e as [|c' e'].
      * intros [Hn [args ->]]%match_following_spec. split; [done|].
        unfold tuple_action. set_solver.
      * intros [Hn Ht]%IH. split; [done|]. intros t Hin.
        destruct (Ht t Hin) as [H|[H|H]]; unfold tuple_action in *; set_solver.
    + destruct (_ =? _)%nat; [|discriminate].
      intros [= <- <-]. split; [lia|]. unfold tuple_action. set_solver.
Qed.

Lemma consume_optional_spec (a : Action) (os : string) (e : option string)
    (rest : list (string * Pattern)) (ts : list (Action * list string * string))
    (n : nat) :
  consume_optional (a, os, e) rest = Parsed (ts, n) ->
  (n <= 1)%nat /\ forall t, t ∈ ts -> tuple_action t = a \/ tuple_action t = Help.
Proof.
  unfold consume_optional. destruct e as [e|].
  - intros [Hn Ht]%match_explicit_spec. split; [done|].
    intros t Hin. destruct (Ht t Hin) as [H|H]; [set_solver | done].
  - intros [Hn [args ->]]%match_following_spec. split; [done|].
    unfold tuple_action. set_solver.
Qed.

(** An option other than help is a long option: it stands alone, takes
    its explicit or following argument, or is rejected. *)
Lemma consume_optional_long (a : Action) (os : string) (e : option string)
    (rest : list (string * Pattern)) :
  (os, a) ∈ _option_string_actions -> a <> Help ->
  (exists args n, consume_optional (a, os, e) rest = Parsed ([(a, args, os)], n))
  \/ (exists msg, consume_optional (a, os, e) rest = ErrorExit msg).
Proof.
  intros Hin Ha.
  assert (Hlong : second_char_is_dash os = true).
  { apply option_table_cases in Hin.
    repeat (destruct Hin as [[-> ->]|Hin]; [done|]). by destruct Hin as [-> _]. }
  unfold consume_optional. destruct e as [e|].
  - assert (Hexp : forall acc,
      match_explicit a os e rest acc
      = if (nargs a =? 1)%nat then Parsed (acc ++ [(a, [e], os)], 0%nat)
        else ErrorExit (IgnoredExplicitArgument a e)).
    { intros acc. destruct e; cbn [match_explicit]; rewrite Hlong;
        by rewrite andb_false_r. }
    rewrite Hexp. destruct (_ =? _)%nat; eauto.
  - unfold match_following, _match_argument.
    destruct (nargs a); cbn; [eauto|].
    destruct rest as [|[v [| |t]] rest]; cbn; eauto.
Qed.

Lemma classify_wf (P : Action -> Prop) (argv : list string)
    (items : list (string * Pattern)) :
  (forall tok b, tok ∈ argv -> mentions b tok = true -> P b) ->
  classify argv = Parsed items -> Forall (item_wf P) items.
Proof.
  revert items. induction argv as [|s argv IH]; intros items HP; cbn [classify].
  { intros [= <-]. constructor. }
  case_bool_decide as Hdd.
  { intros <-%Parsed_inj. constructor; [done|].
    apply Forall_forall. intros it (x & -> & _)%list_elem_of_fmap_1. done. }
  destruct (_parse_optional s) as [t| | |] eqn:Hp; cbn; try discriminate.
  destruct (classify argv) as [r| | |] eqn:Hc; cbn; try discriminate.
  intros <-%Parsed_inj. constructor.
  - unfold item_wf. cbn. destruct t as [[[[b|] os] e]|]; try done.
    apply parse_optional_sound in Hp as [Hin Hn]. split; [done|].
    apply (HP s); [left | by eapply names_mentions].
  - apply IH; [|done]. intros tok b Hin. apply HP. by right.
Qed.

Lemma classify_outcome (argv : list string) :
  (exists items, classify argv = Parsed items)
  \/ (exists msg, classify argv = ErrorExit msg).
Proof.
  induction argv as [|s argv IH]; cbn [classify]; [eauto|].
  case_bool_decide; [eauto|].
  destruct (parse_optional_outcome s) as [[t ->]|[msg ->]]; cbn; [|eauto].
  destruct IH as [[r ->]|[msg ->]]; cbn; eauto.
Qed.

(** An action that no option of the command line stands for is neither
    seen nor given a value by the second pass. *)
Lemma consume_untouched (a : Action) (n : nat) :
  a <> Help ->
  forall (items : list (string * Pattern)) (st st' : PState),
    (length items <= n)%nat ->
    Forall (item_wf (fun b => b <> a)) items ->
    consume items st = Parsed st' ->
    (a ∈ seen_actions st' -> a ∈ seen_actions st)
    /\ getattr a (namespace st') = getattr a (namespace st).
Proof.
  intros Ha. induction n as [|n IH]; intros items st st' Hlen Hwf.
  { destruct items; [|cbn in Hlen; lia]. cbn. by intros [= <-]. }
  destruct items as [|[s p] rest]; [cbn; by intros [= <-]|].
  apply Forall_cons in Hwf as [Hit Hwf]. cbn in Hlen.
  assert (Hskip : consume rest (add_extra s st) = Parsed st' ->
                  (a ∈ seen_actions st' -> a ∈ seen_actions st)
                  /\ getattr a (namespace st') = getattr a (namespace st)).
  { intros H. apply IH in H; [done | lia | done]. }
  destruct p as [| |[[[b|] os] e]]; cbn [consume]; try done.
  destruct Hit as [Hin Hb]. cbn in Hin, Hb.
  destruct (consume_optional (b, os, e) rest) as [[ts k]| | |] eqn:Hco; cbn;
    try discriminate.
  apply consume_optional_spec in Hco as [Hk Hts].
  destruct (take_actions ts st) as [st1| | |] eqn:Hta; cbn; try discriminate.
  apply take_actions_spec in Hta as (_ & Hseen & Hget).
  assert (Hnot : a ∉ map tuple_action ts).
  { intros (t & -> & Hin')%list_elem_of_fmap_1.
    destruct (Hts t Hin'); congruence. }
  intros Hc.
  assert (Hrec : (a ∈ seen_actions st' -> a ∈ seen_actions st1)
                 /\ getattr a (namespace st') = getattr a (namespace st1)).
  { destruct k as [|k]; [apply IH in Hc; [done | lia | done]|].
    destruct rest as [|it rest']; [apply IH in Hc; [done | cbn; lia | done]|].
    apply Forall_cons in Hwf as [_ Hwf].
    apply IH in Hc; [done | cbn in Hlen; lia | done]. }
  destruct Hrec as [Hs Hg]. split.
  - intros H. destruct (Hseen a (Hs H)); [done | contradiction].
  - rewrite Hg. by apply Hget.
Qed.

(** Without a help option among the items, the second pass returns or
    reports an error. *)
Lemma consume_no_help (n : nat) :
  forall (items : list (string * Pattern)) (st : PState),
    (length items <= n)%nat ->
    Forall (item_wf (fun b => b <> Help)) items ->
    (exists st', consume items st = Parsed st')
    \/ (exists msg, consume items st = ErrorExit msg).
Proof.
  induction n as [|n IH]; intros items st Hlen Hwf.
  { destruct items; [|cbn in Hlen; lia]. cbn. eauto. }
  destruct items as [|[s p] rest]; [cbn; eauto|].
  apply Forall_cons in Hwf as [Hit Hwf]. cbn in Hlen.
  assert (Hskip : (exists st', consume rest (add_extra s st) = Parsed st')
                  \/ (exists msg, consume rest (add_extra s st) = ErrorExit msg))
    by (apply IH; [lia | done]).
  destruct p as [| |[[[b|] os] e]]; cbn [consume]; try done.
  destruct Hit as [Hin Hb]. cbn in Hin, Hb.
  destruct (consume_optional_long b os e rest Hin Hb)
    as [(args & k & ->)|[msg ->]]; cbn [mbind Outcome_bind fst snd]; [|eauto].
  destruct (take_actions_no_help [(b, args, os)] st) as [st1 ->].
  { unfold tuple_action. set_solver. }
  cbn [mbind Outcome_bind].
  destruct k as [|k]; [apply IH; [lia | done]|].
  destruct rest as [|it rest']; [apply IH; [cbn; lia | done]|].
  apply Forall_cons in Hwf as [_ Hwf]. apply IH; [cbn in Hlen; lia | done].
Qed.


(** *** The parser as a whole *)

Lemma required_missing (st : PState) :
  ModelFile ∉ seen_actions st ->
  omap (fun a => if negb (bool_decide (a ∈ seen_actions st)) && required a
                 then Some (_get_action_name a) else None) _actions
  = ["--model-file"].
Proof.
  intros H. unfold _actions. cbn [omap required list_omap].
  rewrite !andb_false_r. by rewrite bool_decide_eq_false_2.
Qed.

(** A command line on which nothing names [--model-file] is never
    accepted. *)
Lemma parse_args_requires_model_file (argv : list string) :
  absent "--model-file" argv -> forall ns, parse_args argv <> Parsed ns.
Proof.
  intros Habs ns. unfold parse_args, parse_known_args.
  destruct (classify argv) as [items| | |] eqn:Hc;
    cbn [mbind Outcome_bind]; try discriminate.
  destruct (consume items initial_state) as [st| | |] eqn:Hs;
    cbn [mbind Outcome_bind]; try discriminate.
  assert (Hwf : Forall (item_wf (fun b => b <> ModelFile)) items).
  { eapply classify_wf; [|done]. intros tok b Hin Hm ->.
    rewrite mentions_model_file in Hm.
    unfold absent in Habs. rewrite Forall_forall in Habs.
    specialize (Habs tok Hin). congruence. }
  apply (consume_untouched ModelFile (length items)) in Hs as [Hseen _];
    [|done|done|done].
  assert (Hnot : ModelFile ∉ seen_actions st).
  { intros H. apply Hseen in H. by apply elem_of_nil in H. }
  rewrite (required_missing st Hnot). cbn [mbind Outcome_bind]. discriminate.
Qed.

(** If moreover nothing asks for help, the parser reports an error. *)
Lemma parse_args_usage_error (argv : list string) :
  absent "--model-file" argv -> no_help argv ->
  exists msg, parse_args argv = ErrorExit msg.
Proof.
  intros Habs Hnh.
  pose proof (parse_args_requires_model_file argv Habs) as Hno.
  unfold parse_args, parse_known_args in *.
  destruct (classify_outcome argv) as [[items Hc]|[msg Hc]]; rewrite Hc in *;
    cbn [mbind Outcome_bind] in *; [|eauto].
  assert (Hwf : Forall (item_wf (fun b => b <> Help)) items).
  { eapply classify_wf; [|done]. intros tok b Hin Hm ->.
    rewrite mentions_help in Hm.
    unfold no_help in Hnh. rewrite Forall_forall in Hnh.
    specialize (Hnh tok Hin). congruence. }
  destruct (consume_no_help (length items) items initial_state (le_n _) Hwf)
    as [[st Hs]|[msg Hs]]; rewrite Hs in *; cbn [mbind Outcome_bind] in *;
    [|eauto].
  destruct (omap _ _actions); cbn [mbind Outcome_bind fst snd] in *; [|eauto].
  destruct (extras st); [|eauto].
  by destruct (Hno (namespace st)).
Qed.

(** An option that nothing on the command line names keeps its default. *)
Lemma parse_args_output_path_default (argv : list string) (ns : Namespace) :
  absent "--output-path" argv -> parse_args argv = Parsed ns ->
  output_path ns = VNone.
Proof.
  intros Habs. unfold parse_args, parse_known_args.
  destruct (classify argv) as [items| | |] eqn:Hc;
    cbn [mbind Outcome_bind]; try discriminate.
  destruct (consume items initial_state) as [st| | |] eqn:Hs;
    cbn [mbind Outcome_bind]; try discriminate.
  assert (Hwf : Forall (item_wf (fun b => b <> OutputPath)) items).
  { eapply classify_wf; [|done]. intros tok b Hin Hm ->.
    rewrite mentions_output_path in Hm.
    unfold absent in Habs. rewrite Forall_forall in Habs.
    specialize (Habs tok Hin). congruence. }
  apply (consume_untouched OutputPath (length items)) in Hs as [_ Hget];
    [|done|done|done].
  destruct (omap _ _actions); cbn [mbind Outcome_bind fst snd];
    [|discriminate].
  destruct (extras st); [|discriminate].
  intros Heq. apply Parsed_inj in Heq. subst ns. exact Hget.
Qed.

(** *** Canonical command lines are accepted *)

Lemma parse_optional_long_name (a : Action) :
  _parse_optional (long_name a) = Parsed (Some (Some a, long_name a, None)).
Proof. by destruct a. Qed.

Lemma parse_optional_value (v : string) :
  startswith v "-" = false -> _parse_optional v = Parsed None.
Proof.
  intros Hv. unfold _parse_optional. case_bool_decide; [done|]. by rewrite Hv.
Qed.

Lemma classify_canonical (cs : list CliArg) :
  Forall canonical cs ->
  classify (command_line cs) = Parsed (flat_map render_items cs).
Proof.
  induction 1 as [|c cs Hc _ IH]; [done|].
  unfold command_line in *. cbn [flat_map].
  destruct c as [a v|a]; cbn [render render_items app classify].
  - destruct Hc as [_ Hv].
    rewrite (bool_decide_eq_false_2 (long_name a = "--")) by (by destruct a).
    rewrite parse_optional_long_name. cbn [mbind Outcome_bind].
    rewrite (bool_decide_eq_false_2 (v = "--")) by (by intros ->).
    rewrite (parse_optional_value v Hv). cbn [mbind Outcome_bind].
    by rewrite IH.
  - rewrite (bool_decide_eq_false_2 (long_name a = "--")) by (by destruct a).
    rewrite parse_optional_long_name. cbn [mbind Outcome_bind].
    by rewrite IH.
Qed.

Lemma consume_canonical (cs : list CliArg) :
  Forall canonical cs ->
  forall st,
    consume (flat_map render_items cs) st
    = Parsed {| namespace := foldl store_arg (namespace st) cs;
                seen_actions := rev (map cli_action cs) ++ seen_actions st;
                extras := extras st |}.
Proof.
  induction 1 as [|c cs Hc _ IH]; intros st; [by destruct st|].
  cbn [flat_map]. destruct c as [a v|a]; cbn [render_items app consume].
  - destruct Hc as [Hk Hv].
    assert (Hn : nargs a = 1%nat) by (unfold nargs; by rewrite Hk).
    unfold consume_optional, match_following, _match_argument.
    rewrite Hn. cbn [map snd mbind Outcome_bind firstn fst app take_actions
                     take_action].
    rewrite Hk. unfold _get_values. rewrite Hn. cbn [remove_first].
    rewrite (bool_decide_eq_false_2 (v = "--")) by (by intros ->).
    cbn [mbind Outcome_bind snd]. rewrite IH. cbn [namespace seen_actions extras
      foldl store_arg map cli_action rev].
    by rewrite <- app_assoc.
  - assert (Hn : nargs a = 0%nat) by (unfold nargs; by rewrite Hc).
    unfold consume_optional, match_following, _match_argument.
    rewrite Hn. cbn [map snd mbind Outcome_bind firstn fst app take_actions
                     take_action].
    rewrite Hc. cbn [mbind Outcome_bind snd].
    rewrite IH. cbn [namespace seen_actions extras
      foldl store_arg map cli_action rev].
    by rewrite <- app_assoc.
Qed.

Lemma required_present (st : PState) :
  ModelFile ∈ seen_actions st ->
  omap (fun a => if negb (bool_decide (a ∈ seen_actions st)) && required a
                 then Some (_get_action_name a) else None) _actions
  = [].
Proof.
  intros H. unfold _actions. cbn [omap required list_omap].
  rewrite !andb_false_r. by rewrite bool_decide_eq_true_2.
Qed.

(** A canonical command line that gives [--model-file] a value is accepted,
    with the namespace it stands for. *)
Lemma parse_args_canonical (cs : list CliArg) :
  Forall canonical cs -> ModelFile ∈ map cli_action cs ->
  parse_args (command_line cs) = Parsed (namespace_of cs).
Proof.
  intros Hcs Hm. unfold parse_args, parse_known_args.
  rewrite (classify_canonical cs Hcs). cbn [mbind Outcome_bind].
  rewrite (consume_canonical cs Hcs). cbn [mbind Outcome_bind].
  rewrite required_present.
  - reflexivity.
  - cbn [seen_actions initial_state]. rewrite app_nil_r.
    apply list_elem_of_In, in_rev. rewrite rev_involutive.
    by apply list_elem_of_In.
Qed.

(** On a canonical command line, an option that is not given keeps its
    default. *)
Lemma namespace_of_default (cs : list CliArg) (a : Action) :
  a ∉ map cli_action cs ->
  getattr a (namespace_of cs) = getattr a initial_namespace.
Proof.
  unfold namespace_of. generalize initial_namespace.
  induction cs as [|c cs IH]; intros ns Ha; [done|].
  cbn [foldl]. rewrite IH by set_solver.
  assert (a <> cli_action c) by set_solver.
  destruct c; by apply getattr_setattr_ne.
Qed.

End argparse_facts.

(** ** Runs of the script *)

Section Runs.
Context `{X : Externals}.


Lemma observations_app (tr1 tr2 : list Event) :
  observations (tr1 ++ tr2) = observations tr1 ++ observations tr2.
Proof. apply omap_app. Qed.

Lemma calls_app (tr1 tr2 : list Event) : calls (tr1 ++ tr2) = calls tr1 ++ calls tr2.
Proof. apply omap_app. Qed.

Lemma artifacts_app (tr1 tr2 : list Event) :
  artifacts (tr1 ++ tr2) = artifacts tr1 ++ artifacts tr2.
Proof. apply omap_app. Qed.

(** *** Composition of plans *)

Lemma follows_ret {A} (V : A -> Prop) (a : A) : V a -> follows [] V (mret a).
Proof.
  intros HV w. exists []. cbn. rewrite app_nil_r.
  split; [done|]. split; [done|]. left. exists a. by repeat split.
Qed.

Lemma follows_bind {A B} (p1 p2 : list Obs) (V1 : A -> Prop) (V2 : B -> Prop)
    (m : M A) (f : A -> M B) :
  follows p1 V1 m -> (forall a, V1 a -> follows p2 V2 (f a)) ->
  follows (p1 ++ p2) V2 (m ≫= f).
Proof.
  intros Hm Hf w. destruct (Hm w) as (tr1 & Hev1 & Hpre1 & Hout1).
  unfold mbind, M_bind. destruct (m w) as [[a|e] w1]; cbn in *.
  - destruct Hout1 as [(a' & [= <-] & HV & Hs1 & Ho1)|(? & ? & ? & _ & _ & _ & [=])].
    destruct (Hf a HV w1) as (tr2 & Hev2 & Hpre2 & Hout2).
    exists (tr1 ++ tr2). rewrite Hev2, Hev1, app_assoc. split; [done|].
    rewrite observations_app, Ho1. split; [by apply prefix_app|].
    destruct Hout2 as [(b & Hb & HVb & Hs2 & Ho2)|(pre & c & e & -> & Hs2 & Hc & Hr)].
    + left. exists b. unfold outcome. rewrite ?calls_app, ?observations_app, ?Ho1, ?Ho2.
      repeat split; try done. by apply Forall_app.
    + right. exists (tr1 ++ pre), c, e. rewrite calls_app, app_assoc.
      repeat split; try done. by apply Forall_app.
  - exists tr1. split; [done|]. split; [by apply prefix_app_r|].
    destruct Hout1 as [(a' & [=] & _)|(pre & c & e' & -> & Hs & Hc & [= <-])].
    right. by exists pre, c, e.
Qed.

Lemma follows_weaken {A} (p : list Obs) (V V' : A -> Prop) (m : M A) :
  (forall a, V a -> V' a) -> follows p V m -> follows p V' m.
Proof.
  intros HV Hm w. destruct (Hm w) as (tr & Hev & Hpre & Hout).
  exists tr. split; [done|]. split; [done|].
  destruct Hout as [(a & ? & ? & ? & ?)|?]; [left; exists a; auto | by right].
Qed.

Lemma follows_call {A} (c : Call) (r : Result A) :
  call_error c = match r with Ok _ => None | Raise e => Some e end ->
  follows [OStep (step_of c)] (fun a => r = Ok a) (call c r).
Proof.
  intros Hc w. exists [EvCall c]. cbn. split; [done|]. split; [done|].
  destruct r as [a|e]; cbn.
  - left. exists a. repeat split; try done; by repeat constructor.
  - right. exists [], c, e. repeat split; try done; constructor.
Qed.

Lemma follows_info (msg : LogMsg) : follows [] (fun _ => True) (info msg).
Proof.
  intros w. unfold info.
  destruct (logging w) as [cfg|];
    [destruct (_ <=? _)|]; cbn.
  - exists [EvLog cfg msg]. split; [done|]. split; [done|].
    left. exists tt. by repeat split.
  - exists []. rewrite app_nil_r. split; [done|]. split; [done|].
    left. exists tt. by repeat split.
  - exists []. rewrite app_nil_r. split; [done|]. split; [done|].
    left. exists tt. by repeat split.
Qed.

Lemma follows_basicConfig (cfg : LoggingConfig) :
  follows [] (fun _ => True) (basicConfig cfg).
Proof.
  intros w. exists []. cbn. rewrite app_nil_r. split; [done|]. split; [done|].
  left. exists tt. by repeat split.
Qed.

Lemma follows_save (s : ScriptModule) (p : string) :
  follows [OStep (SSave p); OWrite p] (fun _ => True) (save s p).
Proof.
  intros w. unfold save, mbind, M_bind. cbn.
  destruct (save_error s p) as [e|] eqn:He; cbn.
  - exists [EvCall (CSave s p)]. split; [done|].
    split; [by apply prefix_cons, prefix_nil|].
    right. exists [], (CSave s p), e. repeat split; try done; constructor.
  - exists [EvCall (CSave s p); EvWrite p s]. rewrite <- app_assoc.
    split; [done|]. split; [done|].
    left. exists tt. repeat split; try done; by repeat constructor.
Qed.

Lemma follows_bind_call {A B} (c : Call) (r : Result A) (p : list Obs)
    (V : B -> Prop) (f : A -> M B) :
  call_error c = match r with Ok _ => None | Raise e => Some e end ->
  (forall a, r = Ok a -> follows p V (f a)) ->
  follows (OStep (step_of c) :: p) V (call c r ≫= f).
Proof.
  intros Hc Hf.
  apply (follows_bind [OStep (step_of c)] p (fun a => r = Ok a)); [|done].
  by apply follows_call.
Qed.

Lemma follows_bind_info {B} (msg : LogMsg) (p : list Obs) (V : B -> Prop)
    (f : unit -> M B) :
  follows p V (f tt) -> follows p V (info msg ≫= f).
Proof.
  intros Hf. apply (follows_bind [] p _ _ _ _ (follows_info msg)).
  by intros [] _.
Qed.

Lemma follows_bind_save {B} (s : ScriptModule) (path : string) (p : list Obs)
    (V : B -> Prop) (f : unit -> M B) :
  follows p V (f tt) ->
  follows (OStep (SSave path) :: OWrite path :: p) V (save s path ≫= f).
Proof.
  intros Hf.
  apply (follows_bind [OStep (SSave path); OWrite path] p _ _ _ _
           (follows_save s path)).
  by intros [] _.
Qed.

(** *** The plan of each phase *)

Lemma self_test_follows (l : Loader) (enc : Encoder Wav2Vec2Model) (d : Decoder)
    (test_file : PyVal) :
  follows [OStep SLoader; OStep SEncoder; OStep SDecoder] (fun _ => True)
          (_self_test l enc d test_file).
Proof.
  unfold _self_test.
  apply follows_bind_info.
  apply (follows_bind_call (CLoader l test_file)); [by destruct test_file|].
  intros waveform _.
  apply (follows_bind_call (CEncoder enc waveform)); [done|].
  intros emission _.
  apply (follows_bind_call (CDecoder d emission)); [done|].
  intros transcript _. apply follows_info.
Qed.

Lemma assemble_follows (args : argparse.Namespace) :
  follows ([OStep SGetModel]
           ++ (if truthy (argparse.quantize args)
               then [OStep SPrepareScriptable; OStep SQuantize] else []))
          (fun _ => True) (_assemble args).
Proof.
  unfold _assemble.
  apply (follows_bind_call (CGetModel _ _)); [done|].
  intros model _. apply follows_bind_info.
  destruct (truthy (argparse.quantize args)); [|by apply follows_ret].
  apply follows_bind_info.
  apply (follows_bind_call (CPrepareScriptable _)); [done|].
  intros model' _.
  apply (follows_bind_call (CQuantize _)); [done|].
  intros enc _. apply follows_bind_info. by apply follows_ret.
Qed.

Lemma artifact_follows (k : StageKind) (st : Stage Wav2Vec2Model)
    (optimize : bool) (out name : string) (rest : list Obs)
    (finish : ScriptModule -> string -> M unit) :
  step_of (CScript st) = SScript k ->
  (forall s, follows (OStep (SSave (posix_join out name))
                      :: OWrite (posix_join out name) :: rest)
               (fun _ => True) (finish s (posix_join out name))) ->
  follows (artifact_plan k optimize out name ++ rest) (fun _ => True)
    (scripted ← call (CScript st) (jit_script st);
     scripted ← (if optimize
                 then call (COptimize scripted) (optimize_for_mobile scripted)
                 else mret scripted);
     path ← call (CJoin (VStr out) name) (os_path_join (VStr out) name);
     finish scripted path).
Proof.
  intros Hk Hfin. unfold artifact_plan. rewrite <- !app_assoc.
  change ([OStep (SScript k)] ++ ?p) with (OStep (SScript k) :: p).
  rewrite <- Hk.
  apply (follows_bind_call (CScript st)); [done|].
  intros scripted _.
  apply (follows_bind _ _ (fun _ : ScriptModule => True)).
  { destruct optimize.
    - apply (follows_weaken _ (fun a => optimize_for_mobile scripted = Ok a));
        [done|]. by apply (follows_call (COptimize scripted)).
    - by apply follows_ret. }
  intros scripted' _.
  apply (follows_bind_call (CJoin (VStr out) name)); [done|].
  intros path [= <-]. apply Hfin.
Qed.

Lemma export_follows (l : Loader) (enc : Encoder Wav2Vec2Model) (d : Decoder)
    (args : argparse.Namespace) :
  follows (export_plan args) (fun _ => True) (_export l enc d args).
Proof.
  unfold _export, export_plan.
  destruct (argparse.output_path args) as [|b|out|ls] eqn:Hout.
  3: {
    apply (artifact_follows KLoader (StLoader l) false out "loader.zip"); [done|].
    intros sl. apply follows_bind_save.
    apply (artifact_follows KDecoder (StDecoder d) false out "decoder.zip"); [done|].
    intros sd. apply follows_bind_save.
    rewrite <- (app_nil_r (artifact_plan KEncoder _ _ _)).
    apply (artifact_follows KEncoder (StEncoder enc)); [done|].
    intros se. apply follows_save. }
  all: apply (follows_bind_call (CScript (StLoader l))); [done|];
    intros sl _;
    apply (follows_bind_call (CJoin _ "loader.zip") _ []); [done|];
    intros path [=].
Qed.

Lemma build_follows (args : argparse.Namespace) :
  follows (plan args) (fun _ => True) (_build args).
Proof.
  unfold _build.
  apply (follows_bind [] (plan args) _ _ _ _ (follows_basicConfig _)).
  intros _ _.
  change (plan args)
    with (([OStep SGetModel]
           ++ (if truthy (argparse.quantize args)
               then [OStep SPrepareScriptable; OStep SQuantize] else []))
          ++ ((if truthy (argparse.test_file args)
               then [OStep SLoader; OStep SEncoder; OStep SDecoder] else [])
              ++ export_plan args)).
  apply (follows_bind _ _ _ _ _ _ (assemble_follows args)). intros enc _.
  apply (follows_bind _ _ (fun _ : unit => True)).
  { destruct (truthy (argparse.test_file args)).
    - apply self_test_follows.
    - by apply follows_ret. }
  intros _ _. apply export_follows.
Qed.

(** Once the arguments are parsed, a run is a run of the remaining steps
    from the initial world. *)
Lemma run_parsed (argv : list string) (args : argparse.Namespace) :
  argparse.parse_args argv = argparse.Parsed args ->
  run argv = _build args initial_world.
Proof.
  intros H. unfold run, _main, _parse_args, mbind, M_bind. by rewrite H.
Qed.

(** *** Artifact paths *)

Lemma posix_join_inj (out n1 n2 : string) :
  startswith n1 "/" = false -> startswith n2 "/" = false ->
  posix_join out n1 = posix_join out n2 -> n1 = n2.
Proof.
  unfold posix_join. intros -> ->.
  destruct (_ || _); intros H%str_app_inv_head; [done|].
  by apply (str_app_inv_head "/") in H.
Qed.

Lemma artifact_paths_distinct (out : string) :
  NoDup [posix_join out "loader.zip"; posix_join out "decoder.zip";
         posix_join out "encoder.zip"].
Proof.
  assert (H12 : posix_join out "loader.zip" <> posix_join out "decoder.zip")
    by (by intros H%posix_join_inj).
  assert (H13 : posix_join out "loader.zip" <> posix_join out "encoder.zip")
    by (by intros H%posix_join_inj).
  assert (H23 : posix_join out "decoder.zip" <> posix_join out "encoder.zip")
    by (by intros H%posix_join_inj).
  apply NoDup_cons_2; [|apply NoDup_cons_2; [|apply NoDup_singleton]].
  - intros H. apply elem_of_cons in H as [H|H]; [done|].
    by apply list_elem_of_singleton in H.
  - intros H. by apply list_elem_of_singleton in H.
Qed.

Lemma artifacts_observed (tr : list Event) :
  map fst (artifacts tr) = omap write_of (observations tr).
Proof.
  unfold artifacts, observations.
  induction tr as [|ev tr IH]; [done|].
  destruct ev; cbn in *; by rewrite ?IH.
Qed.

Lemma plan_writes (args : argparse.Namespace) :
  omap write_of (plan args) = artifact_paths args.
Proof.
  unfold plan, export_plan, artifact_paths.
  destruct (truthy (argparse.quantize args)), (truthy (argparse.test_file args)),
    (truthy (argparse.optimize_for_mobile args)),
    (argparse.output_path args); reflexivity.
Qed.

Lemma omap_prefix {A B} (f : A -> option B) (l1 l2 : list A) :
  l1 `prefix_of` l2 -> omap f l1 `prefix_of` omap f l2.
Proof. intros [k ->]. rewrite omap_app. by apply prefix_app_r. Qed.

Lemma prefix_snoc_ne {A} (l k : list A) (y : A) :
  l `prefix_of` (k ++ [y]) -> last l <> Some y -> l `prefix_of` k.
Proof.
  intros [z Hz] Hl. destruct z as [|x z _] using rev_ind.
  - rewrite app_nil_r in Hz. subst l. by rewrite last_snoc in Hl.
  - exists z. rewrite app_assoc in Hz. by apply app_inj_tail in Hz as [-> _].
Qed.

Lemma prefix_full {A} (l k : list A) :
  l `prefix_of` k -> NoDup k -> l <> [] -> last l = last k -> l = k.
Proof.
  intros [z ->] Hnd Hne Hlast. destruct z as [|x z _] using rev_ind.
  - by rewrite app_nil_r.
  - exfalso. rewrite app_assoc, last_snoc in Hlast.
    apply NoDup_app in Hnd as (_ & Hdisj & _).
    apply (Hdisj x).
    + destruct l as [|y l] using rev_ind; [done|].
      rewrite last_snoc in Hlast. injection Hlast as ->. set_solver.
    + set_solver.
Qed.

Lemma plan_NoDup (args : argparse.Namespace) : NoDup (plan args).
Proof.
  unfold plan, export_plan, artifact_plan.
  destruct (argparse.output_path args) as [|b|out|ls].
  3: {
    pose proof (artifact_paths_distinct out) as Hd.
    apply NoDup_cons in Hd as [H1 Hd]. apply NoDup_cons in Hd as [H2 _].
    rewrite !elem_of_cons, elem_of_nil in H1.
    rewrite !elem_of_cons, elem_of_nil in H2.
    revert H1 H2.
    generalize (posix_join out "loader.zip") (posix_join out "decoder.zip")
      (posix_join out "encoder.zip").
    intros p1 p2 p3 H1 H2.
    destruct (truthy (argparse.quantize args)), (truthy (argparse.test_file args)),
      (truthy (argparse.optimize_for_mobile args)); cbn [app];
      repeat (apply NoDup_cons_2;
              [rewrite ?elem_of_cons, elem_of_nil; intros H;
               repeat (destruct H as [H|H]); try done;
               injection H; intros; subst; tauto|]);
      apply NoDup_nil_2. }
  all: destruct (truthy (argparse.quantize args)), (truthy (argparse.test_file args));
    cbn [app];
    repeat (apply NoDup_cons_2;
            [rewrite ?elem_of_cons, elem_of_nil; intros H;
             repeat (destruct H as [H|H]); done|]);
    apply NoDup_nil_2.
Qed.

Lemma observed_step_called (tr : list Event) (s : Step) :
  OStep s ∈ observations tr -> exists c, c ∈ calls tr /\ step_of c = s.
Proof.
  intros (ev & Hin & Hobs)%list_elem_of_omap.
  destruct ev as [| | |c|]; try done. injection Hobs as <-.
  exists c. split; [|done]. apply list_elem_of_omap. by exists (EvCall c).
Qed.

Lemma step_of_join (c : Call) (a : PyVal) (name : string) :
  step_of c = SJoin a name -> c = CJoin a name.
Proof. destruct c as [| | | | | |[]| | |]; try done. by intros [= -> ->]. Qed.

(** How a run with parsed arguments ends. *)
Lemma run_outcome (argv : list string) (args : argparse.Namespace) :
  argparse.parse_args argv = argparse.Parsed args ->
  observations (trace_of argv) `prefix_of` plan args
  /\ outcome (plan args) (fun _ => True) (result_of argv) (trace_of argv).
Proof.
  intros Hp. unfold trace_of, result_of. rewrite (run_parsed _ _ Hp).
  destruct (build_follows args initial_world) as (tr & Hev & Hpre & Hout).
  cbn in Hev. by rewrite Hev.
Qed.

End Runs.

(** C8: when a load, conversion or serialization call raises, the run
    stops there with that exception: every step of the plan is attempted at
    most once and in order, nothing follows the failing call, and the files
    written so far stay, so that a failed run leaves fewer than three of
    [loader.zip], [decoder.zip], [encoder.zip], written in this order. Such
    a partial outcome does occur. *)
Theorem run_aborts_without_cleanup :
  (forall (X : Externals) (argv : list string) (args : argparse.Namespace),
      argparse.parse_args argv = argparse.Parsed args ->
      ((result_of argv = Ok tt
        /\ Forall succeeded (calls (trace_of argv))
        /\ observations (trace_of argv) = plan args)
       \/ (exists pre c e,
             trace_of argv = pre ++ [EvCall c]
             /\ Forall succeeded (calls pre)
             /\ call_error c = Some e
             /\ result_of argv = Raise e))
      /\ observations (trace_of argv) `prefix_of` plan args
      /\ NoDup (plan args)
      /\ map fst (artifacts (trace_of argv)) `prefix_of` artifact_paths args
      /\ (result_of argv <> Ok tt -> (length (artifacts (trace_of argv)) < 3)%nat))
  /\ (exists argv e,
        @result_of Demo.externals argv = Raise e
        /\ map fst (artifacts (@trace_of Demo.externals argv))
           = ["out/loader.zip"; "out/decoder.zip"]).
Proof.
  split.
  - intros X argv args Hp.
    destruct (run_outcome argv args Hp) as [Hpre Hout].
    assert (Hart : map fst (artifacts (trace_of argv)) `prefix_of` artifact_paths args).
    { rewrite artifacts_observed, <- plan_writes. by apply omap_prefix. }
    split; [|split; [done|split; [apply plan_NoDup|split; [done|]]]].
    + destruct Hout as [([] & Hr & _ & Hs & Ho)|Hab]; [left | right]; done.
    + intros Hr.
      destruct Hout as [([] & Hr' & _)|(pre & c & e & Htr & _ & _ & _)]; [done|].
      rewrite <- (length_map fst).
      unfold artifact_paths in Hart.
      destruct (argparse.output_path args) as [|b|out|ls] eqn:Hout;
        try (apply prefix_nil_inv in Hart; rewrite Hart; cbn; lia).
      enough (H : map fst (artifacts (trace_of argv))
                  `prefix_of` [posix_join out "loader.zip";
                               posix_join out "decoder.zip"])
        by (apply prefix_length in H; cbn in H; lia).
      rewrite artifacts_observed.
      assert (Hlast : last (observations (trace_of argv))
                      <> Some (OWrite (posix_join out "encoder.zip"))).
      { rewrite Htr, observations_app. cbn. by rewrite last_snoc. }
      revert Hpre Hlast. generalize (observations (trace_of argv)). intros obs.
      unfold plan, export_plan, artifact_plan. rewrite Hout.
      destruct (truthy (argparse.quantize args)),
        (truthy (argparse.test_file args)),
        (truthy (argparse.optimize_for_mobile args)); cbn [app];
        intros Hpre Hlast;
        match type of Hpre with
        | _ `prefix_of` ?l =>
            change l with (removelast l ++ [OWrite (posix_join out "encoder.zip")])
              in Hpre
        end;
        apply prefix_snoc_ne in Hpre; try done;
        by apply (omap_prefix write_of) in Hpre.
  - exists ["--model-file"; "unscriptable.pt"; "--output-path"; "out"],
           (RuntimeError "cannot script the model").
    split; by vm_compute.
Qed.

Lemma run_aborts_without_cleanup_witness :
  argparse.parse_args ["--model-file"; "missing.pt"; "--output-path"; "out"]
  = argparse.Parsed
      {| argparse.model_file := VStr "missing.pt"; argparse.dict_dir := VNone;
         argparse.output_path := VStr "out"; argparse.test_file := VNone;
         argparse.debug := VBool false; argparse.quantize := VBool false;
         argparse.optimize_for_mobile := VBool false |}
  /\ (@result_of Demo.externals
        ["--model-file"; "missing.pt"; "--output-path"; "out"] <> Ok tt ->
      (length (artifacts (@trace_of Demo.externals
                 ["--model-file"; "missing.pt"; "--output-path"; "out"])) < 3)%nat).
Proof.
  split; [reflexivity|].
  exact (proj2 (proj2 (proj2 (proj2
    (proj1 run_aborts_without_cleanup Demo.externals
       ["--model-file"; "missing.pt"; "--output-path"; "out"] _ eq_refl))))).
Defined.


(** C5 (as amended): on a command line on which nothing names
    [--model-file], the parser never returns a configuration; the run ends
    inside [_parse_args], before any call into the libraries, and writes no
    artifact. If moreover nothing on the command line asks for help, the
    run ends with a usage error on stderr and exit status 2. *)
Theorem missing_model_file_stops_in_parser (X : Externals) (argv : list string) :
  absent "--model-file" argv ->
  (forall ns, argparse.parse_args argv <> argparse.Parsed ns)
  /\ (exists e, result_of argv = Raise e)
  /\ calls (trace_of argv) = []
  /\ artifacts (trace_of argv) = []
  /\ (no_help argv ->
      exists msg,
        argparse.parse_args argv = argparse.ErrorExit msg
        /\ trace_of argv = [EvUsageError msg]
        /\ result_of argv = Raise (SystemExit 2)
        /\ exit_status (result_of argv) = 2).
Proof.
  intros Habs.
  pose proof (argparse_facts.parse_args_requires_model_file argv Habs) as Hno.
  split; [done|].
  assert (Hrest : (exists e, result_of argv = Raise e)
                  /\ calls (trace_of argv) = []
                  /\ artifacts (trace_of argv) = []).
  { unfold result_of, trace_of, run, _main, _parse_args, mbind, M_bind.
    destruct (argparse.parse_args argv) as [ns| |msg|e]; cbn; eauto.
    by destruct (Hno ns). }
  destruct Hrest as (Hr & Hc & Ha). repeat (split; [done|]).
  intros Hnh.
  destruct (argparse_facts.parse_args_usage_error argv Habs Hnh) as [msg Hmsg].
  exists msg. split; [done|].
  unfold result_of, trace_of, run, _main, _parse_args, mbind, M_bind.
  by rewrite Hmsg.
Qed.

Lemma missing_model_file_stops_in_parser_witness :
  absent "--model-file" ["--output-path"; "out"]
  /\ no_help ["--output-path"; "out"]
  /\ exists msg,
       @trace_of Demo.externals ["--output-path"; "out"] = [EvUsageError msg]
       /\ @result_of Demo.externals ["--output-path"; "out"] = Raise (SystemExit 2).
Proof.
  assert (Habs : absent "--model-file" ["--output-path"; "out"])
    by (repeat constructor).
  assert (Hnh : no_help ["--output-path"; "out"]) by (repeat constructor).
  split; [exact Habs|]. split; [exact Hnh|].
  destruct (missing_model_file_stops_in_parser Demo.externals
              ["--output-path"; "out"] Habs) as (_ & _ & _ & _ & Huse).
  destruct (Huse Hnh) as (msg & _ & Htr & Hr & _).
  exists msg. by split.
Defined.

(** The claim as stated fails on [--help]: nothing names [--model-file],
    yet the parser prints the help and the process exits with status 0. *)
Lemma help_without_model_file_exits_zero :
  ~ @usage_error_without_model_file Demo.externals ["--help"].
Proof.
  unfold usage_error_without_model_file. intros H.
  destruct H as ([msg Hmsg] & _); [repeat constructor|].
  vm_compute in Hmsg. discriminate Hmsg.
Qed.

(** What the run on [--help] does. *)
Lemma help_run :
  argparse.parse_args ["--help"] = argparse.HelpExit
  /\ @result_of Demo.externals ["--help"] = Raise (SystemExit 0)
  /\ exit_status (@result_of Demo.externals ["--help"]) = 0
  /\ @trace_of Demo.externals ["--help"] = [EvHelp].
Proof. repeat split; reflexivity. Qed.

(** ** Successful runs *)

Section Success.
Context `{X : Externals}.

Lemma bind_ok {A B} (m : M A) (f : A -> M B) (w w' : World) (b : B) :
  (m ≫= f) w = (Ok b, w') ->
  exists a w1, m w = (Ok a, w1) /\ f a w1 = (Ok b, w').
Proof.
  unfold mbind, M_bind. destruct (m w) as [[a|e] w1]; [eauto | discriminate].
Qed.

Lemma record_record (w : World) (tr1 tr2 : list Event) :
  record (record w tr1) tr2 = record w (tr1 ++ tr2).
Proof. unfold record. cbn. by rewrite app_assoc. Qed.

Lemma call_ok {A} (c : Call) (r : Result A) (w w' : World) (a : A) :
  call c r w = (Ok a, w') -> r = Ok a /\ w' = record w [EvCall c].
Proof.
  unfold call, mbind, M_bind, emit, lift; cbn. by intros [= -> <-].
Qed.

Lemma info_emits (cfg : LoggingConfig) (msg : LogMsg) (w : World) :
  logging w = Some cfg -> (levelno (level cfg) <=? levelno INFO) = true ->
  info msg w = (Ok tt, record w [EvLog cfg msg]).
Proof. intros Hl Hlev. unfold info. by rewrite Hl, Hlev. Qed.

Lemma save_ok (s : ScriptModule) (p : string) (w w' : World) :
  save s p w = (Ok tt, w') ->
  save_error s p = None /\ w' = record w [EvCall (CSave s p); EvWrite p s].
Proof.
  unfold save, mbind, M_bind, emit, raise; cbn.
  destruct (save_error s p); [discriminate|].
  intros [= <-]. split; [done|]. unfold record. cbn. by rewrite <- app_assoc.
Qed.

Lemma artifact_ok (st : Stage Wav2Vec2Model) (optimize : bool) (a : PyVal)
    (name : string) (finish : ScriptModule -> string -> M unit) (w w' : World) :
  (scripted ← call (CScript st) (jit_script st);
   scripted ← (if optimize
               then call (COptimize scripted) (optimize_for_mobile scripted)
               else mret scripted);
   path ← call (CJoin a name) (os_path_join a name);
   finish scripted path) w = (Ok tt, w') ->
  exists out s0 s,
    a = VStr out
    /\ jit_script st = Ok s0
    /\ (if optimize then optimize_for_mobile s0 = Ok s else s = s0)
    /\ finish s (posix_join out name)
         (record w ([EvCall (CScript st)]
                    ++ (if optimize then [EvCall (COptimize s0)] else [])
                    ++ [EvCall (CJoin (VStr out) name)]))
       = (Ok tt, w').
Proof.
  intros H.
  apply bind_ok in H as (s0 & w1 & [Hs0 ->]%call_ok & H).
  apply bind_ok in H as (s & w2 & Hopt & H).
  apply bind_ok in H as (path & w3 & [Hpath ->]%call_ok & H).
  destruct a as [|b|out|ls]; try discriminate. injection Hpath as <-.
  exists out, s0, s. split; [done|]. split; [done|].
  destruct optimize.
  - apply call_ok in Hopt as [Hs ->]. split; [done|].
    by rewrite !record_record in H.
  - injection Hopt as -> <-. split; [done|].
    by rewrite !record_record in H.
Qed.

(** The trace of a successful export. *)
Lemma export_ok (l : Loader) (enc : Encoder Wav2Vec2Model) (d : Decoder)
    (args : argparse.Namespace) (w w' : World) :
  _export l enc d args w = (Ok tt, w') ->
  exists out sl sd se0 se,
    argparse.output_path args = VStr out
    /\ jit_script (StLoader l) = Ok sl
    /\ jit_script (StDecoder d) = Ok sd
    /\ jit_script (StEncoder enc) = Ok se0
    /\ (if truthy (argparse.optimize_for_mobile args)
        then optimize_for_mobile se0 = Ok se else se = se0)
    /\ w' = record w
         ([EvCall (CScript (StLoader l));
           EvCall (CJoin (VStr out) "loader.zip");
           EvCall (CSave sl (posix_join out "loader.zip"));
           EvWrite (posix_join out "loader.zip") sl;
           EvCall (CScript (StDecoder d));
           EvCall (CJoin (VStr out) "decoder.zip");
           EvCall (CSave sd (posix_join out "decoder.zip"));
           EvWrite (posix_join out "decoder.zip") sd;
           EvCall (CScript (StEncoder enc))]
          ++ (if truthy (argparse.optimize_for_mobile args)
              then [EvCall (COptimize se0)] else [])
          ++ [EvCall (CJoin (VStr out) "encoder.zip");
              EvCall (CSave se (posix_join out "encoder.zip"));
              EvWrite (posix_join out "encoder.zip") se]).
Proof.
  unfold _export. intros H.
  apply (artifact_ok (StLoader l) false) in H
    as (out & sl0 & sl & Hout & Hsl & -> & H).
  apply bind_ok in H as ([] & w1 & [_ ->]%save_ok & H).
  rewrite Hout in H.
  apply (artifact_ok (StDecoder d) false) in H
    as (out' & sd0 & sd & [= <-] & Hsd & -> & H).
  apply bind_ok in H as ([] & w2 & [_ ->]%save_ok & H).
  apply (artifact_ok (StEncoder enc)) in H
    as (out' & se0 & se & [= <-] & Hse0 & Hse & H).
  apply save_ok in H as [_ ->].
  exists out, sl0, sd0, se0, se. repeat (split; [done|]).
  rewrite !record_record. f_equal.
  destruct (truthy (argparse.optimize_for_mobile args)); reflexivity.
Qed.

(** The trace of a successful self-test. *)
Lemma self_test_ok (l : Loader) (enc : Encoder Wav2Vec2Model) (d : Decoder)
    (test_file : PyVal) (cfg : LoggingConfig) (w w' : World) :
  logging w = Some cfg -> (levelno (level cfg) <=? levelno INFO) = true ->
  _self_test l enc d test_file w = (Ok tt, w') ->
  exists path waveform emission transcript,
    test_file = VStr path
    /\ Loader_forward path = Ok waveform
    /\ Encoder_forward enc waveform = Ok emission
    /\ Decoder_forward d emission = Ok transcript
    /\ w' = record w
         [EvLog cfg (MsgFormat "Testing with %s" test_file);
          EvCall (CLoader l test_file);
          EvCall (CEncoder enc waveform);
          EvCall (CDecoder d emission);
          EvLog cfg (MsgText transcript)].
Proof.
  intros Hl Hlev. unfold _self_test. intros H.
  apply bind_ok in H as ([] & w1 & H1 & H).
  rewrite (info_emits cfg) in H1 by done. injection H1 as <-.
  apply bind_ok in H as (waveform & w2 & [Hw ->]%call_ok & H).
  apply bind_ok in H as (emission & w3 & [He ->]%call_ok & H).
  apply bind_ok in H as (transcript & w4 & [Ht ->]%call_ok & H).
  rewrite (info_emits cfg) in H by done. injection H as <-.
  destruct test_file as [|b|path|ls]; try discriminate.
  exists path, waveform, emission, transcript. repeat (split; [done|]).
  by rewrite !record_record.
Qed.

(** A phase whose plan has no write leaves the artifacts as they are, and
    so does it for the calls of a step that is not in its plan. *)
Lemma follows_no_write {A} (p : list Obs) (V : A -> Prop) (m : M A) (w : World) :
  follows p V m -> omap write_of p = [] ->
  exists tr, events (m w).2 = events w ++ tr /\ artifacts tr = []
             /\ observations tr `prefix_of` p.
Proof.
  intros Hm Hp. destruct (Hm w) as (tr & Hev & Hpre & _).
  exists tr. split; [done|]. split; [|done].
  apply (omap_prefix write_of) in Hpre. rewrite Hp in Hpre.
  apply prefix_nil_inv in Hpre. rewrite <- artifacts_observed in Hpre.
  by destruct (artifacts tr).
Qed.

Lemma bind_logging {A B} (m : M A) (f : A -> M B) :
  (forall w, logging (m w).2 = logging w) ->
  (forall a w, logging (f a w).2 = logging w) ->
  forall w, logging ((m ≫= f) w).2 = logging w.
Proof.
  intros Hm Hf w. unfold mbind, M_bind. specialize (Hm w).
  destruct (m w) as [[a|e] w1]; cbn in *; [|done].
  by rewrite Hf.
Qed.

Lemma call_logging {A} (c : Call) (r : Result A) (w : World) :
  logging (call c r w).2 = logging w.
Proof. done. Qed.

Lemma info_logging (msg : LogMsg) (w : World) :
  logging (info msg w).2 = logging w.
Proof.
  unfold info. destruct (logging w) as [cfg|] eqn:Hl; [|done].
  by destruct (_ <=? _).
Qed.

Lemma assemble_logging (args : argparse.Namespace) (w : World) :
  logging (_assemble args w).2 = logging w.
Proof.
  revert w. unfold _assemble.
  apply bind_logging; [apply call_logging|]. intros model.
  apply bind_logging; [apply info_logging|]. intros _.
  destruct (truthy (argparse.quantize args)); [|done].
  apply bind_logging; [apply info_logging|]. intros _.
  apply bind_logging; [apply call_logging|]. intros model'.
  apply bind_logging; [apply call_logging|]. intros enc.
  apply bind_logging; [apply info_logging|]. by intros _.
Qed.

Lemma info_level (debug : PyVal) :
  (levelno (level (logging_config debug)) <=? levelno INFO) = true.
Proof. unfold logging_config. by destruct (truthy debug). Qed.

Lemma optimized_app (tr1 tr2 : list Event) :
  optimized (tr1 ++ tr2) = optimized tr1 ++ optimized tr2.
Proof. unfold optimized. by rewrite calls_app, omap_app. Qed.

Lemma optimized_unobserved (tr : list Event) :
  OStep SOptimize ∉ observations tr -> optimized tr = [].
Proof.
  unfold optimized, calls, observations.
  induction tr as [|ev tr IH]; [done|].
  destruct ev as [| | |c|]; cbn; intros Hn; try (by apply IH).
  - apply not_elem_of_cons in Hn as [Hc Hn].
    destruct c; cbn in *; try (by apply IH). done.
  - apply not_elem_of_cons in Hn as [_ Hn]. by apply IH.
Qed.

(** The shape of a successful run after parsing: the assembly phase, which
    writes and optimizes nothing, then the self-test if asked for, then the
    export. *)
Lemma build_ok (args : argparse.Namespace) (w' : World) :
  _build args initial_world = (Ok tt, w') ->
  exists enc pre test_tr out sl sd se0 se,
    artifacts pre = [] /\ optimized pre = []
    /\ (if truthy (argparse.test_file args)
        then exists path waveform emission transcript,
            argparse.test_file args = VStr path
            /\ Loader_forward path = Ok waveform
            /\ Encoder_forward enc waveform = Ok emission
            /\ Decoder_forward _get_decoder emission = Ok transcript
            /\ test_tr
               = [EvLog (logging_config (argparse.debug args))
                    (MsgFormat "Testing with %s" (argparse.test_file args));
                  EvCall (CLoader mkLoader (argparse.test_file args));
                  EvCall (CEncoder enc waveform);
                  EvCall (CDecoder _get_decoder emission);
                  EvLog (logging_config (argparse.debug args))
                    (MsgText transcript)]
        else test_tr = [])
    /\ argparse.output_path args = VStr out
    /\ jit_script (StLoader mkLoader) = Ok sl
    /\ jit_script (StDecoder _get_decoder) = Ok sd
    /\ jit_script (StEncoder enc) = Ok se0
    /\ (if truthy (argparse.optimize_for_mobile args)
        then optimize_for_mobile se0 = Ok se else se = se0)
    /\ events w'
       = pre ++ test_tr
         ++ ([EvCall (CScript (StLoader mkLoader));
              EvCall (CJoin (VStr out) "loader.zip");
              EvCall (CSave sl (posix_join out "loader.zip"));
              EvWrite (posix_join out "loader.zip") sl;
              EvCall (CScript (StDecoder _get_decoder));
              EvCall (CJoin (VStr out) "decoder.zip");
              EvCall (CSave sd (posix_join out "decoder.zip"));
              EvWrite (posix_join out "decoder.zip") sd;
              EvCall (CScript (StEncoder enc))]
             ++ (if truthy (argparse.optimize_for_mobile args)
                 then [EvCall (COptimize se0)] else [])
             ++ [EvCall (CJoin (VStr out) "encoder.zip");
                 EvCall (CSave se (posix_join out "encoder.zip"));
                 EvWrite (posix_join out "encoder.zip") se]).
Proof.
  unfold _build. intros H.
  apply bind_ok in H as ([] & w1 & H1 & H).
  injection H1 as <-. cbn [logging initial_world events] in H.
  set (cfg := logging_config (argparse.debug args)) in *.
  set (w1 := {| logging := Some cfg; events := [] |}) in *.
  apply bind_ok in H as (enc & w2 & Hasm & H).
  assert (Hlog : logging w2 = Some cfg).
  { pose proof (assemble_logging args w1) as Hl. by rewrite Hasm in Hl. }
  destruct (follows_no_write _ _ _ w1 (assemble_follows args))
    as (pre & Hev & Hart & Hobs).
  { by destruct (truthy (argparse.quantize args)). }
  rewrite Hasm in Hev. cbn in Hev.
  assert (Hopt : optimized pre = []).
  { apply optimized_unobserved. intros Hin.
    destruct Hobs as [k Hk]. assert (Hin' : OStep SOptimize ∈ observations pre ++ k)
      by (apply elem_of_app; by left).
    rewrite <- Hk in Hin'.
    destruct (truthy (argparse.quantize args)); cbn in Hin';
      repeat (apply elem_of_cons in Hin' as [[=]|Hin']);
      by apply elem_of_nil in Hin'. }
  apply bind_ok in H as ([] & w3 & Htest & H).
  apply export_ok in H as (out & sl & sd & se0 & se & Hout & Hsl & Hsd & Hse0 & Hse & ->).
  assert (Htr : exists test_tr,
    w3 = record w2 test_tr
    /\ (if truthy (argparse.test_file args)
        then exists path waveform emission transcript,
            argparse.test_file args = VStr path
            /\ Loader_forward path = Ok waveform
            /\ Encoder_forward enc waveform = Ok emission
            /\ Decoder_forward _get_decoder emission = Ok transcript
            /\ test_tr
               = [EvLog cfg (MsgFormat "Testing with %s" (argparse.test_file args));
                  EvCall (CLoader mkLoader (argparse.test_file args));
                  EvCall (CEncoder enc waveform);
                  EvCall (CDecoder _get_decoder emission);
                  EvLog cfg (MsgText transcript)]
        else test_tr = [])).
  { destruct (truthy (argparse.test_file args)).
    - apply (self_test_ok _ _ _ _ cfg) in Htest
        as (path & wf & em & t & Hp & Hl & He & Hd & ->);
        [|done|apply info_level].
      eexists. split; [done|]. by exists path, wf, em, t.
    - injection Htest as <-. exists []. split; [|done].
      unfold record. rewrite app_nil_r. by destruct w2. }
  destruct Htr as (test_tr & -> & Htest_tr).
  exists enc, pre, test_tr, out, sl, sd, se0, se.
  repeat (split; [done|]).
  cbn [record events]. by rewrite Hev, <- !app_assoc.
Qed.

End Success.

Lemma successful_run_parsed `{X : Externals} (argv : list string) :
  result_of argv = Ok tt ->
  exists args, argparse.parse_args argv = argparse.Parsed args.
Proof.
  unfold result_of, run, _main, _parse_args, mbind, M_bind.
  destruct (argparse.parse_args argv) as [ns| |msg|e]; cbn; [eauto|done..].
Qed.

Lemma run_build `{X : Externals} (argv : list string) (args : argparse.Namespace) :
  argparse.parse_args argv = argparse.Parsed args ->
  result_of argv = Ok tt ->
  _build args initial_world = (Ok tt, (run argv).2).
Proof.
  intros Hp Hr. unfold result_of in Hr. rewrite (run_parsed _ _ Hp) in *.
  destruct (_build args initial_world) as [r w]. cbn in Hr. by subst r.
Qed.

(** C4: a successful run writes exactly three files, [loader.zip],
    [decoder.zip] and [encoder.zip] joined to the output directory, in this
    order and under three different paths; each holds the scripted form of
    one stage wrapper; [optimize_for_mobile] is called on the scripted
    encoder alone, when the flag is set, and the encoder artifact is then
    its result. *)
Theorem successful_run_writes_three_artifacts (X : Externals)
    (argv : list string) :
  result_of argv = Ok tt ->
  exists args out enc sl sd se0 se,
    argparse.parse_args argv = argparse.Parsed args
    /\ argparse.output_path args = VStr out
    /\ jit_script (StLoader mkLoader) = Ok sl
    /\ jit_script (StDecoder _get_decoder) = Ok sd
    /\ jit_script (StEncoder enc) = Ok se0
    /\ (if truthy (argparse.optimize_for_mobile args)
        then optimize_for_mobile se0 = Ok se else se = se0)
    /\ artifacts (trace_of argv)
       = [(posix_join out "loader.zip", sl);
          (posix_join out "decoder.zip", sd);
          (posix_join out "encoder.zip", se)]
    /\ NoDup (map fst (artifacts (trace_of argv)))
    /\ optimized (trace_of argv)
       = (if truthy (argparse.optimize_for_mobile args) then [se0] else []).
Proof.
  intros Hr. destruct (successful_run_parsed argv Hr) as [args Hp].
  pose proof (run_build argv args Hp Hr) as Hb.
  apply build_ok in Hb
    as (enc & pre & test_tr & out & sl & sd & se0 & se
        & Hart & Hopt & Htest & Hout & Hsl & Hsd & Hse0 & Hse & Hev).
  exists args, out, enc, sl, sd, se0, se. repeat (split; [done|]).
  assert (Htest' : artifacts test_tr = [] /\ optimized test_tr = []).
  { destruct (truthy (argparse.test_file args)).
    - by destruct Htest as (? & ? & ? & ? & _ & _ & _ & _ & ->).
    - by subst test_tr. }
  destruct Htest' as [Hart' Hopt'].
  assert (Ha : artifacts (trace_of argv)
               = [(posix_join out "loader.zip", sl);
                  (posix_join out "decoder.zip", sd);
                  (posix_join out "encoder.zip", se)]).
  { unfold trace_of. rewrite Hev, !artifacts_app, Hart, Hart'.
    by destruct (truthy (argparse.optimize_for_mobile args)). }
  split; [done|]. split.
  - rewrite Ha. apply artifact_paths_distinct.
  - unfold trace_of. rewrite Hev, !optimized_app, Hopt, Hopt'.
    by destruct (truthy (argparse.optimize_for_mobile args)).
Qed.

Lemma successful_run_writes_three_artifacts_witness :
  @result_of Demo.externals
    ["--model-file"; "model.pt"; "--output-path"; "out"; "--optimize-for-mobile"]
  = Ok tt
  /\ exists sl sd se,
       artifacts (@trace_of Demo.externals
         ["--model-file"; "model.pt"; "--output-path"; "out";
          "--optimize-for-mobile"])
       = [("out/loader.zip", sl); ("out/decoder.zip", sd); ("out/encoder.zip", se)].
Proof.
  split; [reflexivity|].
  destruct (successful_run_writes_three_artifacts Demo.externals
              ["--model-file"; "model.pt"; "--output-path"; "out";
               "--optimize-for-mobile"] eq_refl)
    as (args & out & enc & sl & sd & se0 & se & Hp & Hout & _ & _ & _ & _ & Ha & _).
  injection Hp as <-. injection Hout as <-.
  exists sl, sd, se. exact Ha.
Defined.

(** C7 (as amended): in a successful run whose test file is a non-empty
    path, the loader, the encoder and the decoder are called in turn on the
    test file, the waveform and the emission, and the transcript the decoder
    returns, empty or not, is logged; no artifact is written before that,
    the three artifacts are written after it. *)
Theorem self_test_logged_before_artifacts (X : Externals) (argv : list string)
    (args : argparse.Namespace) (path : string) :
  argparse.parse_args argv = argparse.Parsed args ->
  argparse.test_file args = VStr path ->
  path <> EmptyString ->
  result_of argv = Ok tt ->
  exists enc waveform emission t pre post,
    Loader_forward path = Ok waveform
    /\ Encoder_forward enc waveform = Ok emission
    /\ Decoder_forward _get_decoder emission = Ok t
    /\ trace_of argv
       = pre
         ++ [EvCall (CLoader mkLoader (VStr path));
             EvCall (CEncoder enc waveform);
             EvCall (CDecoder _get_decoder emission);
             EvLog (logging_config (argparse.debug args)) (MsgText t)]
         ++ post
    /\ artifacts pre = []
    /\ map fst (artifacts post) = artifact_paths args
    /\ length (artifacts post) = 3%nat
    /\ transcript_logged_first (trace_of argv) t.
Proof.
  intros Hp Htf Hne Hr.
  pose proof (run_build argv args Hp Hr) as Hb.
  apply build_ok in Hb
    as (enc & pre & test_tr & out & sl & sd & se0 & se
        & Hart & Hopt & Htest & Hout & Hsl & Hsd & Hse0 & Hse & Hev).
  rewrite Htf in Htest. cbn [truthy] in Htest.
  rewrite bool_decide_eq_false_2 in Htest by done. cbn [negb] in Htest.
  destruct Htest as (path' & wf & em & t & [= <-] & Hl & He & Hd & ->).
  set (cfg := logging_config (argparse.debug args)) in *.
  match type of Hev with _ = _ ++ _ ++ ?p => set (post := p) in Hev end.
  exists enc, wf, em, t,
    (pre ++ [EvLog cfg (MsgFormat "Testing with %s" (VStr path))]), post.
  repeat (split; [done|]).
  assert (Hpost : artifacts post
                  = [(posix_join out "loader.zip", sl);
                     (posix_join out "decoder.zip", sd);
                     (posix_join out "encoder.zip", se)]).
  { unfold post. by destruct (truthy (argparse.optimize_for_mobile args)). }
  split; [|split; [|split; [|split]]].
  - unfold trace_of. rewrite Hev, <- !app_assoc. reflexivity.
  - by rewrite artifacts_app, Hart.
  - rewrite Hpost. unfold artifact_paths. by rewrite Hout.
  - by rewrite Hpost.
  - exists cfg,
      (pre ++ [EvLog cfg (MsgFormat "Testing with %s" (VStr path));
               EvCall (CLoader mkLoader (VStr path));
               EvCall (CEncoder enc wf);
               EvCall (CDecoder _get_decoder em)]), post.
    split.
    + unfold trace_of. rewrite Hev, <- !app_assoc. reflexivity.
    + by rewrite artifacts_app, Hart.
Qed.

Lemma self_test_logged_before_artifacts_witness :
  @result_of Demo.externals
    ["--model-file"; "model.pt"; "--output-path"; "out";
     "--test-file"; "speech16k.wav"] = Ok tt
  /\ exists t,
       @Decoder_forward Demo.externals _get_decoder ([11; 10; 4; 7], 16000) = Ok t
       /\ transcript_logged_first
            (@trace_of Demo.externals
               ["--model-file"; "model.pt"; "--output-path"; "out";
                "--test-file"; "speech16k.wav"]) t.
Proof.
  split; [reflexivity|].
  destruct (self_test_logged_before_artifacts Demo.externals
              ["--model-file"; "model.pt"; "--output-path"; "out";
               "--test-file"; "speech16k.wav"] _ "speech16k.wav"
              eq_refl eq_refl ltac:(discriminate) eq_refl)
    as (enc & wf & em & t & pre & post & Hl & He & Hd & _ & _ & _ & _ & Hlog).
  injection Hl as <-. injection He as <-.
  exists t. by split.
Defined.

(** The claim as stated fails on a silent test file: the run succeeds and
    the transcript it logs is the empty string. *)
Lemma silent_test_file_logs_empty_transcript :
  ~ @nonempty_transcript_logged Demo.externals
      ["--model-file"; "model.pt"; "--output-path"; "out";
       "--test-file"; "silence.wav"].
Proof.
  intros H.
  destruct (H _ "silence.wav" eq_refl eq_refl eq_refl)
    as (wf & em & t & _ & _ & Hne & (cfg & pre & post & Htr & _)).
  assert (Hin : MsgText t
                ∈ omap logged
                    (@trace_of Demo.externals
                       ["--model-file"; "model.pt"; "--output-path"; "out";
                        "--test-file"; "silence.wav"])).
  { rewrite Htr, omap_app. apply elem_of_app. right. left. }
  assert (Hlog : omap logged
                   (@trace_of Demo.externals
                      ["--model-file"; "model.pt"; "--output-path"; "out";
                       "--test-file"; "silence.wav"])
                 = [@MsgEncoder Demo.externals (mkEncoder true);
                    MsgFormat "Testing with %s" (VStr "silence.wav");
                    MsgText EmptyString])
    by (vm_compute; reflexivity).
  rewrite Hlog in Hin.
  apply elem_of_cons in Hin as [Hin|Hin]; [discriminate Hin|].
  apply elem_of_cons in Hin as [Hin|Hin]; [discriminate Hin|].
  apply elem_of_cons in Hin as [Hin|Hin].
  - injection Hin as Ht. contradiction.
  - by apply elem_of_nil in Hin.
Qed.

(** What the run on the silent test file logs. *)
Lemma silent_test_file_run :
  @result_of Demo.externals
    ["--model-file"; "model.pt"; "--output-path"; "out";
     "--test-file"; "silence.wav"] = Ok tt
  /\ @Decoder_forward Demo.externals _get_decoder ([0; 0; 0], 16000)
     = Ok EmptyString
  /\ omap logged (@trace_of Demo.externals
       ["--model-file"; "model.pt"; "--output-path"; "out";
        "--test-file"; "silence.wav"])
     = [@MsgEncoder Demo.externals (mkEncoder true);
        MsgFormat "Testing with %s" (VStr "silence.wav");
        MsgText EmptyString].
Proof. repeat split; reflexivity. Qed.

(** With an empty test-file path the self-test is skipped altogether. *)
Lemma empty_test_file_skips_self_test :
  argparse.test_file
    <$> (match argparse.parse_args
                 ["--model-file"; "model.pt"; "--output-path"; "out";
                  "--test-file="] with
         | argparse.Parsed ns => Some ns
         | _ => None
         end) = Some (VStr EmptyString)
  /\ @result_of Demo.externals
       ["--model-file"; "model.pt"; "--output-path"; "out"; "--test-file="]
     = Ok tt
  /\ omap logged (@trace_of Demo.externals
       ["--model-file"; "model.pt"; "--output-path"; "out"; "--test-file="])
     = [@MsgEncoder Demo.externals (mkEncoder true)].
Proof. repeat split; reflexivity. Qed.

(** ** The namespace of an accepted command line *)

Module argparse_more_facts.
Import argparse argparse_facts argparse_more.

(** X1: an option that no token of an accepted command line names keeps its
    default: [None] for a [store] option, [False] for a flag. *)
Theorem parse_args_keeps_default (a : Action) (argv : list string) (ns : Namespace) :
  a <> Help ->
  Forall (fun tok => mentions a tok = false) argv ->
  parse_args argv = Parsed ns ->
  getattr a ns = default a.
Proof.
  intros Ha Habs. unfold parse_args, parse_known_args.
  destruct (classify argv) as [items| | |] eqn:Hc;
    cbn [mbind Outcome_bind]; try discriminate.
  destruct (consume items initial_state) as [st| | |] eqn:Hs;
    cbn [mbind Outcome_bind]; try discriminate.
  assert (Hwf : Forall (item_wf (fun b => b <> a)) items).
  { eapply classify_wf; [|done]. intros tok b Hin Hm ->.
    rewrite Forall_forall in Habs. specialize (Habs tok Hin). congruence. }
  apply (consume_untouched a (length items)) in Hs as [_ Hget];
    [|done|done|done].
  destruct (omap _ _actions); cbn [mbind Outcome_bind fst snd];
    [|discriminate].
  destruct (extras st); [|discriminate].
  intros Heq. apply Parsed_inj in Heq. subst ns. rewrite Hget.
  by destruct a.
Qed.

Lemma parse_args_keeps_default_witness :
  Forall (fun tok => mentions Quantize tok = false) ["--model-file"; "m.pt"; "--debug"]
  /\ (forall ns, parse_args ["--model-file"; "m.pt"; "--debug"] = Parsed ns ->
                 quantize ns = VBool false).
Proof.
  assert (H : Forall (fun tok => mentions Quantize tok = false)
                ["--model-file"; "m.pt"; "--debug"]) by (repeat constructor).
  split; [exact H|]. intros ns Hns.
  exact (parse_args_keeps_default Quantize _ ns ltac:(discriminate) H Hns).
Defined.

Lemma getattr_setattr_eq (a : Action) (v : PyVal) (ns : Namespace) :
  a <> Help -> getattr a (setattr a v ns) = v.
Proof. by destruct a. Qed.

Lemma get_values_stored (a : Action) (x : string) :
  nargs a = 1%nat ->
  _get_values a [x] <> VNone /\ stored (_get_values a [x]).
Proof.
  intros Hn. unfold _get_values, stored. rewrite Hn. cbn [remove_first].
  case_bool_decide; [split; [done|]; auto | split; [done|]; eauto].
Qed.

Lemma take_action_ok (t : Action * list string * string) (st st' : PState) :
  tuple_arity t -> state_ok st ->
  take_action t st = Parsed st' -> state_ok st'.
Proof.
  destruct t as [[b args] os]. unfold tuple_arity, take_action. cbn [fst snd].
  intros Har [Hty Hseen].
  destruct (kind b) eqn:Hk; [discriminate| |]; intros Heq%Parsed_inj; subst st';
    unfold state_ok; cbn [namespace seen_actions].
  - assert (Hn : nargs b = 1%nat) by (unfold nargs; by rewrite Hk).
    assert (Hb : b <> Help) by (intros ->; discriminate).
    rewrite Hn in Har. destruct args as [|x [|? ?]]; try discriminate.
    destruct (get_values_stored b x Hn) as [Hne Hst].
    split.
    + intros a. destruct (decide (a = b)) as [->|Hab].
      * rewrite Hk, getattr_setattr_eq by done. exact Hst.
      * rewrite getattr_setattr_ne by done. apply Hty.
    + intros a Hin Hka. destruct (decide (a = b)) as [->|Hab].
      * by rewrite getattr_setattr_eq.
      * rewrite getattr_setattr_ne by done. apply Hseen; [|done].
        apply elem_of_cons in Hin as [?|?]; [done|done].
  - assert (Hb : b <> Help) by (intros ->; discriminate).
    split.
    + intros a. destruct (decide (a = b)) as [->|Hab].
      * rewrite Hk, getattr_setattr_eq by done. eauto.
      * rewrite getattr_setattr_ne by done. apply Hty.
    + intros a Hin Hka. destruct (decide (a = b)) as [->|Hab]; [congruence|].
      rewrite getattr_setattr_ne by done. apply Hseen; [|done].
      apply elem_of_cons in Hin as [?|?]; [done|done].
Qed.

Lemma take_actions_ok (ts : list (Action * list string * string)) :
  Forall tuple_arity ts ->
  forall st st', state_ok st -> take_actions ts st = Parsed st' -> state_ok st'.
Proof.
  induction 1 as [|t ts Ht _ IH]; intros st st' Hst; cbn [take_actions].
  { by intros <-%Parsed_inj. }
  destruct (take_action t st) as [st1| | |] eqn:H1; cbn [mbind Outcome_bind];
    try discriminate.
  apply IH. by eapply take_action_ok.
Qed.

Lemma match_following_arity (action : Action) (os : string)
    (rest : list (string * Pattern)) (acc ts : list (Action * list string * string))
    (n : nat) :
  Forall tuple_arity acc ->
  match_following action os rest acc = Parsed (ts, n) -> Forall tuple_arity ts.
Proof.
  intros Hacc. unfold match_following, _match_argument.
  destruct (nargs action) as [|k] eqn:Hn; cbn [mbind Outcome_bind].
  - intros [= <- <-]. apply Forall_app. split; [done|].
    constructor; [|done]. unfold tuple_arity. cbn. by rewrite Hn.
  - destruct rest as [|[v [| |t]] rest]; cbn [map snd mbind Outcome_bind];
      try discriminate.
    intros [= <- <-]. apply Forall_app. split; [done|].
    constructor; [|done]. unfold tuple_arity. cbn.
    rewrite Hn. unfold nargs in Hn. destruct (kind action); congruence.
Qed.

Lemma match_explicit_arity (e : string) :
  forall (action : Action) (os : string) (rest : list (string * Pattern))
         (acc ts : list (Action * list string * string)) (n : nat),
    Forall tuple_arity acc ->
    match_explicit action os e rest acc = Parsed (ts, n) -> Forall tuple_arity ts.
Proof.
  induction e as [|c e IH]; intros action os rest acc ts n Hacc;
    cbn [match_explicit].
  - destruct (_ && _); [discriminate|].
    destruct (nargs action =? 1)%nat eqn:Hn; [|discriminate].
    apply Nat.eqb_eq in Hn.
    intros [= <- <-]. apply Forall_app. split; [done|].
    constructor; [|done]. unfold tuple_arity. cbn. by rewrite Hn.
  - destruct (_ && _) eqn:Hc.
    + apply andb_true_iff in Hc as [Hn%Nat.eqb_eq _].
      assert (Hacc' : Forall tuple_arity (acc ++ [(action, [], os)])).
      { apply Forall_app. split; [done|]. constructor; [|done].
        unfold tuple_arity. cbn. by rewrite Hn. }
      destruct (assoc _ _) as [action'|]; [|discriminate].
      destruct e as [|c' e'].
      * by apply match_following_arity.
      * by apply IH.
    + destruct (nargs action =? 1)%nat eqn:Hn; [|discriminate].
      apply Nat.eqb_eq in Hn.
      intros [= <- <-]. apply Forall_app. split; [done|].
      constructor; [|done]. unfold tuple_arity. cbn. by rewrite Hn.
Qed.

Lemma consume_optional_arity (a : Action) (os : string) (e : option string)
    (rest : list (string * Pattern)) (ts : list (Action * list string * string))
    (n : nat) :
  consume_optional (a, os, e) rest = Parsed (ts, n) -> Forall tuple_arity ts.
Proof.
  unfold consume_optional. destruct e as [e|].
  - by apply match_explicit_arity.
  - by apply match_following_arity.
Qed.

Lemma add_extra_ok (s : string) (st : PState) : state_ok st -> state_ok (add_extra s st).
Proof. by destruct st. Qed.

Lemma consume_ok (n : nat) :
  forall (items : list (string * Pattern)) (st st' : PState),
    (length items <= n)%nat -> state_ok st ->
    consume items st = Parsed st' -> state_ok st'.
Proof.
  induction n as [|n IH]; intros items st st' Hlen Hst.
  { destruct items; [|cbn in Hlen; lia]. cbn. by intros [= <-]. }
  destruct items as [|[s p] rest]; [cbn; by intros [= <-]|].
  cbn in Hlen.
  assert (Hskip : consume rest (add_extra s st) = Parsed st' -> state_ok st').
  { apply IH; [lia | by apply add_extra_ok]. }
  destruct p as [| |[[[b|] os] e]]; cbn [consume]; try done.
  destruct (consume_optional (b, os, e) rest) as [[ts k]| | |] eqn:Hco;
    cbn [mbind Outcome_bind fst snd]; try discriminate.
  apply consume_optional_arity in Hco.
  destruct (take_actions ts st) as [st1| | |] eqn:Hta;
    cbn [mbind Outcome_bind]; try discriminate.
  apply (take_actions_ok ts Hco st st1 Hst) in Hta.
  destruct k as [|k]; [apply IH; [lia | done]|].
  destruct rest as [|it rest']; [apply IH; [cbn; lia | done]|].
  apply IH; [cbn in Hlen; lia | done].
Qed.

Lemma initial_state_ok : state_ok initial_state.
Proof.
  split.
  - intros a. destruct a; cbn; unfold stored; eauto.
  - intros a Hin. by apply elem_of_nil in Hin.
Qed.

(** X2: whenever the parser returns a namespace, [model_file] has a value (a
    string, or the empty list for [--model-file=--]), every other [store]
    attribute is [None], a string or that empty list, and the three flags
    are booleans. *)
Theorem parse_args_well_typed (argv : list string) (ns : Namespace) :
  parse_args argv = Parsed ns ->
  well_typed ns
  /\ ((exists s, model_file ns = VStr s) \/ model_file ns = VList []).
Proof.
  unfold parse_args, parse_known_args.
  destruct (classify argv) as [items| | |] eqn:Hc;
    cbn [mbind Outcome_bind]; try discriminate.
  destruct (consume items initial_state) as [st| | |] eqn:Hs;
    cbn [mbind Outcome_bind]; try discriminate.
  apply (consume_ok (length items)) in Hs as [Hty Hseen];
    [|done|apply initial_state_ok].
  destruct (decide (ModelFile ∈ seen_actions st)) as [Hin|Hnot].
  - rewrite (required_present st Hin). cbn [mbind Outcome_bind fst snd].
    destruct (extras st); [|discriminate].
    intros <-%Parsed_inj. split; [done|].
    specialize (Hseen ModelFile Hin eq_refl). specialize (Hty ModelFile).
    cbn in Hty, Hseen. destruct Hty as [?|[?|?]]; [done|by left|by right].
  - rewrite (required_missing st Hnot). discriminate.
Qed.

Lemma parse_args_well_typed_witness :
  well_typed
    {| model_file := VList []; dict_dir := VNone; output_path := VNone;
       test_file := VNone; debug := VBool false; quantize := VBool true;
       optimize_for_mobile := VBool false |}
  /\ ((exists s, VList [] = VStr s) \/ VList [] = VList []).
Proof.
  exact (parse_args_well_typed ["--model-file=--"; "--quantize"]
           {| model_file := VList []; dict_dir := VNone; output_path := VNone;
              test_file := VNone; debug := VBool false; quantize := VBool true;
              optimize_for_mobile := VBool false |} eq_refl).
Defined.

End argparse_more_facts.

(** ** Options with and without their value *)

Module argparse_forms_facts.
Import argparse argparse_facts argparse_forms.

Lemma outcome_bind_ret {A} (r : Outcome A) : (x ← r; Parsed x) = r.
Proof. by destruct r. Qed.

Lemma classify_canonical_app (cs : list CliArg) (rest : list string) :
  Forall canonical cs ->
  classify (command_line cs ++ rest)
  = (r ← classify rest; Parsed (flat_map render_items cs ++ r)).
Proof.
  induction 1 as [|c cs Hc _ IH].
  { cbn [command_line flat_map app]. by rewrite outcome_bind_ret. }
  unfold command_line in *. cbn [flat_map].
  destruct c as [a v|a]; cbn [render render_items app classify].
  - destruct Hc as [_ Hv].
    rewrite (bool_decide_eq_false_2 (long_name a = "--")) by (by destruct a).
    rewrite parse_optional_long_name. cbn [mbind Outcome_bind].
    rewrite (bool_decide_eq_false_2 (v = "--")) by (by intros ->).
    rewrite (parse_optional_value v Hv). cbn [mbind Outcome_bind].
    rewrite IH. by destruct (classify rest).
  - rewrite (bool_decide_eq_false_2 (long_name a = "--")) by (by destruct a).
    rewrite parse_optional_long_name. cbn [mbind Outcome_bind].
    rewrite IH. by destruct (classify rest).
Qed.

Lemma after_cons (c : CliArg) (cs : list CliArg) (st : PState) :
  after (c :: cs) st = after cs (after [c] st).
Proof.
  unfold after. cbn [foldl namespace seen_actions extras map rev app].
  by rewrite <- !app_assoc.
Qed.

Lemma consume_canonical_app (cs : list CliArg) (more : list (string * Pattern)) :
  Forall canonical cs ->
  forall st,
    consume (flat_map render_items cs ++ more) st = consume more (after cs st).
Proof.
  induction 1 as [|c cs Hc _ IH]; intros st.
  { cbn [flat_map app]. by destruct st. }
  rewrite after_cons. cbn [flat_map]. rewrite <- app_assoc.
  destruct c as [a v|a]; cbn [render_items app consume].
  - destruct Hc as [Hk Hv].
    assert (Hn : nargs a = 1%nat) by (unfold nargs; by rewrite Hk).
    unfold consume_optional, match_following, _match_argument.
    rewrite Hn. cbn [map snd mbind Outcome_bind firstn fst app take_actions
                     take_action].
    rewrite Hk. unfold _get_values. rewrite Hn. cbn [remove_first].
    rewrite (bool_decide_eq_false_2 (v = "--")) by (by intros ->).
    cbn [mbind Outcome_bind snd]. by rewrite IH.
  - assert (Hn : nargs a = 0%nat) by (unfold nargs; by rewrite Hc).
    unfold consume_optional, match_following, _match_argument.
    rewrite Hn. cbn [map snd mbind Outcome_bind firstn fst app take_actions
                     take_action].
    rewrite Hc. cbn [mbind Outcome_bind snd]. by rewrite IH.
Qed.

Lemma render_items_head (cs : list CliArg) :
  match flat_map render_items cs with
  | (_, PA) :: _ => False
  | _ => True
  end.
Proof. destruct cs as [|[a v|a] cs]; done. Qed.

(** X3: a [store] option that is not followed by a value, because the
    command line ends there or another option follows, is a usage error. *)
Theorem store_option_needs_value (cs cs' : list CliArg) (a : Action) :
  Forall canonical cs -> Forall canonical cs' -> kind a = KStore ->
  parse_args (command_line cs ++ long_name a :: command_line cs')
  = ErrorExit (ExpectedOneArgument a).
Proof.
  intros Hcs Hcs' Hk. unfold parse_args, parse_known_args.
  rewrite (classify_canonical_app cs _ Hcs). cbn [classify].
  rewrite (bool_decide_eq_false_2 (long_name a = "--")) by (by destruct a).
  rewrite parse_optional_long_name, (classify_canonical cs' Hcs').
  cbn [mbind Outcome_bind].
  rewrite (consume_canonical_app cs _ Hcs). cbn [consume].
  assert (Hn : nargs a = 1%nat) by (unfold nargs; by rewrite Hk).
  unfold consume_optional, match_following, _match_argument. rewrite Hn.
  pose proof (render_items_head cs') as Hh.
  by destruct (flat_map render_items cs') as [|[s [| |t]] rest].
Qed.

Lemma store_option_needs_value_witness :
  parse_args (command_line [Given ModelFile "m.pt"] ++
              long_name OutputPath :: command_line [Switch Debug])
  = ErrorExit (ExpectedOneArgument OutputPath).
Proof.
  apply (store_option_needs_value [Given ModelFile "m.pt"] [Switch Debug]
           OutputPath).
  - repeat constructor.
  - repeat constructor.
  - reflexivity.
Defined.

Lemma parse_optional_with_equals (a : Action) (e : string) :
  a <> Help ->
  _parse_optional (with_equals a e) = Parsed (Some (Some a, long_name a, Some e)).
Proof. intros Ha. destruct a; try done; by vm_compute. Qed.

Lemma with_equals_not_separator (a : Action) (e : string) : with_equals a e <> "--".
Proof. by destruct a. Qed.

Lemma match_explicit_long (a : Action) (e : string)
    (rest : list (string * Pattern)) (acc : list (Action * list string * string)) :
  match_explicit a (long_name a) e rest acc
  = if (nargs a =? 1)%nat then Parsed (acc ++ [(a, [e], long_name a)], 0%nat)
    else ErrorExit (IgnoredExplicitArgument a e).
Proof.
  assert (Hl : second_char_is_dash (long_name a) = true) by (by destruct a).
  destruct e; cbn [match_explicit]; rewrite Hl; by rewrite andb_false_r.
Qed.

(** X4: a flag does not take a value: [--flag=anything] is a usage error. *)
Theorem flag_rejects_value (cs cs' : list CliArg) (a : Action) (e : string) :
  Forall canonical cs -> Forall canonical cs' -> kind a = KStoreTrue ->
  parse_args (command_line cs ++ with_equals a e :: command_line cs')
  = ErrorExit (IgnoredExplicitArgument a e).
Proof.
  intros Hcs Hcs' Hk. unfold parse_args, parse_known_args.
  assert (Ha : a <> Help) by (intros ->; discriminate).
  rewrite (classify_canonical_app cs _ Hcs). cbn [classify].
  rewrite (bool_decide_eq_false_2 (with_equals a e = "--"))
    by apply with_equals_not_separator.
  rewrite (parse_optional_with_equals a e Ha), (classify_canonical cs' Hcs').
  cbn [mbind Outcome_bind].
  rewrite (consume_canonical_app cs _ Hcs). cbn [consume].
  unfold consume_optional. rewrite match_explicit_long.
  assert (Hn : nargs a = 0%nat) by (unfold nargs; by rewrite Hk).
  by rewrite Hn.
Qed.

Lemma flag_rejects_value_witness :
  parse_args (command_line [Given ModelFile "m.pt"] ++
              with_equals Quantize "yes" :: command_line [])
  = ErrorExit (IgnoredExplicitArgument Quantize "yes").
Proof.
  apply (flag_rejects_value [Given ModelFile "m.pt"] [] Quantize "yes").
  - repeat constructor.
  - constructor.
  - reflexivity.
Defined.

(** X5: [--option=value] in one token is accepted for every [store] option
    and every value but [--], also a value that starts with a dash; the
    namespace is the one of [--option value] with that value stored. *)
Theorem equals_form_accepts_any_value (cs cs' : list CliArg) (a : Action)
    (v : string) :
  Forall canonical cs -> Forall canonical cs' -> kind a = KStore ->
  v <> "--" ->
  ModelFile ∈ map cli_action (cs ++ Given a v :: cs') ->
  parse_args (command_line cs ++ with_equals a v :: command_line cs')
  = Parsed (namespace_of (cs ++ Given a v :: cs')).
Proof.
  intros Hcs Hcs' Hk Hv Hm. unfold parse_args, parse_known_args.
  assert (Ha : a <> Help) by (intros ->; discriminate).
  rewrite (classify_canonical_app cs _ Hcs). cbn [classify].
  rewrite (bool_decide_eq_false_2 (with_equals a v = "--"))
    by apply with_equals_not_separator.
  rewrite (parse_optional_with_equals a v Ha), (classify_canonical cs' Hcs').
  cbn [mbind Outcome_bind].
  rewrite (consume_canonical_app cs _ Hcs). cbn [consume].
  unfold consume_optional. rewrite match_explicit_long.
  assert (Hn : nargs a = 1%nat) by (unfold nargs; by rewrite Hk).
  rewrite Hn. cbn [Nat.eqb mbind Outcome_bind fst snd app take_actions take_action].
  rewrite Hk. unfold _get_values. rewrite Hn. cbn [remove_first].
  rewrite (bool_decide_eq_false_2 (v = "--")) by done.
  cbn [mbind Outcome_bind].
  rewrite (consume_canonical cs' Hcs').
  cbn [mbind Outcome_bind].
  rewrite required_present.
  - cbn [mbind Outcome_bind fst snd namespace seen_actions extras after
         initial_state]. unfold namespace_of.
    by rewrite foldl_app.
  - cbn [seen_actions after initial_state]. rewrite !app_nil_r.
    rewrite map_app in Hm. cbn [map cli_action] in Hm.
    apply elem_of_app in Hm as [Hm|Hm].
    + apply elem_of_app. right. apply elem_of_cons. right.
      apply list_elem_of_In, in_rev. rewrite rev_involutive.
      by apply list_elem_of_In.
    + apply elem_of_cons in Hm as [->|Hm].
      * apply elem_of_app. right. left.
      * apply elem_of_app. left.
        apply list_elem_of_In, in_rev. rewrite rev_involutive.
        by apply list_elem_of_In.
Qed.

Lemma equals_form_accepts_any_value_witness :
  parse_args (command_line [Switch Debug] ++
              with_equals ModelFile "-odd-name.pt" :: command_line [])
  = Parsed (namespace_of ([Switch Debug] ++ [Given ModelFile "-odd-name.pt"])).
Proof.
  apply (equals_form_accepts_any_value [Switch Debug] [] ModelFile "-odd-name.pt").
  - repeat constructor.
  - constructor.
  - reflexivity.
  - discriminate.
  - cbn. set_solver.
Defined.

(** In two tokens this particular value, which reads as an unknown option,
    is not taken (a value such as [-5], or one with a space in it, is). *)
Lemma separated_form_dash_values :
  parse_args ["--debug"; "--model-file"; "-odd-name.pt"]
  = ErrorExit (ExpectedOneArgument ModelFile)
  /\ parse_args ["--model-file"; "-5"]
     = Parsed (namespace_of [Given ModelFile "-5"])
  /\ parse_args ["--model-file"; "-x y"]
     = Parsed (namespace_of [Given ModelFile "-x y"]).
Proof. repeat split; reflexivity. Qed.

End argparse_forms_facts.

(** ** Canonical command lines and abbreviations *)

Module argparse_canonical_facts.
Import argparse argparse_facts.

Lemma foldl_store_other (cs : list CliArg) (a : Action) (ns : Namespace) :
  a ∉ map cli_action cs ->
  getattr a (foldl store_arg ns cs) = getattr a ns.
Proof.
  revert ns. induction cs as [|c cs IH]; intros ns Ha; [done|].
  cbn [foldl]. rewrite IH by set_solver.
  assert (a <> cli_action c) by set_solver.
  destruct c; by apply getattr_setattr_ne.
Qed.

Lemma foldl_store_flag (cs : list CliArg) (a : Action) (ns : Namespace) :
  Forall canonical cs -> kind a = KStoreTrue ->
  getattr a ns = VBool true ->
  getattr a (foldl store_arg ns cs) = VBool true.
Proof.
  intros Hcs Hk. revert ns.
  induction Hcs as [|c cs Hc _ IH]; intros ns Hns; [done|].
  cbn [foldl]. apply IH.
  destruct c as [b v|b]; cbn [store_arg].
  - destruct Hc as [Hkb _].
    rewrite getattr_setattr_ne; [done|]. intros ->. congruence.
  - destruct (decide (a = b)) as [->|Hab].
    + destruct b; try done.
    + by rewrite getattr_setattr_ne.
Qed.

(** X6: a canonical command line that gives [--model-file] is accepted.
    In the namespace, an option that was not given has its default, a flag
    that was given is [True], and a [store] option has the value of its
    last occurrence. *)
Theorem canonical_command_line_accepted (cs : list CliArg) :
  Forall canonical cs -> ModelFile ∈ map cli_action cs ->
  exists ns,
    parse_args (command_line cs) = Parsed ns
    /\ (forall a, a ∉ map cli_action cs -> getattr a ns = default a)
    /\ (forall a, Switch a ∈ cs -> getattr a ns = VBool true)
    /\ (forall cs1 a v cs2,
          cs = cs1 ++ Given a v :: cs2 -> a ∉ map cli_action cs2 ->
          getattr a ns = VStr v).
Proof.
  intros Hcs Hm. exists (namespace_of cs).
  split; [by apply parse_args_canonical|]. split; [|split].
  - intros a Ha. rewrite namespace_of_default by done. by destruct a.
  - intros a Hin. apply list_elem_of_split in Hin as (cs1 & cs2 & ->).
    apply Forall_app in Hcs as [_ Hcs]. apply Forall_cons in Hcs as [Hk Hcs2].
    cbn in Hk. unfold namespace_of. rewrite foldl_app. cbn [foldl store_arg].
    apply foldl_store_flag; [done|done|]. by destruct a.
  - intros cs1 a v cs2 -> Ha.
    apply Forall_app in Hcs as [_ Hcs]. apply Forall_cons in Hcs as [[Hk _] _].
    unfold namespace_of. rewrite foldl_app. cbn [foldl store_arg].
    rewrite foldl_store_other by done. by destruct a.
Qed.

Lemma canonical_command_line_accepted_witness :
  exists ns,
    parse_args ["--model-file"; "a.pt"; "--quantize"; "--model-file"; "b.pt"]
    = Parsed ns
    /\ model_file ns = VStr "b.pt" /\ quantize ns = VBool true
    /\ debug ns = VBool false.
Proof.
  destruct (canonical_command_line_accepted
              [Given ModelFile "a.pt"; Switch Quantize; Given ModelFile "b.pt"])
    as (ns & Hp & Hdef & Hflag & Hlast).
  - repeat constructor.
  - cbn. set_solver.
  - exists ns. split; [exact Hp|]. split; [|split].
    + apply (Hlast [Given ModelFile "a.pt"; Switch Quantize] ModelFile "b.pt" []);
        [reflexivity | cbn; set_solver].
    + apply (Hflag Quantize). set_solver.
    + apply (Hdef Debug). cbn. set_solver.
Defined.

Lemma prefix_in_prefixes (s k : string) :
  String.prefix k s = true -> k ∈ prefixes s.
Proof.
  revert k. induction s as [|c s IH]; intros k.
  - destruct k; [left | discriminate].
  - destruct k as [|d k]; [left|].
    intros [<- Hk]%prefix_cons. right.
    apply list_elem_of_fmap. exists k. split; [done | by apply IH].
Qed.

End argparse_canonical_facts.

(** ** Help and stray arguments *)

Module argparse_help_facts.
Import argparse argparse_facts argparse_forms argparse_forms_facts.

(** X8: [-h] or [--help] after well-formed options prints the help and exits,
    whether or not [--model-file] was given, and whatever follows it, as long
    as the first pass over the command line goes through: what follows is
    never looked at again. *)
Theorem help_after_options (cs : list CliArg) (h : string) (rest : list string)
    (items : list (string * Pattern)) :
  Forall canonical cs -> h ∈ ["-h"; "--help"] ->
  classify rest = Parsed items ->
  parse_args (command_line cs ++ h :: rest) = HelpExit.
Proof.
  intros Hcs Hh Hrest. unfold parse_args, parse_known_args.
  rewrite (classify_canonical_app cs _ Hcs). cbn [classify].
  assert (Hp : bool_decide (h = "--") = false
               /\ _parse_optional h = Parsed (Some (Some Help, h, None))).
  { apply elem_of_cons in Hh as [->|Hh]; [done|].
    apply list_elem_of_singleton in Hh as ->. done. }
  destruct Hp as [-> ->]. rewrite Hrest. cbn [mbind Outcome_bind].
  rewrite (consume_canonical_app cs _ Hcs). cbn [consume].
  unfold consume_optional, match_following, _match_argument.
  cbn [nargs kind mbind Outcome_bind fst snd app take_actions take_action].
  reflexivity.
Qed.

Lemma help_after_options_witness :
  parse_args (command_line [Switch Quantize] ++ "-h" :: ["--output-path"])
  = HelpExit.
Proof.
  apply (help_after_options [Switch Quantize] "-h" ["--output-path"]
           [("--output-path", PO (Some OutputPath, "--output-path", None))]).
  - repeat constructor.
  - set_solver.
  - reflexivity.
Defined.

(** X9: the parser has no positional argument: a string that does not start
    with a dash and is not the value of an option is reported as
    unrecognized, on a command line that is well formed otherwise. *)
Theorem positional_argument_rejected (cs cs' : list CliArg) (tok : string) :
  Forall canonical cs -> Forall canonical cs' ->
  startswith tok "-" = false ->
  ModelFile ∈ map cli_action (cs ++ cs') ->
  parse_args (command_line cs ++ tok :: command_line cs')
  = ErrorExit (UnrecognizedArguments [tok]).
Proof.
  intros Hcs Hcs' Htok Hm. unfold parse_args, parse_known_args.
  rewrite (classify_canonical_app cs _ Hcs). cbn [classify].
  rewrite (bool_decide_eq_false_2 (tok = "--")) by (by intros ->).
  rewrite (parse_optional_value tok Htok), (classify_canonical cs' Hcs').
  cbn [mbind Outcome_bind].
  rewrite (consume_canonical_app cs _ Hcs). cbn [consume].
  rewrite <- (app_nil_r (flat_map render_items cs')).
  rewrite (consume_canonical_app cs' _ Hcs'). cbn [consume mbind Outcome_bind].
  rewrite required_present.
  - reflexivity.
  - cbn [seen_actions after add_extra initial_state]. rewrite !app_nil_r.
    rewrite map_app in Hm.
    apply elem_of_app in Hm as [Hm|Hm]; apply elem_of_app; [right|left];
      apply list_elem_of_In, in_rev; rewrite rev_involutive;
      by apply list_elem_of_In.
Qed.

Lemma positional_argument_rejected_witness :
  parse_args (command_line [Given ModelFile "m.pt"] ++
              "extra.wav" :: command_line [Switch Debug])
  = ErrorExit (UnrecognizedArguments ["extra.wav"]).
Proof.
  apply (positional_argument_rejected [Given ModelFile "m.pt"] [Switch Debug]
           "extra.wav").
  - repeat constructor.
  - repeat constructor.
  - reflexivity.
  - cbn. set_solver.
Defined.

End argparse_help_facts.

(** ** Failure and shape of the transcript *)

Section DecoderMore.
Context `{X : Externals}.

(** X10: [Decoder.forward] raises exactly when the beam-search decoder raises
    (the same exception), or when the decoder returns no hypothesis for the
    first batch entry (an [IndexError]); it never returns an empty transcript
    in place of a missing hypothesis. *)
Theorem Decoder_forward_raises (self : Decoder) (emission : Tensor) (e : PyError) :
  Decoder_forward self emission = Raise e
  <-> beam_search_decode (decoder self) emission = Raise e
      \/ (exists result,
            beam_search_decode (decoder self) emission = Ok result
            /\ (label_sequences result = []
                \/ exists rest, label_sequences result = [] :: rest)
            /\ e = IndexError).
Proof.
  unfold Decoder_forward, best_transcript, subscript.
  destruct (beam_search_decode _ _) as [result|e']; cbn -[str_replace].
  - destruct (label_sequences result) as [|[|best beams] rest] eqn:Hls;
      cbn -[str_replace].
    + split.
      * intros [= <-]. right. exists result.
        split; [done|]. split; [by left | done].
      * intros [[=]|(? & _ & _ & ->)]. done.
    + split.
      * intros [= <-]. right. exists result.
        split; [done|]. split; [right; by exists rest | done].
      * intros [[=]|(? & _ & _ & ->)]. done.
    + split; [intros H; discriminate H|].
      intros [[=]|(r & [= <-] & [Hn|[? Hn]] & _)]; congruence.
  - split; [intros [= ->]; by left|].
    intros [[= ->]|(r & Hr & _)]; [done|discriminate Hr].
Qed.

Lemma chars_join (best : list string) :
  chars (str_join EmptyString best) = concat (map chars best).
Proof.
  induction best as [|p rest IH]; [done|].
  destruct rest as [|q rest].
  - cbn. by rewrite app_nil_r.
  - change (str_join EmptyString (p :: q :: rest))
      with (p +:+ EmptyString +:+ str_join EmptyString (q :: rest)).
    rewrite !chars_app, IH. done.
Qed.

Lemma chars_length (s : string) : length (chars s) = String.length s.
Proof. induction s as [|c s IH]; [done|]. cbn. by rewrite <- IH. Qed.

(** X11: the transcript has as many characters as the labels of the best
    hypothesis taken together: joining adds nothing and the replacement
    changes no length. *)
Theorem transcript_length (self : Decoder) (emission : Tensor)
    (result : DecodeResult) (batch0 : list (list string)) (best : list string)
    (transcript : string) :
  beam_search_decode (decoder self) emission = Ok result ->
  label_sequences result !! 0%nat = Some batch0 ->
  batch0 !! 0%nat = Some best ->
  Decoder_forward self emission = Ok transcript ->
  String.length transcript = sum_list (map String.length best).
Proof.
  intros Hd H0 H1 Ht.
  rewrite (Decoder_forward_returns self emission result batch0 best Hd H0 H1) in Ht.
  assert (Hc : chars transcript = map space_for_bar (chars (str_join EmptyString best))).
  { replace transcript with (str_replace (str_join EmptyString best) "|" " ")
      by congruence. apply replace_bar_chars. }
  rewrite <- chars_length, Hc, length_map, chars_join.
  clear. induction best as [|p rest IH]; [done|].
  cbn [map concat sum_list]. by rewrite length_app, IH, chars_length.
Qed.

Lemma count_char_app (c : ascii) (l k : list ascii) :
  count_char c (l ++ k) = (count_char c l + count_char c k)%nat.
Proof. unfold count_char. by rewrite filter_app, length_app. Qed.

Lemma count_space_for_bar (l : list ascii) :
  count_char " " (map space_for_bar l)
  = (count_char " " l + count_char "|" l)%nat.
Proof.
  unfold count_char. induction l as [|c l IH]; [done|].
  cbn [map]. rewrite !filter_cons. unfold space_for_bar at 1.
  repeat case_decide; repeat case_bool_decide; subst; try done;
    cbn [length]; lia.
Qed.

(** In the label table, no label has a space, and the word boundary is the
    only label with a [|]. *)
Lemma label_table_chars (label : string) :
  label ∈ labels ->
  count_char " " (chars label) = 0%nat
  /\ count_char "|" (chars label) = (if bool_decide (label = "|") then 1 else 0)%nat.
Proof.
  unfold labels. intros H.
  repeat (apply elem_of_cons in H as [->|H]; [by vm_compute|]).
  by apply elem_of_nil in H.
Qed.

(** X12: for a best hypothesis made of labels of the table, the transcript
    has exactly one space for each word-boundary label, and no other
    space. *)
Theorem transcript_spaces (self : Decoder) (emission : Tensor)
    (result : DecodeResult) (batch0 : list (list string)) (best : list string)
    (transcript : string) :
  beam_search_decode (decoder self) emission = Ok result ->
  label_sequences result !! 0%nat = Some batch0 ->
  batch0 !! 0%nat = Some best ->
  Forall (fun label => label ∈ labels) best ->
  Decoder_forward self emission = Ok transcript ->
  count_char " " (chars transcript) = count_boundaries best.
Proof.
  intros Hd H0 H1 Hlab Ht.
  rewrite (Decoder_forward_returns self emission result batch0 best Hd H0 H1) in Ht.
  assert (Hc : chars transcript = map space_for_bar (chars (str_join EmptyString best))).
  { replace transcript with (str_replace (str_join EmptyString best) "|" " ")
      by congruence. apply replace_bar_chars. }
  rewrite Hc, count_space_for_bar, chars_join. clear -Hlab.
  unfold count_boundaries.
  induction Hlab as [|label rest Hl _ IH]; [done|].
  cbn [map concat]. rewrite !count_char_app, filter_cons.
  destruct (label_table_chars label Hl) as [-> ->].
  case_decide; case_bool_decide; try done; cbn [length]; lia.
Qed.

End DecoderMore.

Lemma transcript_length_witness :
  @Decoder_forward Demo.externals _get_decoder ([11; 10; 4; 7; 1], 16000)
  = Ok "HI A<pad>"
  /\ String.length "HI A<pad>" = sum_list (map String.length ["H"; "I"; "|"; "A"; "<pad>"]).
Proof.
  split; [reflexivity|].
  exact (@transcript_length Demo.externals _get_decoder ([11; 10; 4; 7; 1], 16000)
           _ _ _ "HI A<pad>" eq_refl eq_refl eq_refl eq_refl).
Defined.

Lemma transcript_spaces_witness :
  count_char " " (chars "HI A") = count_boundaries ["H"; "I"; "|"; "A"].
Proof.
  apply (@transcript_spaces Demo.externals _get_decoder ([11; 10; 4; 7], 16000)
           _ _ _ "HI A" eq_refl eq_refl eq_refl).
  - repeat (constructor; [apply (bool_decide_unpack _); by vm_compute|]).
    constructor.
  - reflexivity.
Defined.

(** ** What a run does and does not do *)

Section Gates.
Context `{X : Externals}.

Lemma called_step_observed (tr : list Event) (c : Call) :
  c ∈ calls tr -> OStep (step_of c) ∈ observations tr.
Proof.
  intros (ev & Hin & Hc)%list_elem_of_omap.
  destruct ev as [| | |c'|]; try done. injection Hc as ->.
  apply list_elem_of_omap. by exists (EvCall c).
Qed.

Lemma plan_gated (args : argparse.Namespace) (s : Step) (a : argparse.Action) :
  OStep s ∈ plan args -> gate s = Some a -> truthy (argparse.getattr a args) = true.
Proof.
  unfold plan, export_plan, artifact_plan. intros Hin Hg.
  destruct (truthy (argparse.quantize args)) eqn:Hq,
    (truthy (argparse.test_file args)) eqn:Ht,
    (truthy (argparse.optimize_for_mobile args)) eqn:Ho,
    (argparse.output_path args) as [|b|out|ls];
    cbn [app] in Hin;
    repeat (apply elem_of_cons in Hin as [Hin|Hin];
            [first [discriminate Hin
                   |injection Hin as ->; cbn in Hg;
                    first [discriminate Hg | by injection Hg as <-]]|]);
    by apply elem_of_nil in Hin.
Qed.

End Gates.

(** X13: the run calls into quantization, the self-test stages and the mobile
    optimizer only when asked to: whatever the libraries do, a call to
    [__prepare_scriptable__] or [quantize_dynamic] occurs only with
    [--quantize], a call to the loader, encoder or decoder stage only with a
    non-empty [--test-file], a call to [optimize_for_mobile] only with
    [--optimize-for-mobile]. *)
Theorem unrequested_steps_never_run (X : Externals) (argv : list string)
    (args : argparse.Namespace) (c : Call) (a : argparse.Action) :
  argparse.parse_args argv = argparse.Parsed args ->
  c ∈ calls (trace_of argv) ->
  gate (step_of c) = Some a ->
  truthy (argparse.getattr a args) = true.
Proof.
  intros Hp Hc Hg.
  destruct (run_outcome argv args Hp) as [[k Hk] _].
  apply (plan_gated args (step_of c)); [|done].
  rewrite Hk. apply elem_of_app. left. by apply called_step_observed.
Qed.

Lemma unrequested_steps_never_run_witness :
  @CQuantize Demo.externals (mkEncoder true)
    ∈ calls (@trace_of Demo.externals
               ["--model-file"; "model.pt"; "--output-path"; "out"; "--quantize"])
  /\ truthy (argparse.getattr argparse.Quantize
               (argparse.namespace_of
                  [argparse.Given argparse.ModelFile "model.pt";
                   argparse.Given argparse.OutputPath "out";
                   argparse.Switch argparse.Quantize])) = true.
Proof.
  assert (Hc : @CQuantize Demo.externals (mkEncoder true)
                 ∈ calls (@trace_of Demo.externals
                            ["--model-file"; "model.pt"; "--output-path"; "out";
                             "--quantize"])).
  { apply list_elem_of_In. vm_compute. right. right. by left. }
  split; [exact Hc|].
  exact (unrequested_steps_never_run Demo.externals
           ["--model-file"; "model.pt"; "--output-path"; "out"; "--quantize"]
           _ _ argparse.Quantize eq_refl Hc eq_refl).
Defined.

Section Assembly.
Context `{X : Externals}.

(** The trace of a successful assembly phase. *)
Lemma assemble_ok (args : argparse.Namespace) (cfg : LoggingConfig)
    (enc : Encoder Wav2Vec2Model) (w w' : World) :
  logging w = Some cfg -> (levelno (level cfg) <=? levelno INFO) = true ->
  _assemble args w = (Ok enc, w') ->
  exists model,
    _get_model (argparse.model_file args) (argparse.dict_dir args) = Ok model
    /\ built_encoder args model enc
    /\ omap logged (events w')
       = omap logged (events w)
         ++ [MsgEncoder (mkEncoder (eval_mode model))]
         ++ (if truthy (argparse.quantize args)
             then [MsgText "Quantizing the model"; MsgEncoder enc] else [])
    /\ logging w' = Some cfg.
Proof.
  intros Hl Hlev. unfold _assemble, built_encoder. intros H.
  apply bind_ok in H as (model & w1 & [Hm ->]%call_ok & H).
  apply bind_ok in H as ([] & w2 & H2 & H).
  rewrite (info_emits cfg) in H2 by done. injection H2 as <-.
  exists model. split; [done|].
  destruct (truthy (argparse.quantize args)).
  - apply bind_ok in H as ([] & w3 & H3 & H).
    rewrite (info_emits cfg) in H3 by done. injection H3 as <-.
    apply bind_ok in H as (model' & w4 & [Hp ->]%call_ok & H).
    apply bind_ok in H as (enc' & w5 & [Hq ->]%call_ok & H).
    apply bind_ok in H as ([] & w6 & H6 & H).
    rewrite (info_emits cfg) in H6 by done. injection H6 as <-.
    injection H as -> <-.
    split; [by exists model'|]. split; [|done].
    cbn [record events]. rewrite !omap_app. cbn. by rewrite <- !app_assoc.
  - injection H as <- <-. split; [done|]. split; [|done].
    cbn [record events]. rewrite !omap_app. cbn. by rewrite <- !app_assoc.
Qed.

Lemma bind_basicConfig {A} (cfg : LoggingConfig) (f : unit -> M A) (w : World) :
  (basicConfig cfg ≫= f) w
  = f tt {| logging := match logging w with
                       | None => Some cfg
                       | Some c => Some c
                       end;
            events := events w |}.
Proof. reflexivity. Qed.

Lemma bind_raise {A B} (m : M A) (f : A -> M B) (w w' : World) (e : PyError) :
  m w = (Raise e, w') -> (m ≫= f) w = (Raise e, w').
Proof. intros H. unfold mbind, M_bind. by rewrite H. Qed.

Lemma bind_step {A B} (m : M A) (f : A -> M B) (w w' : World) (a : A) :
  m w = (Ok a, w') -> (m ≫= f) w = f a w'.
Proof. intros H. unfold mbind, M_bind. by rewrite H. Qed.

(** A run that writes an artifact has come through the assembly and, if
    there is one, the self-test. *)
Lemma build_writes (args : argparse.Namespace) :
  artifacts (events (_build args initial_world).2) <> [] ->
  exists model enc,
    _get_model (argparse.model_file args) (argparse.dict_dir args) = Ok model
    /\ built_encoder args model enc
    /\ (truthy (argparse.test_file args) = true ->
        exists transcript, self_test_passes (argparse.test_file args) enc transcript).
Proof.
  unfold _build, _init_logging. rewrite bind_basicConfig.
  cbn [logging events initial_world].
  set (cfg := logging_config (argparse.debug args)).
  set (w1 := {| logging := Some cfg; events := [] |}).
  intros Hart.
  destruct (follows_no_write _ _ _ w1 (assemble_follows args))
    as (pre & Hev & Hpre & _).
  { by destruct (truthy (argparse.quantize args)). }
  destruct (_assemble args w1) as [[enc|e] w2] eqn:Hasm.
  2: { rewrite (bind_raise _ _ _ _ _ Hasm) in Hart.
       cbn in Hev, Hart. rewrite Hev in Hart. done. }
  rewrite (bind_step _ _ _ _ _ Hasm) in Hart.
  destruct (assemble_ok args cfg enc w1 w2 eq_refl (info_level _) Hasm)
    as (model & Hm & Henc & _ & Hlog).
  exists model, enc. split; [done|]. split; [done|].
  intros Ht. rewrite Ht in Hart. cbn [snd events w1 app] in Hev.
  destruct (follows_no_write _ _ _ w2
              (self_test_follows mkLoader enc _get_decoder (argparse.test_file args)))
    as (tr & Hev' & Htr & _); [done|].
  destruct (_self_test mkLoader enc _get_decoder (argparse.test_file args) w2)
    as [[[]|e] w3] eqn:Htest.
  2: { rewrite (bind_raise _ _ _ _ _ Htest) in Hart.
       cbn in Hev', Hart. rewrite Hev', Hev, artifacts_app, Hpre, Htr in Hart.
       done. }
  apply (self_test_ok _ _ _ _ cfg) in Htest
    as (path & wf & em & t & Hp & Hl & He & Hd & _); [|done|apply info_level].
  exists t, path, wf, em. done.
Qed.

End Assembly.

(** X14: no artifact is written before the model is loaded and converted, the
    encoder stage is built (and quantized, with [--quantize]) and, when a
    test file is given, the self-test has gone through all three stages: a
    run that leaves any file behind has passed all of these. *)
Theorem artifacts_need_model_and_self_test (X : Externals) (argv : list string)
    (args : argparse.Namespace) :
  argparse.parse_args argv = argparse.Parsed args ->
  artifacts (trace_of argv) <> [] ->
  exists model enc,
    _get_model (argparse.model_file args) (argparse.dict_dir args) = Ok model
    /\ built_encoder args model enc
    /\ (truthy (argparse.test_file args) = true ->
        exists transcript, self_test_passes (argparse.test_file args) enc transcript).
Proof.
  intros Hp Hart. unfold trace_of in Hart. rewrite (run_parsed _ _ Hp) in Hart.
  by apply build_writes.
Qed.

Lemma artifacts_need_model_and_self_test_witness :
  @result_of Demo.externals
    ["--model-file"; "unscriptable.pt"; "--output-path"; "out";
     "--test-file"; "speech8k.wav"]
  = Raise (RuntimeError "cannot script the model")
  /\ exists enc transcript,
       @self_test_passes Demo.externals (VStr "speech8k.wav") enc transcript.
Proof.
  split; [reflexivity|].
  destruct (artifacts_need_model_and_self_test Demo.externals
              ["--model-file"; "unscriptable.pt"; "--output-path"; "out";
               "--test-file"; "speech8k.wav"] _ eq_refl)
    as (model & enc & _ & _ & Ht).
  - by vm_compute.
  - destruct (Ht eq_refl) as [t Hs]. by exists enc, t.
Defined.

Section SuccessLog.
Context `{X : Externals}.

Lemma build_log (args : argparse.Namespace) (w' : World) :
  _build args initial_world = (Ok tt, w') ->
  exists model enc se0 test_log,
    _get_model (argparse.model_file args) (argparse.dict_dir args) = Ok model
    /\ built_encoder args model enc
    /\ (if truthy (argparse.test_file args)
        then exists transcript,
            self_test_passes (argparse.test_file args) enc transcript
            /\ test_log = [MsgFormat "Testing with %s" (argparse.test_file args);
                           MsgText transcript]
        else test_log = [])
    /\ jit_script (StEncoder enc) = Ok se0
    /\ CScript (StEncoder enc) ∈ calls (events w')
    /\ omap logged (events w')
       = [MsgEncoder (mkEncoder (eval_mode model))]
         ++ (if truthy (argparse.quantize args)
             then [MsgText "Quantizing the model"; MsgEncoder enc] else [])
         ++ test_log.
Proof.
  unfold _build, _init_logging. rewrite bind_basicConfig.
  cbn [logging events initial_world].
  set (cfg := logging_config (argparse.debug args)).
  set (w1 := {| logging := Some cfg; events := [] |}).
  intros H.
  apply bind_ok in H as (enc & w2 & Hasm & H).
  destruct (assemble_ok args cfg enc w1 w2 eq_refl (info_level _) Hasm)
    as (model & Hm & Henc & Hlog2 & Hcfg).
  apply bind_ok in H as ([] & w3 & Htest & H).
  apply export_ok in H
    as (out & sl & sd & se0 & se & Hout & Hsl & Hsd & Hse0 & Hse & ->).
  assert (Htr : exists test_log,
    (if truthy (argparse.test_file args)
     then exists transcript,
         self_test_passes (argparse.test_file args) enc transcript
         /\ test_log = [MsgFormat "Testing with %s" (argparse.test_file args);
                        MsgText transcript]
     else test_log = [])
    /\ omap logged (events w3) = omap logged (events w2) ++ test_log).
  { destruct (truthy (argparse.test_file args)).
    - apply (self_test_ok _ _ _ _ cfg) in Htest
        as (path & wf & em & t & Hp & Hl & He & Hd & ->);
        [|done|apply info_level].
      eexists. split; [exists t; split; [by exists path, wf, em|done]|].
      cbn [record events]. by rewrite omap_app.
    - injection Htest as <-. exists []. split; [done|]. by rewrite app_nil_r. }
  destruct Htr as (test_log & Htest_log & Hlog3).
  exists model, enc, se0, test_log. repeat (split; [done|]).
  cbn [record events]. split.
  - unfold calls. rewrite omap_app. apply elem_of_app. right.
    cbn. rewrite !elem_of_cons. do 6 right. by left.
  - rewrite omap_app, Hlog3, Hlog2. cbn [w1 events omap list_omap app].
    rewrite <- !app_assoc.
    destruct (truthy (argparse.optimize_for_mobile args)); cbn;
      by rewrite app_nil_r.
Qed.

End SuccessLog.

(** X15: what a successful run logs, and which encoder it is about.  The
    encoder stage is the wrapper around the converted model in inference
    mode or, with [--quantize], the result of [quantize_dynamic] on the
    wrapper around the model made scriptable; this one encoder is what the
    self-test runs and what is scripted for [encoder.zip].  The log holds the
    unquantized encoder, with [--quantize] the notice and the quantized
    encoder, with a test file the file name and the transcript, in this
    order, and nothing else. *)
Theorem successful_run_log (X : Externals) (argv : list string)
    (args : argparse.Namespace) :
  argparse.parse_args argv = argparse.Parsed args ->
  result_of argv = Ok tt ->
  exists model enc se0 test_log,
    _get_model (argparse.model_file args) (argparse.dict_dir args) = Ok model
    /\ built_encoder args model enc
    /\ (if truthy (argparse.test_file args)
        then exists transcript,
            self_test_passes (argparse.test_file args) enc transcript
            /\ test_log = [MsgFormat "Testing with %s" (argparse.test_file args);
                           MsgText transcript]
        else test_log = [])
    /\ jit_script (StEncoder enc) = Ok se0
    /\ CScript (StEncoder enc) ∈ calls (trace_of argv)
    /\ omap logged (trace_of argv)
       = [MsgEncoder (mkEncoder (eval_mode model))]
         ++ (if truthy (argparse.quantize args)
             then [MsgText "Quantizing the model"; MsgEncoder enc] else [])
         ++ test_log.
Proof.
  intros Hp Hr. apply build_log. by apply run_build.
Qed.

Lemma successful_run_log_witness :
  exists enc : Encoder (@Wav2Vec2Model Demo.externals),
    omap logged (@trace_of Demo.externals
      ["--model-file"; "model.pt"; "--output-path"; "out"; "--quantize";
       "--test-file"; "speech16k.wav"])
    = [@MsgEncoder Demo.externals (mkEncoder true);
       MsgText "Quantizing the model"; @MsgEncoder Demo.externals enc;
       MsgFormat "Testing with %s" (VStr "speech16k.wav"); MsgText "HI A"].
Proof.
  destruct (successful_run_log Demo.externals
              ["--model-file"; "model.pt"; "--output-path"; "out"; "--quantize";
               "--test-file"; "speech16k.wav"] _ eq_refl eq_refl)
    as (model & enc & se0 & test_log & Hm & _ & Ht & _ & _ & Hlog).
  injection Hm as <-.
  destruct Ht as (t & (path & wf & em & [= <-] & Hl & He & Hd) & ->).
  injection Hl as <-. injection He as <-.
  exists enc. rewrite Hlog. cbn [app truthy]. repeat f_equal.
  vm_compute in Hd. by injection Hd as <-.
Defined.

Section DebugFlag.
Context `{X : Externals}.

Lemma agree_ret {A} (a : A) : agree (mret a) (mret a).
Proof. by intros w1 w2 Hw. Qed.

Lemma agree_bind {A B} (m1 m2 : M A) (f1 f2 : A -> M B) :
  agree m1 m2 -> (forall a, agree (f1 a) (f2 a)) ->
  agree (m1 ≫= f1) (m2 ≫= f2).
Proof.
  intros Hm Hf w1 w2 Hw. destruct (Hm w1 w2 Hw) as [Hr Hw'].
  unfold mbind, M_bind.
  destruct (m1 w1) as [[a|e] w1'], (m2 w2) as [[a'|e'] w2']; cbn in Hr, Hw';
    try discriminate.
  - injection Hr as <-. by apply Hf.
  - by injection Hr as <-.
Qed.

Lemma alike_record (w1 w2 : World) (tr1 tr2 : list Event) :
  alike w1 w2 -> map unformatted tr1 = map unformatted tr2 ->
  alike (record w1 tr1) (record w2 tr2).
Proof.
  intros [Hc Hev] Htr. split; [done|].
  cbn [record events]. by rewrite !map_app, Hev, Htr.
Qed.

Lemma agree_call {A} (c : Call) (r : Result A) : agree (call c r) (call c r).
Proof.
  intros w1 w2 Hw. split; [done|].
  by apply (alike_record w1 w2 [EvCall c] [EvCall c]).
Qed.

Lemma agree_info (msg : LogMsg) : agree (info msg) (info msg).
Proof.
  intros w1 w2 Hw.
  destruct Hw as [(c1 & c2 & H1 & H2 & Hl1 & Hl2) Hev] eqn:E. clear E.
  rewrite (info_emits c1 msg w1 H1 Hl1), (info_emits c2 msg w2 H2 Hl2).
  split; [done|]. by apply alike_record.
Qed.

Lemma agree_save (s : ScriptModule) (p : string) : agree (save s p) (save s p).
Proof.
  intros w1 w2 Hw. unfold save, mbind, M_bind, emit, raise. cbn.
  destruct (save_error s p); cbn; (split; [done|]).
  - by apply (alike_record w1 w2 [EvCall (CSave s p)] [EvCall (CSave s p)]).
  - rewrite <- !app_assoc.
    by apply (alike_record w1 w2 [EvCall (CSave s p); EvWrite p s]
                [EvCall (CSave s p); EvWrite p s]).
Qed.

Lemma agree_assemble (args : argparse.Namespace) :
  agree (_assemble args) (_assemble args).
Proof.
  unfold _assemble.
  apply agree_bind; [apply agree_call|]. intros model.
  apply agree_bind; [apply agree_info|]. intros _.
  destruct (truthy (argparse.quantize args)); [|apply agree_ret].
  apply agree_bind; [apply agree_info|]. intros _.
  apply agree_bind; [apply agree_call|]. intros model'.
  apply agree_bind; [apply agree_call|]. intros enc.
  apply agree_bind; [apply agree_info|]. intros _. apply agree_ret.
Qed.

Lemma agree_self_test (l : Loader) (enc : Encoder Wav2Vec2Model) (d : Decoder)
    (test_file : PyVal) :
  agree (_self_test l enc d test_file) (_self_test l enc d test_file).
Proof.
  unfold _self_test.
  apply agree_bind; [apply agree_info|]. intros _.
  apply agree_bind; [apply agree_call|]. intros waveform.
  apply agree_bind; [apply agree_call|]. intros emission.
  apply agree_bind; [apply agree_call|]. intros transcript.
  apply agree_info.
Qed.

Lemma agree_export (l : Loader) (enc : Encoder Wav2Vec2Model) (d : Decoder)
    (args : argparse.Namespace) :
  agree (_export l enc d args) (_export l enc d args).
Proof.
  unfold _export.
  apply agree_bind; [apply agree_call|]. intros sl.
  apply agree_bind; [apply agree_call|]. intros p1.
  apply agree_bind; [apply agree_save|]. intros _.
  apply agree_bind; [apply agree_call|]. intros sd.
  apply agree_bind; [apply agree_call|]. intros p2.
  apply agree_bind; [apply agree_save|]. intros _.
  apply agree_bind; [apply agree_call|]. intros se0.
  apply agree_bind.
  { destruct (truthy (argparse.optimize_for_mobile args));
      [apply agree_call | apply agree_ret]. }
  intros se.
  apply agree_bind; [apply agree_call|]. intros p3.
  apply agree_save.
Qed.

(** Two runs of [_build] on arguments that differ at most in [debug]. *)
Lemma build_debug (args args' : argparse.Namespace) :
  (forall a, a <> argparse.Debug -> argparse.getattr a args = argparse.getattr a args') ->
  (_build args initial_world).1 = (_build args' initial_world).1
  /\ map unformatted (events (_build args initial_world).2)
     = map unformatted (events (_build args' initial_world).2).
Proof.
  intros H.
  pose proof (H argparse.ModelFile ltac:(done)) as H1.
  pose proof (H argparse.DictDir ltac:(done)) as H2.
  pose proof (H argparse.OutputPath ltac:(done)) as H3.
  pose proof (H argparse.TestFile ltac:(done)) as H4.
  pose proof (H argparse.Quantize ltac:(done)) as H5.
  pose proof (H argparse.OptimizeForMobile ltac:(done)) as H6.
  clear H. destruct args as [mf dd op tf dbg q o], args' as [mf' dd' op' tf' dbg' q' o'].
  cbn in H1, H2, H3, H4, H5, H6. subst mf' dd' op' tf' q' o'.
  unfold _build, _init_logging. rewrite !bind_basicConfig.
  cbn [logging events initial_world argparse.debug argparse.test_file].
  match goal with
  | |- (?m ?w1).1 = (?m' ?w2).1 /\ _ =>
      assert (Ha : agree m m'); [|destruct (Ha w1 w2) as [Hr [_ Hev]]; [|done]]
  end.
  - apply agree_bind; [exact (agree_assemble _)|]. intros enc.
    apply agree_bind; [|intros _; exact (agree_export _ _ _ _)].
    destruct (truthy tf); [apply agree_self_test | apply agree_ret].
  - split; [|done].
    exists (logging_config dbg), (logging_config dbg').
    repeat split; try done; apply info_level.
Qed.

End DebugFlag.

(** X16: [--debug] changes the logging configuration and nothing else: two
    command lines whose arguments differ at most in [debug] end in the same
    way, with the same calls, log messages and file writes in the same
    order; the flag runs no test of its own. *)
Theorem debug_changes_only_log_format (X : Externals) (argv argv' : list string)
    (args args' : argparse.Namespace) :
  argparse.parse_args argv = argparse.Parsed args ->
  argparse.parse_args argv' = argparse.Parsed args' ->
  (forall a, a <> argparse.Debug ->
             argparse.getattr a args = argparse.getattr a args') ->
  result_of argv = result_of argv'
  /\ map unformatted (trace_of argv) = map unformatted (trace_of argv').
Proof.
  intros Hp Hp' H. unfold result_of, trace_of.
  rewrite (run_parsed _ _ Hp), (run_parsed _ _ Hp'). by apply build_debug.
Qed.

Lemma debug_changes_only_log_format_witness :
  @result_of Demo.externals
    ["--model-file"; "model.pt"; "--output-path"; "out"; "--test-file"; "speech8k.wav"]
  = @result_of Demo.externals
      ["--debug"; "--model-file"; "model.pt"; "--output-path"; "out";
       "--test-file"; "speech8k.wav"]
  /\ map unformatted
       (@trace_of Demo.externals
          ["--model-file"; "model.pt"; "--output-path"; "out";
           "--test-file"; "speech8k.wav"])
     = map unformatted
         (@trace_of Demo.externals
            ["--debug"; "--model-file"; "model.pt"; "--output-path"; "out";
             "--test-file"; "speech8k.wav"]).
Proof.
  apply (debug_changes_only_log_format Demo.externals
           ["--model-file"; "model.pt"; "--output-path"; "out";
            "--test-file"; "speech8k.wav"]
           ["--debug"; "--model-file"; "model.pt"; "--output-path"; "out";
            "--test-file"; "speech8k.wav"] _ _ eq_refl eq_refl).
  by intros [] Ha.
Defined.

(** ** Abbreviated options *)

Module argparse_abbreviation_facts.
Import argparse argparse_facts argparse_forms argparse_forms_facts
  argparse_canonical_facts.

Lemma option_key_forms (tok : string) :
  tok = option_key tok \/ exists e, tok = option_key tok +:+ String "=" e.
Proof.
  unfold option_key. destruct (split_first "=" tok) as [[k e]|] eqn:Hs.
  - right. exists e. by apply split_first_app.
  - by left.
Qed.

(** X7: abbreviations. Apart from the ambiguous [--d] and [--o], a token
    names a long option (in full or cut short to [--] and at least one more
    character, alone or followed by [=value]) exactly when the parser finds
    that option in it. *)
Theorem option_spellings (a : Action) (tok : string) :
  option_key tok ∉ ["--d"; "--o"] ->
  spells (long_name a) tok = true
  <-> exists e, _parse_optional tok = Parsed (Some (Some a, long_name a, e)).
Proof.
  intros Hamb. split.
  - unfold spells, startswith. cbn zeta.
    intros [[Hpre _]%andb_true_iff Hlen]%andb_true_iff.
    apply prefix_in_prefixes in Hpre.
    pose proof (option_key_forms tok) as Htok.
    revert Hamb Hpre Hlen Htok. generalize (option_key tok).
    intros key Hamb Hpre Hlen Htok.
    destruct a; cbn in Hpre;
      repeat (apply elem_of_cons in Hpre as [->|Hpre];
              [first [discriminate Hlen
                     |exfalso; apply Hamb;
                      first [by (apply elem_of_cons; left)
                            |by (apply elem_of_cons; right;
                                 apply elem_of_cons; left)]
                     |destruct Htok as [->|[e ->]]; eexists; by vm_compute]|]);
      by apply elem_of_nil in Hpre.
  - intros [e [_ Hn]%parse_optional_sound]. by destruct a.
Qed.

Lemma option_spellings_witness :
  spells (long_name OptimizeForMobile) "--opt" = true
  <-> exists e, _parse_optional "--opt"
                = Parsed (Some (Some OptimizeForMobile,
                                long_name OptimizeForMobile, e)).
Proof.
  apply (option_spellings OptimizeForMobile "--opt").
  intros H. apply elem_of_cons in H as [H|H]; [discriminate H|].
  apply elem_of_cons in H as [H|H]; [discriminate H|].
  by apply elem_of_nil in H.
Defined.

(** X17: [--d] and [--o], alone or followed by [=value], are ambiguous (two
    options start with each) and end the parse with a usage error that
    names both candidates, whatever else is on the command line after
    them. *)
Theorem ambiguous_abbreviation_rejected (cs : list CliArg) (tok : string)
    (rest : list string) :
  Forall canonical cs ->
  option_key tok ∈ ["--d"; "--o"] ->
  parse_args (command_line cs ++ tok :: rest)
  = ErrorExit (AmbiguousOption tok
                 (if bool_decide (option_key tok = "--d")
                  then ["--dict-dir"; "--debug"]
                  else ["--output-path"; "--optimize-for-mobile"])).
Proof.
  intros Hcs Hkey. unfold parse_args, parse_known_args.
  rewrite (classify_canonical_app cs _ Hcs). cbn [classify].
  assert (H : bool_decide (tok = "--") = false
              /\ _parse_optional tok
                 = ErrorExit (AmbiguousOption tok
                     (if bool_decide (option_key tok = "--d")
                      then ["--dict-dir"; "--debug"]
                      else ["--output-path"; "--optimize-for-mobile"]))).
  { pose proof (option_key_forms tok) as Htok.
    revert Hkey Htok. generalize (option_key tok). intros key Hkey Htok.
    repeat (apply elem_of_cons in Hkey as [->|Hkey];
            [destruct Htok as [->|[e ->]]; by vm_compute|]).
    by apply elem_of_nil in Hkey. }
  destruct H as [-> ->]. reflexivity.
Qed.

Lemma ambiguous_abbreviation_rejected_witness :
  parse_args (command_line [Given ModelFile "m.pt"] ++ "--d=dict" :: ["--quantize"])
  = ErrorExit (AmbiguousOption "--d=dict" ["--dict-dir"; "--debug"]).
Proof.
  apply (ambiguous_abbreviation_rejected [Given ModelFile "m.pt"] "--d=dict"
           ["--quantize"]).
  - repeat constructor.
  - apply elem_of_cons. by left.
Defined.

End argparse_abbreviation_facts.

(** ** A run without an output directory *)

Section NoOutputPath.
Context `{X : Externals}.

Lemma call_planned (tr : list Event) (p : list Obs) (c : Call) :
  observations tr `prefix_of` p -> c ∈ calls tr -> OStep (step_of c) ∈ p.
Proof.
  intros [k ->] Hc. apply elem_of_app. left. by apply called_step_observed.
Qed.

Lemma call_raise {A} (c : Call) (e : PyError) (w : World) :
  call (A:=A) c (Raise e) w = (Raise e, record w [EvCall c]).
Proof. reflexivity. Qed.

Lemma call_return {A} (c : Call) (a : A) (w : World) :
  call c (Ok a) w = (Ok a, record w [EvCall c]).
Proof. reflexivity. Qed.

(** Without an output directory, the run gets to the first [os.path.join]
    only through a successful assembly, self-test (if there is one) and
    scripting of the loader, and the join ends it. *)
Lemma build_reaches_join (args : argparse.Namespace) :
  argparse.output_path args = VNone ->
  last (calls (events (_build args initial_world).2))
  = Some (CJoin VNone "loader.zip") ->
  (_build args initial_world).1 = Raise TypeError
  /\ exists model enc sl,
       _get_model (argparse.model_file args) (argparse.dict_dir args) = Ok model
       /\ built_encoder args model enc
       /\ (truthy (argparse.test_file args) = true ->
           exists transcript,
             self_test_passes (argparse.test_file args) enc transcript)
       /\ jit_script (StLoader mkLoader) = Ok sl.
Proof.
  intros Hout. unfold _build, _init_logging. rewrite bind_basicConfig.
  cbn [logging events initial_world].
  set (cfg := logging_config (argparse.debug args)).
  set (w1 := {| logging := Some cfg; events := [] |}).
  intros Hlast.
  destruct (assemble_follows args w1) as (pre & Hev & Hpre & _).
  cbn [events w1 app] in Hev.
  assert (Hnot1 : CJoin VNone "loader.zip" ∉ calls pre).
  { intros Hin%(call_planned _ _ _ Hpre).
    destruct (truthy (argparse.quantize args)); cbn [app] in Hin;
      repeat (apply elem_of_cons in Hin as [Hin|Hin]; [discriminate Hin|]);
      by apply elem_of_nil in Hin. }
  destruct (_assemble args w1) as [[enc|e] w2] eqn:Hasm.
  2: { rewrite (bind_raise _ _ _ _ _ Hasm) in Hlast. cbn [snd] in Hlast, Hev.
       rewrite Hev in Hlast. by apply last_Some_elem_of in Hlast. }
  rewrite (bind_step _ _ _ _ _ Hasm) in Hlast |- *. cbn [snd] in Hev.
  destruct (assemble_ok args cfg enc w1 w2 eq_refl (info_level _) Hasm)
    as (model & Hm & Henc & _ & Hlog).
  (* the self-test *)
  assert (Htest : exists w3 tr,
    (if truthy (argparse.test_file args)
     then _self_test mkLoader enc _get_decoder (argparse.test_file args)
     else mret tt) w2 = (Ok tt, w3)
    /\ events w3 = events w2 ++ tr
    /\ (truthy (argparse.test_file args) = true ->
        exists transcript,
          self_test_passes (argparse.test_file args) enc transcript)).
  { destruct (truthy (argparse.test_file args)) eqn:Ht.
    - destruct (self_test_follows mkLoader enc _get_decoder
                  (argparse.test_file args) w2) as (tr & Hev' & Htr & _).
      destruct (_self_test mkLoader enc _get_decoder (argparse.test_file args) w2)
        as [[[]|e] w3] eqn:Hst.
      + exists w3, tr. split; [done|]. split; [done|]. intros _.
        apply (self_test_ok _ _ _ _ cfg) in Hst
          as (path & wf & em & t & Hp & Hl & He & Hd & _);
          [|done|apply info_level].
        by exists t, path, wf, em.
      + exfalso. rewrite (bind_raise _ _ _ _ _ Hst) in Hlast.
        cbn [snd] in Hlast, Hev'. rewrite Hev', Hev, calls_app in Hlast.
        apply last_Some_elem_of, elem_of_app in Hlast as [Hin|Hin]; [done|].
        apply (call_planned _ _ _ Htr) in Hin.
        repeat (apply elem_of_cons in Hin as [Hin|Hin]; [discriminate Hin|]).
        by apply elem_of_nil in Hin.
    - exists w2, []. rewrite app_nil_r. by repeat split. }
  destruct Htest as (w3 & tr & Hst & Hev3 & Hpass).
  rewrite (bind_step _ _ _ _ _ Hst) in Hlast |- *.
  unfold _export in Hlast |- *. rewrite Hout in Hlast |- *.
  destruct (jit_script (StLoader mkLoader)) as [sl|e] eqn:Hsl.
  - rewrite (bind_step _ _ _ _ _ (call_return _ sl w3)).
    cbn [os_path_join].
    rewrite (bind_raise _ _ _ _ _ (call_raise _ TypeError _)).
    split; [done|]. by exists model, enc, sl.
  - exfalso. rewrite (bind_raise _ _ _ _ _ (call_raise _ e w3)) in Hlast.
    cbn [snd record events] in Hlast. rewrite calls_app in Hlast.
    cbn in Hlast. by rewrite last_snoc in Hlast.
Qed.

End NoOutputPath.

(** C10, the claim as stated: it fails on a command line with a stray
    argument, which the parser rejects, and on one whose checkpoint cannot
    be loaded, where the run ends before it gets to the join. *)
Lemma output_path_claim_fails :
  ~ @fails_only_at_join Demo.externals ["--model-file"; "model.pt"; "--bogus"]
  /\ ~ @fails_only_at_join Demo.externals ["--model-file"; "missing.pt"].
Proof.
  split; intros H.
  - destruct H as (args & Hp & _).
    + by apply Exists_cons_hd.
    + by repeat constructor.
    + vm_compute in Hp. discriminate Hp.
  - destruct H as (args & _ & _ & Hr & _).
    + by apply Exists_cons_hd.
    + by repeat constructor.
    + vm_compute in Hr. discriminate Hr.
Qed.

(** C10 (as amended): [--output-path] is optional and never checked up
    front.  A well-formed command line that gives [--model-file] and not
    [--output-path] is accepted.  On every accepted command line on which
    nothing names [--output-path], the attribute is [None]; the run starts
    with the model loading, never writes an artifact and always fails, right
    after the first call that raises.  If no call before it fails, the run
    goes through the whole plan up to the first [os.path.join], whose
    [TypeError] ends it; and it gets to that join only with the model loaded
    and converted, the encoder built, the self-test passed if a test file is
    given, and the loader scripted. *)
Theorem missing_output_path_fails_at_export (X : Externals) :
  (forall cs,
      Forall argparse.canonical cs ->
      argparse.ModelFile ∈ map argparse.cli_action cs ->
      argparse.OutputPath ∉ map argparse.cli_action cs ->
      argparse.parse_args (argparse.command_line cs)
      = argparse.Parsed (argparse.namespace_of cs)
      /\ argparse.output_path (argparse.namespace_of cs) = VNone)
  /\ (forall (argv : list string) (args : argparse.Namespace),
        argparse.parse_args argv = argparse.Parsed args ->
        absent "--output-path" argv ->
        argparse.output_path args = VNone
        /\ plan args
           = [OStep SGetModel]
             ++ (if truthy (argparse.quantize args)
                 then [OStep SPrepareScriptable; OStep SQuantize] else [])
             ++ (if truthy (argparse.test_file args)
                 then [OStep SLoader; OStep SEncoder; OStep SDecoder] else [])
             ++ [OStep (SScript KLoader); OStep (SJoin VNone "loader.zip")]
        /\ observations (trace_of argv) `prefix_of` plan args
        /\ artifacts (trace_of argv) = []
        /\ (exists pre c e,
              trace_of argv = pre ++ [EvCall c]
              /\ Forall succeeded (calls pre)
              /\ call_error c = Some e
              /\ result_of argv = Raise e)
        /\ ((forall c, c ∈ calls (trace_of argv) ->
                       c <> CJoin VNone "loader.zip" -> succeeded c) ->
            result_of argv = Raise TypeError
            /\ last (calls (trace_of argv)) = Some (CJoin VNone "loader.zip")
            /\ observations (trace_of argv) = plan args)
        /\ (last (calls (trace_of argv)) = Some (CJoin VNone "loader.zip") ->
            result_of argv = Raise TypeError
            /\ exists model enc sl,
                 _get_model (argparse.model_file args) (argparse.dict_dir args)
                 = Ok model
                 /\ built_encoder args model enc
                 /\ (truthy (argparse.test_file args) = true ->
                     exists transcript,
                       self_test_passes (argparse.test_file args) enc transcript)
                 /\ jit_script (StLoader mkLoader) = Ok sl)).
Proof.
  split.
  { intros cs Hcs Hm Ho. split.
    - by apply argparse_facts.parse_args_canonical.
    - by apply (argparse_facts.namespace_of_default cs argparse.OutputPath). }
  intros argv args Hp Habs.
  pose proof (argparse_facts.parse_args_output_path_default _ _ Habs Hp) as Hout.
  destruct (run_outcome argv args Hp) as [Hpre Hres].
  assert (Hplan : plan args
     = [OStep SGetModel]
       ++ (if truthy (argparse.quantize args)
           then [OStep SPrepareScriptable; OStep SQuantize] else [])
       ++ (if truthy (argparse.test_file args)
           then [OStep SLoader; OStep SEncoder; OStep SDecoder] else [])
       ++ [OStep (SScript KLoader); OStep (SJoin VNone "loader.zip")]).
  { unfold plan, export_plan. by rewrite Hout. }
  assert (Hjoin : OStep (SJoin VNone "loader.zip") ∈ plan args).
  { rewrite Hplan. set_solver. }
  assert (Hlastplan : last (plan args) = Some (OStep (SJoin VNone "loader.zip"))).
  { rewrite Hplan.
    by destruct (truthy (argparse.quantize args)), (truthy (argparse.test_file args)). }
  assert (Hab : exists pre c e,
        trace_of argv = pre ++ [EvCall c]
        /\ Forall succeeded (calls pre)
        /\ call_error c = Some e
        /\ result_of argv = Raise e).
  { destruct Hres as [([] & _ & _ & Hs & Ho)|Hab]; [exfalso | done].
    rewrite <- Ho in Hjoin.
    apply observed_step_called in Hjoin as (c & Hc & ->%step_of_join).
    rewrite Forall_forall in Hs. by specialize (Hs _ Hc). }
  split; [done|]. split; [done|]. split; [done|]. split.
  { pose proof (omap_prefix write_of _ _ Hpre) as Hw.
    rewrite <- artifacts_observed, plan_writes in Hw.
    unfold artifact_paths in Hw. rewrite Hout in Hw.
    apply prefix_nil_inv in Hw. by destruct (artifacts (trace_of argv)). }
  split; [done|]. split.
  - intros Hall. destruct Hab as (pre & c & e & Htr & Hs & Hc & Hr).
    assert (Hcin : c ∈ calls (trace_of argv)).
    { rewrite Htr, calls_app. set_solver. }
    assert (Hobs : observations (trace_of argv)
                   = observations pre ++ [OStep (step_of c)]).
    { by rewrite Htr, observations_app. }
    assert (c = CJoin VNone "loader.zip") as ->.
    { destruct (decide (step_of c = SJoin VNone "loader.zip")) as [Hst|Hst].
      - by apply step_of_join.
      - exfalso. assert (Hne : c <> CJoin VNone "loader.zip") by (by intros ->).
        specialize (Hall c Hcin Hne). unfold succeeded in Hall. congruence. }
    cbn in Hc. injection Hc as <-.
    split; [done|]. split.
    { rewrite Htr, calls_app. apply last_snoc. }
    apply prefix_full; [done | apply plan_NoDup | |].
    + rewrite Hobs. by destruct (observations pre).
    + by rewrite Hlastplan, Hobs, last_snoc.
  - unfold trace_of, result_of. rewrite (run_parsed _ _ Hp).
    by apply build_reaches_join.
Qed.

Lemma missing_output_path_fails_at_export_witness :
  argparse.parse_args ["--model-file"; "model.pt"; "--quantize"]
  = argparse.Parsed
      (argparse.namespace_of
         [argparse.Given argparse.ModelFile "model.pt";
          argparse.Switch argparse.Quantize])
  /\ absent "--output-path" ["--model-file"; "model.pt"; "--quantize"]
  /\ @result_of Demo.externals ["--model-file"; "model.pt"; "--quantize"]
     = Raise TypeError
  /\ artifacts (@trace_of Demo.externals ["--model-file"; "model.pt"; "--quantize"])
     = []
  /\ observations
       (@trace_of Demo.externals ["--model-file"; "model.pt"; "--quantize"])
     = [OStep SGetModel; OStep SPrepareScriptable; OStep SQuantize;
        OStep (SScript KLoader); OStep (SJoin VNone "loader.zip")]
  /\ exists model,
       @_get_model Demo.externals (VStr "model.pt") VNone = Ok model.
Proof.
  destruct (missing_output_path_fails_at_export Demo.externals) as [Hacc Hrun].
  destruct (Hacc [argparse.Given argparse.ModelFile "model.pt";
                  argparse.Switch argparse.Quantize]) as [Hp _].
  { by repeat constructor. }
  { apply elem_of_cons. by left. }
  { intros H. apply elem_of_cons in H as [H|H]; [discriminate H|].
    apply elem_of_cons in H as [H|H]; [discriminate H|].
    by apply elem_of_nil in H. }
  assert (Habs : absent "--output-path" ["--model-file"; "model.pt"; "--quantize"])
    by (repeat constructor).
  split; [exact Hp|]. split; [exact Habs|].
  destruct (Hrun ["--model-file"; "model.pt"; "--quantize"] _ Hp Habs)
    as (_ & _ & _ & Hart & _ & Hfull & Hreach).
  destruct Hfull as (Hr & Hlast & Hobs).
  { intros c Hc Hne. vm_compute in Hc.
    repeat (apply elem_of_cons in Hc as [->|Hc]; [done|]).
    by apply elem_of_nil in Hc. }
  split; [exact Hr|]. split; [exact Hart|]. split; [exact Hobs|].
  destruct (Hreach Hlast) as (_ & model & _ & _ & Hm & _).
  by exists model.
Defined.
